(** * Turtle's Adventure: a shallow embedding of [turtle_adventure.py]

    The module defines the entities of the game (waypoint, home, player and
    five enemy classes), the enemy generator with its self re-arming spawn
    callbacks, and the two game-over operations.

    Numbers.  Python [int] values are modelled by [Z] (with [Z.div] and
    [Z.modulo] for [//] and [%], which round like Python's).  Python [float]
    values are modelled by the real numbers [R]: rounding of binary64
    arithmetic is not represented, so every statement below about a
    coordinate or a speed is a statement about the exact real value.  The
    roundings that the code asks for itself, [round(x, 10)] in the turtle's
    [heading] and [towards], are part of the model. *)

From Stdlib Require Import ZArith Reals Lra Lia List String Bool.
Import ListNotations.

Local Open Scope Z_scope.

(** ** The Python runtime pieces the module relies on *)

Module Py.

(** Exceptions that the modelled code can raise. *)
Inductive exn : Type :=
| ValueError   (* random.randint on an empty range *)
| KeyError     (* dict lookup of a missing key *)
| TypeError    (* subscripting or passing None *)
| IndexError   (* list index out of range, random.choice([]) *)
| ZeroDivisionError.  (* float division by zero *)

Inductive result (A : Type) : Type :=
| Ok (a : A)
| Raise (e : exn).
Arguments Ok {A} a.
Arguments Raise {A} e.

(** [a < b] and [a <= b] on floats (here: reals). *)
Definition Rltb (a b : R) : bool := if Rlt_dec a b then true else false.
Definition Rleb (a b : R) : bool := if Rle_dec a b then true else false.

(** [math.atan2(y, x)], without the signed zeros of IEEE arithmetic. *)
Definition atan2 (y x : R) : R :=
  if Rlt_dec 0 x then atan (y / x)
  else if Rlt_dec x 0 then
         if Rle_dec 0 y then (atan (y / x) + PI)%R else (atan (y / x) - PI)%R
       else if Rlt_dec 0 y then (PI / 2)%R
            else if Rlt_dec y 0 then (- (PI / 2))%R else 0%R.

(** [math.sqrt(a ** 2 + b ** 2)]. *)
Definition hypot (a b : R) : R := sqrt (a ^ 2 + b ^ 2).

(** [math.degrees] and [math.radians]. *)
Definition degrees (x : R) : R := (x * 180 / PI)%R.
Definition radians (x : R) : R := (x * PI / 180)%R.

(** [a % b] on floats, for a positive [b]: the result is in [0, b). *)
Definition fmod (a b : R) : R := (a - b * IZR (Zfloor (a / b)))%R.

(** Rounding to the nearest integer, a tie going to the even one. *)
Definition round_half_even (r : R) : Z :=
  let f := Zfloor r in
  let d := (r - IZR f)%R in
  if Rlt_dec d (1 / 2) then f
  else if Rlt_dec (1 / 2) d then f + 1
  else if Z.even f then f else f + 1.

(** [round(r, ndigits)]. *)
Definition round_ndigits (r : R) (ndigits : nat) : R :=
  (IZR (round_half_even (r * 10 ^ ndigits)) / 10 ^ ndigits)%R.

(** The state of the global [random] module: an arbitrary but fixed
    sequence of raw draws and the number of draws consumed so far. *)
Record Random : Type := mkRandom { draws : nat -> Z; cursor : nat }.

Definition next_draw (r : Random) : Z * Random :=
  (draws r (cursor r), mkRandom (draws r) (S (cursor r))).

(** [random.randint(a, b)]: some integer of [a..b]; ValueError when the
    range is empty. *)
Definition randint (a b : Z) (r : Random) : result (Z * Random) :=
  if a <=? b
  then let '(d, r') := next_draw r in Ok (a + d mod (b - a + 1), r')
  else Raise ValueError.

(** [random.choice(l)]: some element of [l]; IndexError on []. *)
Definition choice {A : Type} (l : list A) (r : Random) : result (A * Random) :=
  let '(d, r') := next_draw r in
  match nth_error l (Z.to_nat (d mod Z.of_nat (List.length l))) with
  | Some a => Ok (a, r')
  | None => Raise IndexError
  end.

(** A dict with integer keys, as an association list. *)
Fixpoint dict_get {V : Type} (d : list (Z * V)) (k : Z) : result V :=
  match d with
  | [] => Raise KeyError
  | (k', v) :: d' => if k' =? k then Ok v else dict_get d' k
  end.

(** [max(d.keys())] of a non-empty dict. *)
Fixpoint max_key {V : Type} (d : list (Z * V)) : result Z :=
  match d with
  | [] => Raise ValueError
  | [(k, _)] => Ok k
  | (k, _) :: d' =>
      match max_key d' with
      | Ok m => Ok (Z.max k m)
      | Raise e => Raise e
      end
  end.

End Py.
Import Py.

(** ** Python's [turtle.RawTurtle], as far as the game uses it

    The turtle module is not part of the repository; what follows is its
    code for the calls that [Player] and [init_game] make, in the default
    angle unit (degrees, full circle 360) and in the mode "world" that
    [setworldcoordinates] selects (angle offset 0, angle orientation 1).
    A turtle keeps its position and a vector [_orient] along which it
    moves. *)

Module Turtle.

Record RawTurtle : Type := mkTurtle {
  xcor : R; ycor : R;        (* _position *)
  orient_x : R; orient_y : R (* _orient *)
}.

(** [RawTurtle(canvas)], and every turtle after the reset that a change
    of mode performs: at the origin, facing east. *)
Definition RawTurtle_init : RawTurtle := mkTurtle 0 0 1 0.

Definition setx (v : R) (t : RawTurtle) : RawTurtle :=
  mkTurtle v (ycor t) (orient_x t) (orient_y t).
Definition sety (v : R) (t : RawTurtle) : RawTurtle :=
  mkTurtle (xcor t) v (orient_x t) (orient_y t).

(** [Vec2D.rotate(angle)]. *)
Definition rotate (angle : R) (v : R * R) : R * R :=
  let perp := ((- snd v)%R, fst v) in
  let angle := radians angle in
  let c := cos angle in
  let s := sin angle in
  ((fst v * c + fst perp * s)%R, (snd v * c + snd perp * s)%R).

(** The shared body of [heading] and [towards]:
    [result = round(math.degrees(math.atan2(y, x)), 10) % 360.0;
     result /= self._degreesPerAU;
     return (self._angleOffset + self._angleOrient*result) % self._fullcircle]. *)
Definition in_degrees (y x : R) : R :=
  let result := fmod (round_ndigits (degrees (atan2 y x)) 10) 360 in
  let result := (result / 1)%R in
  fmod (0 + 1 * result) 360.

Definition heading (t : RawTurtle) : R := in_degrees (orient_y t) (orient_x t).

Definition towards (x y : R) (t : RawTurtle) : R :=
  in_degrees (y - ycor t) (x - xcor t).

(** [setheading(to_angle)]: the orientation is turned by the difference
    between [to_angle] and the current [heading()]. *)
Definition setheading (to_angle : R) (t : RawTurtle) : RawTurtle :=
  let angle := ((to_angle - heading t) * 1)%R in
  let full := 360%R in
  let angle := (fmod (angle + full / 2) full - full / 2)%R in
  let o := rotate angle (orient_x t, orient_y t) in
  mkTurtle (xcor t) (ycor t) (fst o) (snd o).

Definition forward (d : R) (t : RawTurtle) : RawTurtle :=
  mkTurtle (xcor t + orient_x t * d) (ycor t + orient_y t * d)
           (orient_x t) (orient_y t).

Definition distance (x y : R) (t : RawTurtle) : R :=
  hypot (x - xcor t) (y - ycor t).

(** [TurtleScreen.setworldcoordinates(llx, lly, urx, ury)], as far as its
    caller can tell: the scales [canvwidth / xspan] and
    [canvheight / yspan] are computed, and a span of zero makes the
    division raise. *)
Definition setworldcoordinates (llx lly urx ury : Z) : result unit :=
  let xspan := urx - llx in
  let yspan := ury - lly in
  if xspan =? 0 then Raise ZeroDivisionError
  else if yspan =? 0 then Raise ZeroDivisionError
  else Ok tt.

End Turtle.
Import Turtle.

(** ** Data model *)

(** [Waypoint]: the target of the player.  Its [x] and [y], like those of
    every element, are the plain attributes of the [GameElement] base class;
    a fresh element is taken to sit at (0, 0) until it is placed. *)
Record Waypoint : Type := mkWaypoint {
  waypoint_x : R;
  waypoint_y : R;
  is_active : bool
}.

(** [Home]: built from a pair of ints and an int size. *)
Record Home : Type := mkHome {
  home_x : Z;
  home_y : Z;
  home_size : Z
}.

(** [Player]: its position is the position of its turtle. *)
Record Player : Type := mkPlayer {
  player_speed : R;
  player_turtle : RawTurtle
}.

Definition player_x (p : Player) : R := xcor (player_turtle p).
Definition player_y (p : Player) : R := ycor (player_turtle p).

(** The five enemy classes.  [size] and [color] are the private fields of
    the [Enemy] base class, readable through properties without setter. *)

Record DemoEnemy : Type := mkDemoEnemy {
  demo_x : R;
  demo_y : R;
  demo_size : Z;
  demo_color : string
}.

Record RandomWalkEnemy : Type := mkRandomWalkEnemy {
  rw_x : R;
  rw_y : R;
  rw_size : Z;
  rw_color : string;
  rw_obj : option string;      (* fill of the canvas oval, None before create() *)
  rw_acc : R;
  rw_speed_x : R;
  rw_speed_y : R;
  rw_max_speed : R
}.

Record ChasingEnemy : Type := mkChasingEnemy {
  ch_x : R;
  ch_y : R;
  ch_size : Z;
  ch_color : string;
  ch_obj : option string;
  ch_speed : R
}.

(** The bound method stored in [FencingEnemy.state]. *)
Inductive FencingState : Type := move_up | move_left | move_down | move_right.

(** A fencing enemy only ever holds integer coordinates: it is placed at
    [home + path_rad] and moves by its integer speed. *)
Record FencingEnemy : Type := mkFencingEnemy {
  fe_x : Z;
  fe_y : Z;
  fe_size : Z;
  fe_color : string;
  fe_obj : option string;
  fe_speed : Z;
  fe_path_rad : Z;
  fe_state : FencingState
}.

(** The bound method stored in [ChargerEnemy.__state]. *)
Inductive ChargerState : Type := hunt | charge | strike | break.

Record ChargerEnemy : Type := mkChargerEnemy {
  cg_x : R;
  cg_y : R;
  cg_size : Z;
  cg_color : string;
  cg_obj : option string;      (* fill of the canvas rectangle *)
  cg_speed : R;
  cg_break_acc : R;
  cg_break_deg : option R;
  cg_strike_speed : R;
  cg_hunt_speed : R;
  cg_charge_rad : R;
  cg_charge_speed : Z;
  cg_state : ChargerState;
  cg_charge_state : Z;
  cg_charge_col : list (Z * string);
  cg_charge_loc : option (R * R)
}.

Inductive Enemy : Type :=
| Demo (e : DemoEnemy)
| RandomWalk (e : RandomWalkEnemy)
| Chasing (e : ChasingEnemy)
| Fencing (e : FencingEnemy)
| Charger (e : ChargerEnemy).

(** The enemy classes as values, as they are stored in [enemies_type]. *)
Inductive EnemyKind : Type :=
| DemoEnemyK | RandomWalkEnemyK | ChasingEnemyK | FencingEnemyK | ChargerEnemyK.

Definition kind_of (e : Enemy) : EnemyKind :=
  match e with
  | Demo _ => DemoEnemyK
  | RandomWalk _ => RandomWalkEnemyK
  | Chasing _ => ChasingEnemyK
  | Fencing _ => FencingEnemyK
  | Charger _ => ChargerEnemyK
  end.

Definition EnemyKind_eqb (a b : EnemyKind) : bool :=
  match a, b with
  | DemoEnemyK, DemoEnemyK | RandomWalkEnemyK, RandomWalkEnemyK
  | ChasingEnemyK, ChasingEnemyK | FencingEnemyK, FencingEnemyK
  | ChargerEnemyK, ChargerEnemyK => true
  | _, _ => false
  end.

(** An element registered with the game.  The waypoint, the home and the
    player are the objects held in the game's fields: the registry holds
    references to them, not copies. *)
Inductive Element : Type :=
| TheWaypoint
| TheHome
| ThePlayer
| AnEnemy (e : Enemy).

(** The closure that [__spawn_enemy] hands to [game.after]: a call of
    [__spawn_enemy] with these arguments. *)
Record SpawnCall : Type := mkSpawnCall {
  enemy_type : EnemyKind;
  enemy_size : Z;
  enemy_col : string;
  delay : Z;
  spawn_quota : Z
}.

Record Timer : Type := mkTimer { fire_at : Z; callback : SpawnCall }.

(** [TurtleAdventureGame], with the state of its collaborators that the
    module acts on: the element registry, the stopped flag and the pending
    timers of the [Game] base class, the texts drawn on the canvas, and the
    random module. *)
Record Game : Type := mkGame {
  level : Z;
  screen_width : Z;
  screen_height : Z;
  waypoint : Waypoint;
  player : Player;
  home : Home;
  elements : list Element;
  stopped : bool;
  now : Z;
  timers : list Timer;
  canvas_texts : list string;
  random : Random
}.

Definition set_waypoint (w : Waypoint) (g : Game) : Game :=
  mkGame (level g) (screen_width g) (screen_height g) w (player g) (home g)
         (elements g) (stopped g) (now g) (timers g) (canvas_texts g) (random g).
Definition set_player (p : Player) (g : Game) : Game :=
  mkGame (level g) (screen_width g) (screen_height g) (waypoint g) p (home g)
         (elements g) (stopped g) (now g) (timers g) (canvas_texts g) (random g).
Definition set_elements (l : list Element) (g : Game) : Game :=
  mkGame (level g) (screen_width g) (screen_height g) (waypoint g) (player g)
         (home g) l (stopped g) (now g) (timers g) (canvas_texts g) (random g).
Definition set_stopped (b : bool) (g : Game) : Game :=
  mkGame (level g) (screen_width g) (screen_height g) (waypoint g) (player g)
         (home g) (elements g) b (now g) (timers g) (canvas_texts g) (random g).
Definition set_now (t : Z) (g : Game) : Game :=
  mkGame (level g) (screen_width g) (screen_height g) (waypoint g) (player g)
         (home g) (elements g) (stopped g) t (timers g) (canvas_texts g) (random g).
Definition set_timers (l : list Timer) (g : Game) : Game :=
  mkGame (level g) (screen_width g) (screen_height g) (waypoint g) (player g)
         (home g) (elements g) (stopped g) (now g) l (canvas_texts g) (random g).
Definition set_canvas_texts (l : list string) (g : Game) : Game :=
  mkGame (level g) (screen_width g) (screen_height g) (waypoint g) (player g)
         (home g) (elements g) (stopped g) (now g) (timers g) l (random g).
Definition set_random (r : Random) (g : Game) : Game :=
  mkGame (level g) (screen_width g) (screen_height g) (waypoint g) (player g)
         (home g) (elements g) (stopped g) (now g) (timers g) (canvas_texts g) r.

(** ** Code that runs against the game: state plus exceptions *)

Definition M (A : Type) : Type := Game -> result (A * Game).

Definition ret {A : Type} (a : A) : M A := fun g => Ok (a, g).

Definition bind {A B : Type} (c : M A) (k : A -> M B) : M B :=
  fun g => match c g with
           | Ok (a, g') => k a g'
           | Raise e => Raise e
           end.

Definition raise {A : Type} (e : exn) : M A := fun _ => Raise e.

Definition get : M Game := fun g => Ok (g, g).

Definition modify (f : Game -> Game) : M unit := fun g => Ok (tt, f g).

(** Lift a result of the runtime into the monad. *)
Definition lift {A : Type} (r : result A) : M A :=
  fun g => match r with Ok a => Ok (a, g) | Raise e => Raise e end.

(** Run a function of the random module on the game's random state. *)
Definition with_random {A : Type} (f : Random -> result (A * Random)) : M A :=
  fun g => match f (random g) with
           | Ok (a, r') => Ok (a, set_random r' g)
           | Raise e => Raise e
           end.

Declare Scope py_scope.
Delimit Scope py_scope with py.
Notation "x <- c ;; k" := (bind c (fun x => k))
  (at level 61, c at next level, right associativity) : py_scope.
Notation "c ;; k" := (bind c (fun _ => k))
  (at level 61, right associativity) : py_scope.
Local Open Scope py_scope.

(** [for a in l: body(a)]. *)
Fixpoint for_each {A : Type} (l : list A) (body : A -> M unit) : M unit :=
  match l with
  | [] => ret tt
  | a :: l' => body a ;; for_each l' body
  end.

(** ** Waypoint *)

Definition Waypoint_init : Waypoint := mkWaypoint 0 0 false.

Definition Waypoint_activate (x y : R) (w : Waypoint) : Waypoint :=
  mkWaypoint x y true.

Definition Waypoint_deactivate (w : Waypoint) : Waypoint :=
  mkWaypoint (waypoint_x w) (waypoint_y w) false.

Definition Waypoint_update : M unit := ret tt.

(** ** Home *)

Definition Home_init (pos : Z * Z) (size : Z) : Home :=
  let '(x, y) := pos in mkHome x y size.

(** The [size] property and its setter. *)
Definition Home_size (h : Home) : Z := home_size h.

Definition Home_set_size (val : Z) (h : Home) : Home :=
  mkHome (home_x h) (home_y h) val.

Definition Home_update : M unit := ret tt.

Definition Home_contains (h : Home) (x y : R) : bool :=
  let x1 := (IZR (home_x h) - IZR (Home_size h) / 2)%R in
  let x2 := (IZR (home_x h) + IZR (Home_size h) / 2)%R in
  let y1 := (IZR (home_y h) - IZR (Home_size h) / 2)%R in
  let y2 := (IZR (home_y h) + IZR (Home_size h) / 2)%R in
  (Rleb x1 x && Rleb x x2) && (Rleb y1 y && Rleb y y2).

(** ** The services of the [Game] base class and of the canvas *)

(** Modelled from the spec: [Game.stop] of gamelib, which is not among the
    sources: it ends the per-frame ticking for good, by raising the flag
    that the frame ticks and the delayed-callback service check before they
    act. *)
Definition Game_stop : M unit := modify (set_stopped true).

(** Modelled from the spec: [Game.after] of gamelib, which is not among the
    sources: it hands a callback to the delayed-callback service, which
    fires it once, at a logical time not before [now + delay]. *)
Definition Game_after (d : Z) (cb : SpawnCall) : M unit :=
  modify (fun g => set_timers (timers g ++ [mkTimer (now g + d) cb]) g).

(** [canvas.create_text(..., text=text, ...)]: the text is on the canvas. *)
Definition canvas_create_text (text : string) : M unit :=
  modify (fun g => set_canvas_texts (canvas_texts g ++ [text]) g).

(** ** TurtleAdventureGame: the two game-over operations *)

Definition TurtleAdventureGame_game_over_win : M unit :=
  Game_stop ;; canvas_create_text "You Win".

Definition TurtleAdventureGame_game_over_lose : M unit :=
  Game_stop ;; canvas_create_text "You Lose".

(** ** Player *)

Definition Player_init (turtle : RawTurtle) : Player := mkPlayer 5 turtle.

Definition Player_set_x (val : R) (p : Player) : Player :=
  mkPlayer (player_speed p) (setx val (player_turtle p)).
Definition Player_set_y (val : R) (p : Player) : Player :=
  mkPlayer (player_speed p) (sety val (player_turtle p)).

Definition Player_update : M unit :=
  g <- get ;;
  (if Home_contains (home g) (player_x (player g)) (player_y (player g))
   then TurtleAdventureGame_game_over_win
   else ret tt) ;;
  g <- get ;;
  let self := player g in
  let wp := waypoint g in
  if is_active wp then
    let turtle :=
      setheading (towards (waypoint_x wp) (waypoint_y wp) (player_turtle self))
                 (player_turtle self) in
    let turtle := forward (player_speed self) turtle in
    modify (set_player (mkPlayer (player_speed self) turtle)) ;;
    if Rltb (distance (waypoint_x wp) (waypoint_y wp) turtle) (player_speed self)
    then modify (set_waypoint (Waypoint_deactivate wp))
    else ret tt
  else ret tt.

(** ** Enemy: what every enemy class inherits *)

Class EnemyClass (T : Type) : Type := {
  x_of : T -> R;
  y_of : T -> R;
  size_of : T -> Z;       (* the [size] property *)
  color_of : T -> string  (* the [color] property *)
}.

#[export] Instance DemoEnemy_class : EnemyClass DemoEnemy :=
  {| x_of := demo_x; y_of := demo_y; size_of := demo_size; color_of := demo_color |}.
#[export] Instance RandomWalkEnemy_class : EnemyClass RandomWalkEnemy :=
  {| x_of := rw_x; y_of := rw_y; size_of := rw_size; color_of := rw_color |}.
#[export] Instance ChasingEnemy_class : EnemyClass ChasingEnemy :=
  {| x_of := ch_x; y_of := ch_y; size_of := ch_size; color_of := ch_color |}.
#[export] Instance FencingEnemy_class : EnemyClass FencingEnemy :=
  {| x_of := fun e => IZR (fe_x e); y_of := fun e => IZR (fe_y e);
     size_of := fe_size; color_of := fe_color |}.
#[export] Instance ChargerEnemy_class : EnemyClass ChargerEnemy :=
  {| x_of := cg_x; y_of := cg_y; size_of := cg_size; color_of := cg_color |}.
#[export] Instance Enemy_class : EnemyClass Enemy :=
  {| x_of := fun e => match e with
                      | Demo d => x_of d | RandomWalk r => x_of r
                      | Chasing c => x_of c | Fencing f => x_of f
                      | Charger c => x_of c end;
     y_of := fun e => match e with
                      | Demo d => y_of d | RandomWalk r => y_of r
                      | Chasing c => y_of c | Fencing f => y_of f
                      | Charger c => y_of c end;
     size_of := fun e => match e with
                         | Demo d => size_of d | RandomWalk r => size_of r
                         | Chasing c => size_of c | Fencing f => size_of f
                         | Charger c => size_of c end;
     color_of := fun e => match e with
                          | Demo d => color_of d | RandomWalk r => color_of r
                          | Chasing c => color_of c | Fencing f => color_of f
                          | Charger c => color_of c end |}.

(** [Enemy.spawn_location]: a random point of the part of the screen
    away from the player. *)
Definition Enemy_spawn_location : M (Z * Z) :=
  g <- get ;;
  spawn_x <- (if Rleb (player_x (player g)) (IZR (screen_width g) / 2)
              then with_random (randint (3 * (screen_width g / 4)) (screen_width g))
              else with_random (randint 0 (3 * (screen_width g / 4)))) ;;
  spawn_y <- (if Rleb (player_y (player g)) (IZR (screen_height g) / 2)
              then with_random (randint (screen_height g / 2) (screen_height g))
              else with_random (randint 0 (screen_height g / 2))) ;;
  ret (spawn_x, spawn_y).

(** [Enemy.hits_player]. *)
Definition hits_player {T : Type} `{EnemyClass T} (self : T) (g : Game) : bool :=
  (Rltb (x_of self - IZR (size_of self) / 2) (player_x (player g))
   && Rltb (player_x (player g)) (x_of self + IZR (size_of self) / 2))
  &&
  (Rltb (y_of self - IZR (size_of self) / 2) (player_y (player g))
   && Rltb (player_y (player g)) (y_of self + IZR (size_of self) / 2)).

(** The last statement of the updates that check for a hit:
    [if self.hits_player(): self.game.game_over_lose()]. *)
Definition lose_if_hit {T : Type} `{EnemyClass T} (self : T) : M unit :=
  g <- get ;;
  if hits_player self g then TurtleAdventureGame_game_over_lose else ret tt.

(** ** DemoEnemy *)

Definition DemoEnemy_init (size : Z) (color : string) : DemoEnemy :=
  mkDemoEnemy 0 0 size color.

Definition DemoEnemy_create (self : DemoEnemy) : DemoEnemy := self.

Definition DemoEnemy_update (self : DemoEnemy) : M DemoEnemy := ret self.

(** ** RandomWalkEnemy *)

Definition RandomWalkEnemy_init (size : Z) (color : string) : RandomWalkEnemy :=
  mkRandomWalkEnemy 0 0 size color None (2 / 10) 0 0 2.

Definition RandomWalkEnemy_create (self : RandomWalkEnemy) : RandomWalkEnemy :=
  mkRandomWalkEnemy (rw_x self) (rw_y self) (rw_size self) (rw_color self)
    (Some (rw_color self)) (rw_acc self) (rw_speed_x self) (rw_speed_y self)
    (rw_max_speed self).

(** Assignment to [x], [y] and the two speed fields. *)
Definition rw_move (x y sx sy : R) (self : RandomWalkEnemy) : RandomWalkEnemy :=
  mkRandomWalkEnemy x y (rw_size self) (rw_color self) (rw_obj self)
    (rw_acc self) sx sy (rw_max_speed self).

Definition RandomWalkEnemy_update (self : RandomWalkEnemy) : M RandomWalkEnemy :=
  acc_x <- with_random (choice [(- rw_acc self)%R; rw_acc self]) ;;
  acc_y <- with_random (choice [(- rw_acc self)%R; rw_acc self]) ;;
  g <- get ;;
  let speed_x := (rw_speed_x self + acc_x)%R in
  let speed_y := (rw_speed_y self + acc_y)%R in
  let speed_x := if Rltb (rw_max_speed self) speed_x
                 then rw_max_speed self else speed_x in
  let speed_y := if Rltb (rw_max_speed self) speed_y
                 then rw_max_speed self else speed_y in
  let speed_x := if Rltb (rw_x self) 0 then Rabs speed_x
                 else if Rltb (IZR (screen_height g)) (rw_x self)
                      then (- Rabs speed_x)%R else speed_x in
  let x := (rw_x self + speed_x)%R in
  let speed_y := if Rltb (rw_y self) 0 then Rabs speed_y
                 else if Rltb (IZR (screen_height g)) (rw_y self)
                      then (- Rabs speed_y)%R else speed_y in
  let y := (rw_y self + speed_y)%R in
  let self := rw_move x y speed_x speed_y self in
  lose_if_hit self ;;
  ret self.

(** ** ChasingEnemy *)

Definition ChasingEnemy_init (size : Z) (color : string) : ChasingEnemy :=
  mkChasingEnemy 0 0 size color None (275 / 100).

Definition ChasingEnemy_create (self : ChasingEnemy) : ChasingEnemy :=
  mkChasingEnemy (ch_x self) (ch_y self) (ch_size self) (ch_color self)
    (Some (ch_color self)) (ch_speed self).

Definition ch_move (x y : R) (self : ChasingEnemy) : ChasingEnemy :=
  mkChasingEnemy x y (ch_size self) (ch_color self) (ch_obj self) (ch_speed self).

Definition ChasingEnemy_update (self : ChasingEnemy) : M ChasingEnemy :=
  g <- get ;;
  let player_x := (player_x (player g) - ch_x self)%R in
  let player_y := (player_y (player g) - ch_y self)%R in
  let deg := atan2 player_y player_x in
  let self := ch_move (ch_x self + cos deg * ch_speed self)
                      (ch_y self + sin deg * ch_speed self) self in
  lose_if_hit self ;;
  ret self.

(** ** FencingEnemy *)

Definition FencingEnemy_init (size : Z) (color : string) : M FencingEnemy :=
  path_rad <- with_random (randint 15 75) ;;
  ret (mkFencingEnemy 0 0 size color None 3 path_rad move_up).

Definition FencingEnemy_create (self : FencingEnemy) : FencingEnemy :=
  mkFencingEnemy (fe_x self) (fe_y self) (fe_size self) (fe_color self)
    (Some (fe_color self)) (fe_speed self) (fe_path_rad self) (fe_state self).

Definition fe_set_x (x : Z) (self : FencingEnemy) : FencingEnemy :=
  mkFencingEnemy x (fe_y self) (fe_size self) (fe_color self) (fe_obj self)
    (fe_speed self) (fe_path_rad self) (fe_state self).
Definition fe_set_y (y : Z) (self : FencingEnemy) : FencingEnemy :=
  mkFencingEnemy (fe_x self) y (fe_size self) (fe_color self) (fe_obj self)
    (fe_speed self) (fe_path_rad self) (fe_state self).
Definition fe_set_state (s : FencingState) (self : FencingEnemy) : FencingEnemy :=
  mkFencingEnemy (fe_x self) (fe_y self) (fe_size self) (fe_color self)
    (fe_obj self) (fe_speed self) (fe_path_rad self) s.

Definition FencingEnemy_move_up (h : Home) (self : FencingEnemy) : FencingEnemy :=
  let self := fe_set_y (fe_y self - fe_speed self) self in
  if fe_y self <? home_y h - fe_path_rad self
  then fe_set_state move_left self else self.

Definition FencingEnemy_move_left (h : Home) (self : FencingEnemy) : FencingEnemy :=
  let self := fe_set_x (fe_x self - fe_speed self) self in
  if fe_x self <? home_x h - fe_path_rad self
  then fe_set_state move_down self else self.

Definition FencingEnemy_move_down (h : Home) (self : FencingEnemy) : FencingEnemy :=
  let self := fe_set_y (fe_y self + fe_speed self) self in
  if fe_y self >? home_y h + fe_path_rad self
  then fe_set_state move_right self else self.

Definition FencingEnemy_move_right (h : Home) (self : FencingEnemy) : FencingEnemy :=
  let self := fe_set_x (fe_x self + fe_speed self) self in
  if fe_x self >? home_x h + fe_path_rad self
  then fe_set_state move_up self else self.

(** [self.state()]: the call of the stored bound method. *)
Definition FencingEnemy_call_state (h : Home) (self : FencingEnemy) : FencingEnemy :=
  match fe_state self with
  | move_up => FencingEnemy_move_up h self
  | move_left => FencingEnemy_move_left h self
  | move_down => FencingEnemy_move_down h self
  | move_right => FencingEnemy_move_right h self
  end.

Definition FencingEnemy_update (self : FencingEnemy) : M FencingEnemy :=
  g <- get ;;
  let self := FencingEnemy_call_state (home g) self in
  lose_if_hit self ;;
  ret self.

Definition FencingEnemy_spawn_location (self : FencingEnemy) : M (Z * Z) :=
  g <- get ;;
  let home_loc := (home_x (home g), home_y (home g)) in
  ret (fst home_loc + fe_path_rad self, snd home_loc + fe_path_rad self).

(** ** ChargerEnemy *)

Definition ChargerEnemy_init (size : Z) (color : string) : ChargerEnemy :=
  mkChargerEnemy 0 0 size color None
    2 (15 / 10) None 25 2 150 2 hunt 0
    [(0, "red"%string); (10, "yellow"%string); (20, "green"%string)] None.

Definition cg_set_obj (o : option string) (self : ChargerEnemy) : ChargerEnemy :=
  mkChargerEnemy (cg_x self) (cg_y self) (cg_size self) (cg_color self) o
    (cg_speed self) (cg_break_acc self) (cg_break_deg self)
    (cg_strike_speed self) (cg_hunt_speed self) (cg_charge_rad self)
    (cg_charge_speed self) (cg_state self) (cg_charge_state self)
    (cg_charge_col self) (cg_charge_loc self).
Definition cg_move (x y : R) (self : ChargerEnemy) : ChargerEnemy :=
  mkChargerEnemy x y (cg_size self) (cg_color self) (cg_obj self)
    (cg_speed self) (cg_break_acc self) (cg_break_deg self)
    (cg_strike_speed self) (cg_hunt_speed self) (cg_charge_rad self)
    (cg_charge_speed self) (cg_state self) (cg_charge_state self)
    (cg_charge_col self) (cg_charge_loc self).
Definition cg_set_speed (v : R) (self : ChargerEnemy) : ChargerEnemy :=
  mkChargerEnemy (cg_x self) (cg_y self) (cg_size self) (cg_color self)
    (cg_obj self) v (cg_break_acc self) (cg_break_deg self)
    (cg_strike_speed self) (cg_hunt_speed self) (cg_charge_rad self)
    (cg_charge_speed self) (cg_state self) (cg_charge_state self)
    (cg_charge_col self) (cg_charge_loc self).
Definition cg_set_break_deg (d : option R) (self : ChargerEnemy) : ChargerEnemy :=
  mkChargerEnemy (cg_x self) (cg_y self) (cg_size self) (cg_color self)
    (cg_obj self) (cg_speed self) (cg_break_acc self) d
    (cg_strike_speed self) (cg_hunt_speed self) (cg_charge_rad self)
    (cg_charge_speed self) (cg_state self) (cg_charge_state self)
    (cg_charge_col self) (cg_charge_loc self).
Definition cg_set_state (s : ChargerState) (self : ChargerEnemy) : ChargerEnemy :=
  mkChargerEnemy (cg_x self) (cg_y self) (cg_size self) (cg_color self)
    (cg_obj self) (cg_speed self) (cg_break_acc self) (cg_break_deg self)
    (cg_strike_speed self) (cg_hunt_speed self) (cg_charge_rad self)
    (cg_charge_speed self) s (cg_charge_state self)
    (cg_charge_col self) (cg_charge_loc self).
Definition cg_set_charge_state (n : Z) (self : ChargerEnemy) : ChargerEnemy :=
  mkChargerEnemy (cg_x self) (cg_y self) (cg_size self) (cg_color self)
    (cg_obj self) (cg_speed self) (cg_break_acc self) (cg_break_deg self)
    (cg_strike_speed self) (cg_hunt_speed self) (cg_charge_rad self)
    (cg_charge_speed self) (cg_state self) n
    (cg_charge_col self) (cg_charge_loc self).
Definition cg_set_charge_loc (l : option (R * R)) (self : ChargerEnemy) : ChargerEnemy :=
  mkChargerEnemy (cg_x self) (cg_y self) (cg_size self) (cg_color self)
    (cg_obj self) (cg_speed self) (cg_break_acc self) (cg_break_deg self)
    (cg_strike_speed self) (cg_hunt_speed self) (cg_charge_rad self)
    (cg_charge_speed self) (cg_state self) (cg_charge_state self)
    (cg_charge_col self) l.

Definition ChargerEnemy_create (self : ChargerEnemy) : ChargerEnemy :=
  cg_set_obj (Some (cg_color self)) self.

(** [canvas.itemconfigure(self.__obj, fill=col)]: recolours the rectangle
    when there is one. *)
Definition cg_itemconfigure_fill (col : string) (self : ChargerEnemy) : ChargerEnemy :=
  cg_set_obj (option_map (fun _ => col) (cg_obj self)) self.

Definition ChargerEnemy_hunt (self : ChargerEnemy) : M ChargerEnemy :=
  g <- get ;;
  let player_x := (player_x (player g) - cg_x self)%R in
  let player_y := (player_y (player g) - cg_y self)%R in
  if Rleb (hypot player_x player_y) (cg_charge_rad self)
  then ret (cg_set_state charge self)
  else
    let deg := atan2 player_y player_x in
    ret (cg_move (cg_x self + cos deg * cg_speed self)
                 (cg_y self + sin deg * cg_speed self) self).

Definition ChargerEnemy_charge (self : ChargerEnemy) : M ChargerEnemy :=
  self <- (if cg_charge_state self mod 10 =? 0
           then col <- lift (dict_get (cg_charge_col self) (cg_charge_state self)) ;;
                ret (cg_itemconfigure_fill col self)
           else ret self) ;;
  let self := cg_set_charge_state
                (cg_charge_state self + cg_charge_speed self) self in
  top <- lift (max_key (cg_charge_col self)) ;;
  if cg_charge_state self >? top
  then g <- get ;;
       let self := cg_set_charge_loc
                     (Some (player_x (player g), player_y (player g))) self in
       let self := cg_set_state strike self in
       let self := cg_set_charge_state 0 self in
       ret (cg_set_speed (cg_strike_speed self) self)
  else ret self.

Definition ChargerEnemy_strike (self : ChargerEnemy) : M ChargerEnemy :=
  match cg_charge_loc self with
  | None => raise TypeError
  | Some charge_loc =>
      let player_x := (fst charge_loc - cg_x self)%R in
      let player_y := (snd charge_loc - cg_y self)%R in
      let deg := atan2 player_y player_x in
      let self := cg_move (cg_x self + cos deg * cg_speed self)
                          (cg_y self + sin deg * cg_speed self) self in
      let line := hypot player_x player_y in
      if Rltb line 25
      then ret (cg_set_break_deg (Some deg) (cg_set_state break self))
      else ret self
  end.

Definition ChargerEnemy_break (self : ChargerEnemy) : M ChargerEnemy :=
  let self := cg_set_speed (cg_speed self - cg_break_acc self) self in
  match cg_break_deg self with
  | None => raise TypeError
  | Some break_deg =>
      let self := cg_move (cg_x self + cos break_deg * cg_speed self)
                          (cg_y self + sin break_deg * cg_speed self) self in
      if Rleb (cg_speed self) (cg_hunt_speed self)
      then
        let self := cg_itemconfigure_fill (cg_color self) self in
        let self := cg_set_state hunt self in
        ret (cg_set_speed (cg_hunt_speed self) self)
      else ret self
  end.

(** [self.__state()]. *)
Definition ChargerEnemy_call_state (self : ChargerEnemy) : M ChargerEnemy :=
  match cg_state self with
  | hunt => ChargerEnemy_hunt self
  | charge => ChargerEnemy_charge self
  | strike => ChargerEnemy_strike self
  | break => ChargerEnemy_break self
  end.

Definition ChargerEnemy_update (self : ChargerEnemy) : M ChargerEnemy :=
  self <- ChargerEnemy_call_state self ;;
  lose_if_hit self ;;
  ret self.

(** ** Calls that Python dispatches on the class of the enemy *)

(** [enemy_type(self.__game, enemy_size, enemy_col)]. *)
Definition construct (enemy_type : EnemyKind) (size : Z) (color : string) : M Enemy :=
  match enemy_type with
  | DemoEnemyK => ret (Demo (DemoEnemy_init size color))
  | RandomWalkEnemyK => ret (RandomWalk (RandomWalkEnemy_init size color))
  | ChasingEnemyK => ret (Chasing (ChasingEnemy_init size color))
  | FencingEnemyK => e <- FencingEnemy_init size color ;; ret (Fencing e)
  | ChargerEnemyK => ret (Charger (ChargerEnemy_init size color))
  end.

(** [new_enemy.spawn_location()]: only [FencingEnemy] overrides it. *)
Definition spawn_location (e : Enemy) : M (Z * Z) :=
  match e with
  | Fencing f => FencingEnemy_spawn_location f
  | _ => Enemy_spawn_location
  end.

(** [new_enemy.x = spawn_loc[0]; new_enemy.y = spawn_loc[1]]. *)
Definition set_position (loc : Z * Z) (e : Enemy) : Enemy :=
  match e with
  | Demo d => Demo (mkDemoEnemy (IZR (fst loc)) (IZR (snd loc))
                                (demo_size d) (demo_color d))
  | RandomWalk r => RandomWalk (rw_move (IZR (fst loc)) (IZR (snd loc))
                                        (rw_speed_x r) (rw_speed_y r) r)
  | Chasing c => Chasing (ch_move (IZR (fst loc)) (IZR (snd loc)) c)
  | Fencing f => Fencing (fe_set_y (snd loc) (fe_set_x (fst loc) f))
  | Charger c => Charger (cg_move (IZR (fst loc)) (IZR (snd loc)) c)
  end.

Definition Enemy_create (e : Enemy) : Enemy :=
  match e with
  | Demo d => Demo (DemoEnemy_create d)
  | RandomWalk r => RandomWalk (RandomWalkEnemy_create r)
  | Chasing c => Chasing (ChasingEnemy_create c)
  | Fencing f => Fencing (FencingEnemy_create f)
  | Charger c => Charger (ChargerEnemy_create c)
  end.

Definition Enemy_update (e : Enemy) : M Enemy :=
  match e with
  | Demo d => d' <- DemoEnemy_update d ;; ret (Demo d')
  | RandomWalk r => r' <- RandomWalkEnemy_update r ;; ret (RandomWalk r')
  | Chasing c => c' <- ChasingEnemy_update c ;; ret (Chasing c')
  | Fencing f => f' <- FencingEnemy_update f ;; ret (Fencing f')
  | Charger c => c' <- ChargerEnemy_update c ;; ret (Charger c')
  end.

(** Modelled from the spec: [Game.add_element] of gamelib, which is not
    among the sources: it invokes the element's [create()] and registers it
    for the per-frame pass. *)
Definition Game_add_element (e : Element) : M unit :=
  let e := match e with AnEnemy en => AnEnemy (Enemy_create en) | _ => e end in
  modify (fun g => set_elements (elements g ++ [e]) g).

(** ** EnemyGenerator *)

(** A row of [enemies_type]:
    [Subclass of Enemy, Size, Color, spawn delay, spawn quota]. *)
Record EnemyRow : Type := mkEnemyRow {
  row_type : EnemyKind;
  row_size : Z;
  row_color : string;
  row_delay : Z;
  row_quota : Z
}.

Definition enemies_type : list EnemyRow :=
  [ mkEnemyRow RandomWalkEnemyK 20 "red" 10000 5;
    mkEnemyRow ChasingEnemyK 10 "yellow" 20000 2;
    mkEnemyRow FencingEnemyK 15 "orange" 15000 2;
    mkEnemyRow ChargerEnemyK 18 "navy" 25000 1 ].

(** The dict [low_lvl], keyed by class. *)
Definition low_lvl (k : EnemyKind) : result Z :=
  match k with
  | RandomWalkEnemyK => Ok 5
  | ChasingEnemyK => Ok 2
  | FencingEnemyK => Ok 4
  | ChargerEnemyK => Ok 1
  | DemoEnemyK => Raise KeyError
  end.

(** The dict [high_lvl], keyed by class. *)
Definition high_lvl (extra : Z) (k : EnemyKind) : result Z :=
  match k with
  | RandomWalkEnemyK => Ok (3 + extra)
  | ChasingEnemyK => Ok (4 + extra)
  | FencingEnemyK => Ok (3 + extra)
  | ChargerEnemyK => Ok (3 + extra)
  | DemoEnemyK => Raise KeyError
  end.

(** [l[i]] for a non-negative index. *)
Definition list_get {A : Type} (l : list A) (i : nat) : result A :=
  match nth_error l i with
  | Some a => Ok a
  | None => Raise IndexError
  end.

(** [range(n)]. *)
Definition range (n : Z) : list nat := seq 0 (Z.to_nat n).

Definition EnemyGenerator_spawn_enemy (c : SpawnCall) : M unit :=
  if spawn_quota c >? 0 then
    new_enemy <- construct (enemy_type c) (enemy_size c) (enemy_col c) ;;
    spawn_loc <- spawn_location new_enemy ;;
    let new_enemy := set_position spawn_loc new_enemy in
    Game_add_element (AnEnemy new_enemy) ;;
    Game_after (delay c)
      (mkSpawnCall (enemy_type c) (enemy_size c) (enemy_col c) (delay c)
                   (spawn_quota c - 1))
  else ret tt.

Definition EnemyGenerator_create_enemy (level : Z) : M unit :=
  if level <? Z.of_nat (List.length enemies_type) then
    for_each (range level) (fun i =>
      row <- lift (list_get enemies_type i) ;;
      amount <- lift (low_lvl (row_type row)) ;;
      let spawn_ls := row in
      EnemyGenerator_spawn_enemy
        (mkSpawnCall (row_type spawn_ls) (row_size spawn_ls) (row_color spawn_ls)
                     100 amount))
  else
    let extra := level / 20 in
    for_each enemies_type (fun i =>
      chains <- lift (high_lvl extra (row_type i)) ;;
      for_each (range chains) (fun j =>
        EnemyGenerator_spawn_enemy
          (mkSpawnCall (row_type i) (row_size i) (row_color i)
                       (row_delay i / (1 + level / 10)) (row_quota i)))).

Definition EnemyGenerator_init (level : Z) : M unit :=
  EnemyGenerator_create_enemy level.

(** ** TurtleAdventureGame: construction *)

(** The game as [__init__] and the first lines of [init_game] leave it:
    a fresh turtle, the waypoint, the home at
    [(screen_width - 100, screen_height // 2)] with size 20, the player. *)
Definition new_game (screen_width screen_height level : Z) (rnd : Random) : Game :=
  mkGame level screen_width screen_height
         Waypoint_init
         (Player_init RawTurtle_init)
         (Home_init (screen_width - 100, screen_height / 2) 20)
         [] false 0 [] [] rnd.

Definition TurtleAdventureGame_init_game : M unit :=
  g <- get ;;
  lift (setworldcoordinates 0 (screen_height g - 1) (screen_width g - 1) 0) ;;
  Game_add_element TheWaypoint ;;
  Game_add_element TheHome ;;
  Game_add_element ThePlayer ;;
  g <- get ;;
  EnemyGenerator_init (level g) ;;
  modify (fun g => set_player (Player_set_x 50 (player g)) g) ;;
  modify (fun g => set_player
                     (Player_set_y (IZR (screen_height g / 2)) (player g)) g).

Definition TurtleAdventureGame_init
  (screen_width screen_height level : Z) (rnd : Random) : result Game :=
  match TurtleAdventureGame_init_game
          (new_game screen_width screen_height level rnd) with
  | Ok (_, g) => Ok g
  | Raise e => Raise e
  end.

(** ** What happens to a running game *)

(** The update of the [i]-th registered element, written back to the
    registry (the object is the one the registry refers to). *)
Fixpoint list_set {A : Type} (l : list A) (i : nat) (a : A) : list A :=
  match l, i with
  | [], _ => []
  | _ :: l', O => a :: l'
  | b :: l', S i' => b :: list_set l' i' a
  end.

Definition Element_update (i : nat) : M unit :=
  g <- get ;;
  match nth_error (elements g) i with
  | None => ret tt
  | Some TheWaypoint => Waypoint_update
  | Some TheHome => Home_update
  | Some ThePlayer => Player_update
  | Some (AnEnemy e) =>
      e' <- Enemy_update e ;;
      modify (fun g => set_elements (list_set (elements g) i (AnEnemy e')) g)
  end.

(** Modelled from the spec: the per-frame pass of gamelib's [Game], which
    is not among the sources: every registered element's [update] in
    registration order, and nothing at all once the game is stopped. *)
Definition Game_tick : M unit :=
  g <- get ;;
  if stopped g then ret tt
  else for_each (seq 0 (List.length (elements g))) Element_update.

(** The pending timer that fires next: the earliest one, the one armed
    first among equals. *)
Fixpoint pop_earliest (l : list Timer) : option (Timer * list Timer) :=
  match l with
  | [] => None
  | t :: l' =>
      match pop_earliest l' with
      | None => Some (t, [])
      | Some (t', rest) =>
          if fire_at t <=? fire_at t' then Some (t, l') else Some (t', t :: rest)
      end
  end.

(** Modelled from the spec: the delayed-callback service fires a pending
    callback once, at a logical time not before its due time; once the game
    is stopped the callback that comes due is dropped without being run
    (stopping the game must prevent any further scheduled callback from
    taking effect). *)
Definition Game_fire_timer : M unit :=
  g <- get ;;
  match pop_earliest (timers g) with
  | None => ret tt
  | Some (t, rest) =>
      modify (fun g => set_now (Z.max (now g) (fire_at t)) (set_timers rest g)) ;;
      if stopped g then ret tt
      else EnemyGenerator_spawn_enemy (callback t)
  end.

(** The click handler bound in [init_game]. *)
Definition on_click (x y : R) : M unit :=
  modify (fun g => set_waypoint (Waypoint_activate x y (waypoint g)) g).

Inductive Event : Type :=
| Tick
| TimerFires
| Click (x y : R).

Definition step (ev : Event) : M unit :=
  match ev with
  | Tick => Game_tick
  | TimerFires => Game_fire_timer
  | Click x y => on_click x y
  end.

Definition run (evs : list Event) : M unit := for_each evs step.

(** ** Vocabulary of the statements *)

(** The game-over operations, as functions. *)
Definition lost (g : Game) : Game :=
  set_canvas_texts (canvas_texts g ++ ["You Lose"%string]) (set_stopped true g).

Definition won (g : Game) : Game :=
  set_canvas_texts (canvas_texts g ++ ["You Win"%string]) (set_stopped true g).

(** The private constants of a charger, as [__init__] sets them; no method
    assigns to them afterwards. *)
Definition ChargerEnemy_consts (self : ChargerEnemy) : Prop :=
  cg_break_acc self = (15 / 10)%R /\
  cg_strike_speed self = 25%R /\
  cg_hunt_speed self = 2%R /\
  cg_charge_rad self = 150%R /\
  cg_charge_speed self = 2 /\
  cg_charge_col self =
    [(0, "red"%string); (10, "yellow"%string); (20, "green"%string)].

(** The states a charger can be in: the charge timer is an even number of
    0..20 while charging and 0 otherwise, the strike target is set while
    striking and the braking direction while braking. *)
Definition ChargerEnemy_wf (self : ChargerEnemy) : Prop :=
  ChargerEnemy_consts self /\
  match cg_state self with
  | hunt => cg_charge_state self = 0
  | charge => 0 <= cg_charge_state self <= 20 /\ cg_charge_state self mod 2 = 0
  | strike => cg_charge_state self = 0 /\ cg_charge_loc self <> None
  | break => cg_charge_state self = 0 /\ cg_break_deg self <> None
  end.

(** What the closing hit check of an update leaves behind: the game is
    stopped and "You Lose" is drawn exactly when the enemy, where it now
    is, hits the player. *)
Definition hit_checked {T : Type} `{EnemyClass T} (self' : T) (g g' : Game) : Prop :=
  stopped g' = (stopped g || hits_player self' g') /\
  canvas_texts g' =
    canvas_texts g ++ (if hits_player self' g' then ["You Lose"%string] else []) /\
  player g' = player g.

(** The colour that [__charge] looks up in [__charge_col] at a threshold. *)
Definition palette (n : Z) : string :=
  if n =? 0 then "red" else if n =? 10 then "yellow" else "green".

(** What one call of [self.__state()] does to a charger, state by state:
    [d_player] is its distance to the player and [d_target] its distance to
    the captured strike target, both before the move of this call. *)
Definition charger_transition (g : Game) (self self' : ChargerEnemy) : Prop :=
  match cg_state self with
  | hunt =>
      let d_player := hypot (player_x (player g) - cg_x self)
                            (player_y (player g) - cg_y self) in
      ((d_player <= 150)%R -> self' = cg_set_state charge self) /\
      ((150 < d_player)%R ->
         cg_state self' = hunt /\ cg_speed self' = cg_speed self /\
         cg_obj self' = cg_obj self)
  | charge =>
      let timer := cg_charge_state self + 2 in
      (timer > 20 ->
         cg_state self' = strike /\
         cg_charge_loc self' = Some (player_x (player g), player_y (player g)) /\
         cg_speed self' = 25%R /\ cg_charge_state self' = 0) /\
      (timer <= 20 ->
         cg_state self' = charge /\ cg_charge_state self' = timer /\
         cg_speed self' = cg_speed self /\
         cg_charge_loc self' = cg_charge_loc self) /\
      cg_x self' = cg_x self /\ cg_y self' = cg_y self /\
      cg_obj self' =
        (if cg_charge_state self mod 10 =? 0
         then option_map (fun _ => palette (cg_charge_state self)) (cg_obj self)
         else cg_obj self)
  | strike =>
      exists target, cg_charge_loc self = Some target /\
      let d_target := hypot (fst target - cg_x self) (snd target - cg_y self) in
      let deg := atan2 (snd target - cg_y self) (fst target - cg_x self) in
      ((d_target < 25)%R ->
         cg_state self' = break /\ cg_break_deg self' = Some deg) /\
      ((25 <= d_target)%R -> cg_state self' = strike) /\
      cg_x self' = (cg_x self + cos deg * cg_speed self)%R /\
      cg_y self' = (cg_y self + sin deg * cg_speed self)%R /\
      cg_speed self' = cg_speed self /\ cg_obj self' = cg_obj self /\
      cg_charge_loc self' = cg_charge_loc self
  | break =>
      let v := (cg_speed self - 15 / 10)%R in
      ((v <= 2)%R ->
         cg_state self' = hunt /\ cg_speed self' = 2%R /\
         cg_obj self' = option_map (fun _ => cg_color self') (cg_obj self)) /\
      ((2 < v)%R ->
         cg_state self' = break /\ cg_speed self' = v /\
         cg_obj self' = cg_obj self)
  end.

(** A charger among the enemies is in one of its possible states. *)
Definition Enemy_wf (e : Enemy) : Prop :=
  match e with
  | Charger c => ChargerEnemy_wf c
  | _ => True
  end.

(** [lifetime e e']: [e'] is what the enemy object [e] has become after
    any sequence of [create()], assignments of a position and [update()]
    calls, each update running against an arbitrary game. *)
Inductive lifetime : Enemy -> Enemy -> Prop :=
| lifetime_now (e : Enemy) : lifetime e e
| lifetime_create (e e' : Enemy) :
    lifetime (Enemy_create e) e' -> lifetime e e'
| lifetime_place (loc : Z * Z) (e e' : Enemy) :
    lifetime (set_position loc e) e' -> lifetime e e'
| lifetime_update (g g1 : Game) (e e1 e' : Enemy) :
    Enemy_update e g = Ok (e1, g1) -> lifetime e1 e' -> lifetime e e'.

(** A game to run examples in: an 800 x 500 screen at the given level,
    every raw random draw being 0. *)
Definition demo_game (level : Z) : Game :=
  new_game 800 500 level (mkRandom (fun _ => 0) 0).

(** The game after an enemy's update: the random module may have advanced
    to [r], and the game is lost when the closing check found a hit. *)
Definition after_update (g : Game) (r : Random) (hit : bool) : Game :=
  if hit then lost (set_random r g) else set_random r g.

(** The state that follows in the patrol of a fencing enemy. *)
Definition next_state (s : FencingState) : FencingState :=
  match s with
  | move_up => move_left
  | move_left => move_down
  | move_down => move_right
  | move_right => move_up
  end.

(** [n] successive [self.state()] calls around the home [h]. *)
Fixpoint fencing_steps (h : Home) (n : nat) (self : FencingEnemy) : FencingEnemy :=
  match n with
  | O => self
  | S n' => fencing_steps h n' (FencingEnemy_call_state h self)
  end.

(** [n] successive [update()] calls of one fencing enemy. *)
Fixpoint FencingEnemy_updates (n : nat) (self : FencingEnemy) : M FencingEnemy :=
  match n with
  | O => ret self
  | S n' => self' <- FencingEnemy_update self ;; FencingEnemy_updates n' self'
  end.

(** A fencing enemy as [__spawn_enemy] leaves it: built by [__init__] with
    a patrol radius of 15..75 and placed at its [spawn_location()]. *)
Definition fencing_spawned (h : Home) (self : FencingEnemy) : Prop :=
  15 <= fe_path_rad self <= 75 /\
  fe_speed self = 3 /\
  fe_state self = move_up /\
  fe_x self = home_x h + fe_path_rad self /\
  fe_y self = home_y h + fe_path_rad self.

(** How far the enemy still is from the line that ends its current leg. *)
Definition remaining (h : Home) (self : FencingEnemy) : Z :=
  match fe_state self with
  | move_up => fe_y self - (home_y h - fe_path_rad self)
  | move_left => fe_x self - (home_x h - fe_path_rad self)
  | move_down => home_y h + fe_path_rad self - fe_y self
  | move_right => home_x h + fe_path_rad self - fe_x self
  end.

(** Where a fencing enemy can be, leg by leg: on each leg the coordinate
    it is not moving along sits at most one step beyond the line it crossed
    to start this leg. *)
Definition fencing_inv (h : Home) (self : FencingEnemy) : Prop :=
  let rad := fe_path_rad self in
  let hx := home_x h in
  let hy := home_y h in
  0 <= rad /\ fe_speed self = 3 /\
  match fe_state self with
  | move_up =>
      hx + rad <= fe_x self <= hx + rad + 3 /\
      hy - rad <= fe_y self <= hy + rad + 3
  | move_left =>
      hx - rad <= fe_x self <= hx + rad + 3 /\
      hy - rad - 3 <= fe_y self < hy - rad
  | move_down =>
      hx - rad - 3 <= fe_x self < hx - rad /\
      hy - rad - 3 <= fe_y self <= hy + rad
  | move_right =>
      hx - rad - 3 <= fe_x self <= hx + rad /\
      hy + rad < fe_y self <= hy + rad + 3
  end.

(** Angles with at most ten decimals: the values of [round(x, 10)]. *)
Definition exact10 (x : R) : Prop := exists n : Z, x = (IZR n / 10 ^ 10)%R.

(** Turtles whose orientation is a heading of [0, 360) with at most ten
    decimals of a degree: the fresh turtle is one, and [setheading] with the
    result of [towards] makes one of one. *)
Definition turtle_wf (t : RawTurtle) : Prop :=
  exists h : R, (0 <= h < 360)%R /\ exact10 h /\
    orient_x t = cos (radians h) /\ orient_y t = sin (radians h).

(** The turtle of the player after [setheading(towards(wp)); forward(speed)]. *)
Definition advanced (g : Game) : RawTurtle :=
  let t := player_turtle (player g) in
  forward (player_speed (player g))
          (setheading (towards (waypoint_x (waypoint g)) (waypoint_y (waypoint g)) t) t).

(** The level-1 game of [demo_game] at the moment the player, walking
    right along y = 250 towards a click at (795, 250), has reached the left
    edge x = 690 of the home, which is centred at (700, 250) with size 20. *)
Definition arrived_game : Game :=
  set_waypoint (mkWaypoint 795 250 true)
    (set_player (mkPlayer 5 (mkTurtle 690 250 1 0)) (demo_game 1)).

(** The number of registered enemies of class [k]. *)
Definition is_kind (k : EnemyKind) (e : Element) : bool :=
  match e with
  | AnEnemy en => EnemyKind_eqb (kind_of en) k
  | _ => false
  end.

Definition count_kind (k : EnemyKind) (l : list Element) : Z :=
  Z.of_nat (List.length (filter (is_kind k) l)).

(** The enemies of class [k] that the pending spawn callbacks will still
    create: a callback with quota [q] stands for [q] enemies (none when
    [q <= 0]). *)
Fixpoint pending (k : EnemyKind) (l : list Timer) : Z :=
  match l with
  | [] => 0
  | t :: l' =>
      (if EnemyKind_eqb (enemy_type (callback t)) k
       then Z.max 0 (spawn_quota (callback t)) else 0) + pending k l'
  end.

(** Enemies of class [k] registered or still to come. *)
Definition total (k : EnemyKind) (g : Game) : Z :=
  count_kind k (elements g) + pending k (timers g).

(** The number of timer firings that the pending callbacks can still
    cause, counting the last, empty one of each chain. *)
Fixpoint load (l : list Timer) : Z :=
  match l with
  | [] => 0
  | t :: l' => Z.max 0 (spawn_quota (callback t)) + 1 + load l'
  end.

(** Let the timers fire, at most [fuel] times, until none is pending. *)
Fixpoint drain (fuel : nat) : M unit :=
  match fuel with
  | O => ret tt
  | S fuel' =>
      g <- get ;;
      match timers g with
      | [] => ret tt
      | _ :: _ => Game_fire_timer ;; drain fuel'
      end
  end.

Definition Element_wf (e : Element) : Prop :=
  match e with
  | AnEnemy en => Enemy_wf en
  | _ => True
  end.

(** Games on a screen of non-negative size whose chargers are in possible
    states: every game built by the constructor with such a screen is one,
    and remains one. *)
Definition Game_wf (g : Game) : Prop :=
  0 <= screen_width g /\ 0 <= screen_height g /\
  Forall Element_wf (elements g).

(** What no event changes: the home, the level and the screen. *)
Definition same_setting (g g' : Game) : Prop :=
  home g' = home g /\ level g' = level g /\
  screen_width g' = screen_width g /\ screen_height g' = screen_height g.

(** What a stopped game keeps: it stays stopped, and its elements, its
    player and the texts on its canvas stay as they are. *)
Definition frozen (g g' : Game) : Prop :=
  stopped g' = true /\ elements g' = elements g /\ player g' = player g /\
  canvas_texts g' = canvas_texts g.

(** What an event can do to a game: it never removes an enemy; while the
    game runs, every enemy that is registered was announced by a pending
    callback, so that registered and announced enemies together stay as
    many; a stopped game is frozen, and the callbacks that come due in it
    are dropped. *)
Definition evolves (g g' : Game) : Prop :=
  same_setting g g' /\
  (forall k, total k g' <= total k g) /\
  (forall k, count_kind k (elements g) <= count_kind k (elements g')) /\
  (stopped g = true -> frozen g g') /\
  (stopped g' = false -> forall k, total k g' = total k g).

(** The callback armed by a spawn call: the same call with one less. *)
Definition rearmed (c : SpawnCall) : SpawnCall :=
  mkSpawnCall (enemy_type c) (enemy_size c) (enemy_col c) (delay c)
              (spawn_quota c - 1).

(** The game after a spawn call with positive quota: a new enemy [e] is
    registered and the call is re-armed; the random module has advanced. *)
Definition spawned (c : SpawnCall) (e : Enemy) (r : Random) (g : Game) : Game :=
  set_timers (timers g ++ [mkTimer (now g + delay c) (rearmed c)])
    (set_elements (elements g ++ [AnEnemy e]) (set_random r g)).

(** The game once the timer [t] has been taken off the pending ones,
    [rest] remaining, and the clock has reached its due time. *)
Definition timer_taken (t : Timer) (rest : list Timer) (g : Game) : Game :=
  set_now (Z.max (now g) (fire_at t)) (set_timers rest g).

(** What a frame tick can do to a game: it registers nothing, arms
    nothing and never clears the stopped flag. *)
Definition ticked (g g' : Game) : Prop :=
  same_setting g g' /\ timers g' = timers g /\ now g' = now g /\
  (forall k, count_kind k (elements g') = count_kind k (elements g)) /\
  (stopped g = true -> stopped g' = true).

(** What the enemy generator leaves alone. *)
Definition generated (g g' : Game) : Prop :=
  same_setting g g' /\ stopped g' = stopped g /\ now g' = now g /\
  player g' = player g /\ waypoint g' = waypoint g /\
  canvas_texts g' = canvas_texts g.

(** The game of [init_game] at the point where the generator is built:
    the waypoint, the home and the player are registered. *)
Definition base_game (screen_width screen_height level : Z) (rnd : Random) : Game :=
  set_elements [TheWaypoint; TheHome; ThePlayer]
               (new_game screen_width screen_height level rnd).

(** The last two statements of [init_game]: the player is put at
    [(50, screen_height // 2)]. *)
Definition player_placed (g : Game) : Game :=
  set_player (Player_set_y (IZR (screen_height g / 2))
                           (Player_set_x 50 (player g))) g.

(** The pending callbacks that spawn enemies of class [k]. *)
Definition timers_of (k : EnemyKind) (l : list Timer) : list Timer :=
  filter (fun t => EnemyKind_eqb (enemy_type (callback t)) k) l.

(** The spawn call that [create_enemy] issues for a row of the table at a
    level that is at least the number of rows. *)
Definition high_call (level : Z) (row : EnemyRow) : SpawnCall :=
  mkSpawnCall (row_type row) (row_size row) (row_color row)
              (row_delay row / (1 + level / 10)) (row_quota row).


(** The random module of the examples: every raw draw is 0. *)
Definition zero_draws : Random := mkRandom (fun _ => 0) 0.

(** The body of the outer loop of [create_enemy] at a level that is at
    least the number of rows: as many spawn calls for the row as [high_lvl]
    says. *)
Definition row_body (level : Z) (row : EnemyRow) : M unit :=
  chains <- lift (high_lvl (level / 20) (row_type row)) ;;
  for_each (range chains)
    (fun _ => EnemyGenerator_spawn_enemy (high_call level row)).

(** [n] successive [self.__state()] calls of a charger in one game. *)
Fixpoint charger_calls (n : nat) (self : ChargerEnemy) : M ChargerEnemy :=
  match n with
  | O => ret self
  | S n' => self' <- ChargerEnemy_call_state self ;; charger_calls n' self'
  end.

(** [n] successive [Player.update] calls. *)
Fixpoint Player_updates (n : nat) : M unit :=
  match n with
  | O => ret tt
  | S n' => Player_update ;; Player_updates n'
  end.

(** The distance from the player to the waypoint, as [turtle.distance]
    measures it. *)
Definition waypoint_distance (g : Game) : R :=
  distance (waypoint_x (waypoint g)) (waypoint_y (waypoint g))
           (player_turtle (player g)).

(** A spawn call whose class, size and colour are those of a row of
    [enemies_type]. *)
Definition table_call (c : SpawnCall) : Prop :=
  exists row, In row enemies_type /\
    enemy_type c = row_type row /\ enemy_size c = row_size row /\
    enemy_col c = row_color row.

(** An enemy whose class, size and colour are those of a row of
    [enemies_type]. *)
Definition table_enemy (e : Enemy) : Prop :=
  exists row, In row enemies_type /\
    kind_of e = row_type row /\ size_of e = row_size row /\
    color_of e = row_color row.

(** A property of enemies, lifted to the elements of the registry. *)
Definition on_enemies (Q : Enemy -> Prop) (el : Element) : Prop :=
  match el with
  | AnEnemy e => Q e
  | _ => True
  end.

(** A game in which every registered enemy has the property [Q] and every
    pending callback is a call for a row of the table. *)
Definition Game_keeps (Q : Enemy -> Prop) (g : Game) : Prop :=
  Game_wf g /\
  Forall (on_enemies Q) (elements g) /\
  Forall (fun t => table_call (callback t)) (timers g).

(** The canvas rectangle of a charger, if it exists, is filled with [col]. *)
Definition painted (col : string) (c : ChargerEnemy) : Prop :=
  forall f, cg_obj c = Some f -> f = col.

(** The fill of a charger in its charge phase: its own colour before the
    first charge call, red up to timer 10, yellow from then on. *)
Definition charge_fill (c : ChargerEnemy) : string :=
  if cg_charge_state c =? 0 then cg_color c
  else if cg_charge_state c <=? 10 then "red" else "yellow".

(** Speed and fill of a charger, state by state. *)
Definition charger_reach (c : ChargerEnemy) : Prop :=
  ChargerEnemy_wf c /\
  match cg_state c with
  | hunt => cg_speed c = 2%R /\ painted (cg_color c) c
  | charge => cg_speed c = 2%R /\ painted (charge_fill c) c
  | strike => cg_speed c = 25%R /\ painted "green" c
  | break =>
      (exists k : Z, 0 <= k <= 15 /\ cg_speed c = (25 - 15 / 10 * IZR k)%R) /\
      painted "green" c
  end.

Definition reach_enemy (e : Enemy) : Prop :=
  match e with
  | Charger c => charger_reach c
  | _ => True
  end.

(** The enemies of class [k] that a game of a level below 4 creates in all:
    row [i] of the table is used when [i < level], with the quota that
    [low_lvl] gives its class. *)
Definition low_total (level : Z) (k : EnemyKind) : Z :=
  match k with
  | RandomWalkEnemyK => if 1 <=? level then 5 else 0
  | ChasingEnemyK => if 2 <=? level then 2 else 0
  | FencingEnemyK => if 3 <=? level then 4 else 0
  | _ => 0
  end.

(** A game without enemies and without pending callbacks that is either
    running with nothing written on the canvas or stopped with "You Win". *)
Definition bare (g : Game) : Prop :=
  elements g = [TheWaypoint; TheHome; ThePlayer] /\ timers g = [] /\
  ((stopped g = false /\ canvas_texts g = []) \/
   (stopped g = true /\ canvas_texts g = ["You Win"%string])).

(** Where the generator puts the enemies of a game that it builds on a
    [w] x [h] screen, the player still being at the origin: a fencing enemy
    on the diagonal below and to the right of the home, any other enemy in
    the lower right part of the screen. *)
Definition start_region (w h : Z) (e : Enemy) : Prop :=
  (kind_of e = FencingEnemyK ->
     exists rad : Z, 15 <= rad <= 75 /\
       x_of e = IZR (w - 100 + rad) /\ y_of e = IZR (h / 2 + rad)) /\
  (kind_of e <> FencingEnemyK ->
     exists x y : Z, x_of e = IZR x /\ y_of e = IZR y /\
       3 * (w / 4) <= x <= w /\ h / 2 <= y <= h).

(** The game while [init_game] builds the generator: the player has not
    been placed yet, and every enemy registered so far is one of the table,
    in its start region. *)
Definition generating (w h : Z) (g : Game) : Prop :=
  player g = Player_init RawTurtle_init /\
  home g = Home_init (w - 100, h / 2) 20 /\
  screen_width g = w /\ screen_height g = h /\
  Forall (on_enemies (fun e => table_enemy e /\ start_region w h e))
         (elements g).

(** * Properties *)

(** ** Comparisons and the monad *)

Lemma Rltb_true (a b : R) : Rltb a b = true <-> (a < b)%R.
Proof. unfold Rltb; destruct (Rlt_dec a b); split; auto; discriminate. Qed.

Lemma Rltb_false (a b : R) : Rltb a b = false <-> (b <= a)%R.
Proof.
  unfold Rltb; destruct (Rlt_dec a b); split; intros; try discriminate; lra.
Qed.

Lemma Rleb_true (a b : R) : Rleb a b = true <-> (a <= b)%R.
Proof. unfold Rleb; destruct (Rle_dec a b); split; auto; discriminate. Qed.

Lemma Rleb_false (a b : R) : Rleb a b = false <-> (b < a)%R.
Proof.
  unfold Rleb; destruct (Rle_dec a b); split; intros; try discriminate; lra.
Qed.

(** Unfold the plumbing of [M]. *)
Ltac unfold_M :=
  unfold bind, ret, get, modify, lift, raise, with_random in *.

(** ** [hits_player] *)

Lemma hits_player_spec {T : Type} `{EnemyClass T} (self : T) (g : Game) :
  hits_player self g = true <->
  (x_of self - IZR (size_of self) / 2 < player_x (player g)
     < x_of self + IZR (size_of self) / 2)%R /\
  (y_of self - IZR (size_of self) / 2 < player_y (player g)
     < y_of self + IZR (size_of self) / 2)%R.
Proof.
  unfold hits_player.
  rewrite !andb_true_iff, !Rltb_true. tauto.
Qed.

Lemma game_over_lose_eq (g : Game) :
  TurtleAdventureGame_game_over_lose g = Ok (tt, lost g).
Proof. reflexivity. Qed.

Lemma game_over_win_eq (g : Game) :
  TurtleAdventureGame_game_over_win g = Ok (tt, won g).
Proof. reflexivity. Qed.

Lemma lose_if_hit_eq {T : Type} `{EnemyClass T} (self : T) (g : Game) :
  lose_if_hit self g = Ok (tt, if hits_player self g then lost g else g).
Proof.
  unfold lose_if_hit; unfold_M.
  destruct (hits_player self g); reflexivity.
Qed.

(** [hits_player] only reads the player. *)
Lemma hits_player_ext {T : Type} `{EnemyClass T} (self : T) (g g' : Game) :
  player g' = player g -> hits_player self g' = hits_player self g.
Proof. unfold hits_player; intros ->; reflexivity. Qed.

(** C8. [hits_player()] is true exactly when the player's position lies
    strictly inside the open box of side [size] centred at the enemy, for
    an enemy of any class; a player placed on any of the four sides of the
    box is not hit.  Coordinates are real numbers. *)
Theorem hits_player_open_box :
  forall (T : Type) (C : EnemyClass T) (self : T) (g : Game),
    let half := (IZR (size_of self) / 2)%R in
    (hits_player self g = true <->
       (x_of self - half < player_x (player g) < x_of self + half)%R /\
       (y_of self - half < player_y (player g) < y_of self + half)%R)
    /\ hits_player self
         (set_player (Player_set_x (x_of self - half) (player g)) g) = false
    /\ hits_player self
         (set_player (Player_set_x (x_of self + half) (player g)) g) = false
    /\ hits_player self
         (set_player (Player_set_y (y_of self - half) (player g)) g) = false
    /\ hits_player self
         (set_player (Player_set_y (y_of self + half) (player g)) g) = false.
Proof.
  intros T C self g half.
  split; [apply hits_player_spec|].
  repeat split;
    (destruct (hits_player self _) eqn:Hh; [exfalso|reflexivity]);
    apply hits_player_spec in Hh; cbn in Hh; fold half in Hh; lra.
Qed.

(** ** Every update that moves an enemy ends with the hit check *)

Lemma choice_pair {A : Type} (a b : A) (r : Random) :
  exists v, choice [a; b] r = Ok (v, mkRandom (draws r) (S (cursor r))) /\
            (v = a \/ v = b).
Proof.
  unfold choice, next_draw. cbn [List.length].
  assert (Hm : 0 <= draws r (cursor r) mod Z.of_nat 2 < 2)
    by (apply Z.mod_pos_bound; lia).
  destruct (Z.to_nat (draws r (cursor r) mod Z.of_nat 2)) as [|[|n]] eqn:E.
  - exists a; cbn; auto.
  - exists b; cbn; auto.
  - exfalso; lia.
Qed.

Lemma hit_checked_intro {T : Type} `{EnemyClass T} (self' : T) (g g1 : Game) :
  stopped g1 = stopped g -> canvas_texts g1 = canvas_texts g ->
  player g1 = player g ->
  hit_checked self' g (if hits_player self' g1 then lost g1 else g1).
Proof.
  intros Hs Ht Hp. unfold hit_checked.
  destruct (hits_player self' g1) eqn:Hh.
  - rewrite (hits_player_ext self' g1 (lost g1)) by reflexivity.
    rewrite Hh. cbn. rewrite Ht, Hp, orb_true_r. auto.
  - rewrite Hh. rewrite Hs, Ht, Hp, orb_false_r, app_nil_r. auto.
Qed.

Lemma set_random_same (g : Game) : set_random (random g) g = g.
Proof. destruct g; reflexivity. Qed.

Lemma hit_checked_after_update {T : Type} `{EnemyClass T}
      (self' : T) (g : Game) (r : Random) :
  hit_checked self' g (after_update g r (hits_player self' g)).
Proof.
  unfold after_update.
  rewrite <- (hits_player_ext self' g (set_random r g)) by reflexivity.
  apply hit_checked_intro; reflexivity.
Qed.

Lemma RandomWalkEnemy_update_total (self : RandomWalkEnemy) (g : Game) :
  exists self' r,
    RandomWalkEnemy_update self g
    = Ok (self', after_update g r (hits_player self' g)) /\
    rw_size self' = rw_size self /\ rw_color self' = rw_color self /\
    rw_obj self' = rw_obj self.
Proof.
  unfold RandomWalkEnemy_update; unfold_M.
  destruct (choice_pair (- rw_acc self)%R (rw_acc self) (random g))
    as (ax & Ex & _).
  rewrite Ex. cbn [random set_random].
  destruct (choice_pair (- rw_acc self)%R (rw_acc self)
                        (mkRandom (draws (random g)) (S (cursor (random g)))))
    as (ay & Ey & _).
  rewrite Ey.
  rewrite lose_if_hit_eq.
  eexists; eexists; split; [reflexivity|].
  cbn; auto.
Qed.

Lemma ChasingEnemy_update_total (self : ChasingEnemy) (g : Game) :
  exists self',
    ChasingEnemy_update self g
    = Ok (self', after_update g (random g) (hits_player self' g)) /\
    ch_size self' = ch_size self /\ ch_color self' = ch_color self /\
    ch_obj self' = ch_obj self.
Proof.
  unfold ChasingEnemy_update, after_update; unfold_M.
  rewrite lose_if_hit_eq, set_random_same.
  eexists; split; [reflexivity|].
  cbn; auto.
Qed.

Lemma FencingEnemy_update_eq (self : FencingEnemy) (g : Game) :
  FencingEnemy_update self g =
  Ok (FencingEnemy_call_state (home g) self,
      if hits_player (FencingEnemy_call_state (home g) self) g
      then lost g else g).
Proof.
  unfold FencingEnemy_update; unfold_M.
  rewrite lose_if_hit_eq. reflexivity.
Qed.

(** ** The charger's state machine *)

Lemma palette_lookup (n : Z) :
  0 <= n <= 20 -> n mod 10 = 0 ->
  dict_get [(0, "red"%string); (10, "yellow"%string); (20, "green"%string)] n
  = Ok (palette n).
Proof.
  intros Hr Hm.
  assert (Hn : n = 0 \/ n = 10 \/ n = 20)
    by (pose proof (Z.div_mod n 10); lia).
  destruct Hn as [-> | [-> | ->]]; reflexivity.
Qed.

Ltac finish :=
  repeat match goal with
         | |- _ /\ _ => split
         | |- _ -> _ => intro
         end;
  try solve [ auto | lia | congruence | lra | exfalso; lra | exfalso; lia
            | discriminate ].

Lemma ChargerEnemy_call_state_spec (self : ChargerEnemy) (g : Game) :
  ChargerEnemy_wf self ->
  exists self',
    ChargerEnemy_call_state self g = Ok (self', g) /\
    ChargerEnemy_wf self' /\
    cg_size self' = cg_size self /\ cg_color self' = cg_color self /\
    charger_transition g self self'.
Proof.
  intros [Hc Hst].
  pose proof Hc as (Hacc & Hss & Hhs & Hrad & Hcs & Hcol).
  unfold ChargerEnemy_call_state, charger_transition, ChargerEnemy_wf,
    ChargerEnemy_consts.
  destruct (cg_state self) eqn:Est.
  - (* hunt *)
    unfold ChargerEnemy_hunt; unfold_M. rewrite Hrad.
    destruct (Rleb _ 150) eqn:Ed.
    + apply Rleb_true in Ed.
      eexists; split; [reflexivity|]. cbn. rewrite Hst. finish.
    + apply Rleb_false in Ed.
      eexists; split; [reflexivity|]. cbn. rewrite Est. finish.
  - (* charge *)
    destruct Hst as [Hr Hev].
    assert (Hev' : (cg_charge_state self + 2) mod 2 = 0).
    { replace (cg_charge_state self + 2) with (cg_charge_state self + 1 * 2)
        by lia.
      rewrite Z_mod_plus_full. exact Hev. }
    unfold ChargerEnemy_charge; unfold_M. rewrite Hcol.
    destruct (cg_charge_state self mod 10 =? 0) eqn:Em.
    + apply Z.eqb_eq in Em. rewrite (palette_lookup _ Hr Em).
      cbn -[Z.add Z.gtb palette]. rewrite Hcol, Hcs.
      cbn -[Z.add Z.gtb palette].
      destruct (cg_charge_state self + 2 >? 20) eqn:Et.
      * eexists; split; [reflexivity|].
        cbn -[Z.add palette Z.modulo]. rewrite Hss. finish.
      * eexists; split; [reflexivity|]. cbn -[Z.add palette Z.modulo].
        rewrite Est. finish.
    + cbn -[Z.add Z.gtb]. rewrite Hcol, Hcs. cbn -[Z.add Z.gtb].
      destruct (cg_charge_state self + 2 >? 20) eqn:Et.
      * eexists; split; [reflexivity|]. cbn -[Z.add Z.modulo].
        rewrite Hss. finish.
      * eexists; split; [reflexivity|]. cbn -[Z.add Z.modulo].
        rewrite Est. finish.
  - (* strike *)
    destruct Hst as [Hz Hloc].
    unfold ChargerEnemy_strike; unfold_M.
    destruct (cg_charge_loc self) as [t|] eqn:El; [|congruence].
    destruct (Rltb _ 25) eqn:Ed.
    + apply Rltb_true in Ed.
      eexists; split; [reflexivity|]. cbn. finish.
      exists t; finish.
    + apply Rltb_false in Ed.
      eexists; split; [reflexivity|]. cbn. rewrite Est. finish.
      exists t; finish.
  - (* break *)
    destruct Hst as [Hz Hdeg].
    unfold ChargerEnemy_break; unfold_M. cbn.
    destruct (cg_break_deg self) as [d|] eqn:Eb; [|congruence].
    cbn. rewrite Hacc, Hhs.
    destruct (Rleb _ 2) eqn:Ed.
    + apply Rleb_true in Ed.
      eexists; split; [reflexivity|]. cbn. finish.
    + apply Rleb_false in Ed.
      eexists; split; [reflexivity|]. cbn. rewrite Est. finish.
Qed.

Lemma ChargerEnemy_init_wf (size : Z) (color : string) :
  ChargerEnemy_wf (ChargerEnemy_init size color).
Proof. repeat split; reflexivity. Qed.

Lemma ChargerEnemy_update_total (self : ChargerEnemy) (g : Game) :
  ChargerEnemy_wf self ->
  exists self',
    ChargerEnemy_update self g
    = Ok (self', after_update g (random g) (hits_player self' g)) /\
    ChargerEnemy_call_state self g = Ok (self', g) /\
    ChargerEnemy_wf self' /\
    cg_size self' = cg_size self /\ cg_color self' = cg_color self /\
    charger_transition g self self'.
Proof.
  intros Hwf.
  destruct (ChargerEnemy_call_state_spec self g Hwf)
    as (self' & Hcall & Hwf' & Hsz & Hcol & Htr).
  exists self'. unfold ChargerEnemy_update, after_update; unfold_M.
  rewrite Hcall, lose_if_hit_eq, set_random_same.
  auto 10.
Qed.

(** C5. One update of a charger in any of its possible states returns, and
    its state changes exactly at the thresholds: hunt to charge when the
    distance to the player is at most 150 (otherwise it stays in hunt);
    charge to strike when the charge timer, advanced by 2, exceeds 20, the
    player's position then being captured as strike target, the speed set to
    25 and the timer reset; strike to brake when the distance to the captured
    target, measured from where the update started, is below 25; brake to
    hunt when the speed, reduced by 1.5, is at most 2, the speed then being
    set to 2 and the fill back to the enemy's colour. *)
Theorem charger_transitions_at_thresholds :
  forall (self : ChargerEnemy) (g : Game),
    ChargerEnemy_wf self ->
    exists self' g',
      ChargerEnemy_update self g = Ok (self', g') /\
      ChargerEnemy_wf self' /\
      charger_transition g self self'.
Proof.
  intros self g Hwf.
  destruct (ChargerEnemy_update_total self g Hwf)
    as (self' & Hup & _ & Hwf' & _ & _ & Htr).
  exists self'; eexists; eauto.
Qed.

Lemma charger_transitions_at_thresholds_witness :
  exists self' g',
    ChargerEnemy_update (ChargerEnemy_init 18 "navy") (demo_game 4)
    = Ok (self', g') /\
    ChargerEnemy_wf self' /\
    charger_transition (demo_game 4) (ChargerEnemy_init 18 "navy") self'.
Proof.
  apply (charger_transitions_at_thresholds
           (ChargerEnemy_init 18 "navy") (demo_game 4)).
  repeat split; reflexivity.
Defined.

(** While the timer stays within 20, each call in the charge phase
    advances it by 2 and the charger keeps charging. *)
Lemma charge_phase_advances (n : nat) (self : ChargerEnemy) (g : Game) :
  ChargerEnemy_wf self -> cg_state self = charge ->
  cg_charge_state self + 2 * Z.of_nat n <= 20 ->
  exists self',
    charger_calls n self g = Ok (self', g) /\ ChargerEnemy_wf self' /\
    cg_state self' = charge /\
    cg_charge_state self' = cg_charge_state self + 2 * Z.of_nat n.
Proof.
  revert self; induction n as [|n IH]; intros self Hwf Hst Hle;
    cbn [charger_calls]; unfold_M.
  - exists self. split; [reflexivity|]. split; [exact Hwf|].
    split; [exact Hst|lia].
  - destruct (ChargerEnemy_call_state_spec self g Hwf)
      as (self1 & E & Hwf1 & _ & _ & Htr).
    unfold charger_transition in Htr. rewrite Hst in Htr.
    destruct Htr as (_ & Hstay & _).
    destruct Hstay as (Hst1 & Hcs1 & _); [lia|].
    destruct (IH self1 Hwf1 Hst1) as (self' & E' & Hwf' & Hst' & Hcs');
      [lia|].
    rewrite E. exists self'. split; [exact E'|]. split; [exact Hwf'|].
    split; [exact Hst'|lia].
Qed.

Lemma charger_calls_app (n m : nat) (self : ChargerEnemy) (g : Game) :
  charger_calls (n + m) self g
  = bind (charger_calls n self) (charger_calls m) g.
Proof.
  revert self g; induction n as [|n IH]; intros self g;
    cbn [charger_calls Nat.add].
  - reflexivity.
  - unfold bind. destruct (ChargerEnemy_call_state self g) as [[s1 g1]|e];
      [|reflexivity].
    rewrite IH. reflexivity.
Qed.

(** The charge phase lasts eleven calls: ten that advance the timer from
    0 to 20, and the eleventh that takes it beyond 20 and starts the strike. *)
Lemma charge_phase_lasts_eleven_calls (self : ChargerEnemy) (g : Game) :
  ChargerEnemy_wf self -> cg_state self = charge -> cg_charge_state self = 0 ->
  (exists s10, charger_calls 10 self g = Ok (s10, g) /\
               cg_state s10 = charge /\ cg_charge_state s10 = 20) /\
  (exists s11, charger_calls 11 self g = Ok (s11, g) /\
               cg_state s11 = strike /\
               cg_charge_loc s11
               = Some (player_x (player g), player_y (player g)) /\
               cg_speed s11 = 25%R).
Proof.
  intros Hwf Hst Hcs.
  destruct (charge_phase_advances 10 self g Hwf Hst)
    as (s10 & E10 & Hwf10 & Hst10 & Hcs10); [lia|].
  split; [exists s10; split; [exact E10|split; [exact Hst10|lia]]|].
  destruct (ChargerEnemy_call_state_spec s10 g Hwf10)
    as (s11 & E & _ & _ & _ & Htr).
  unfold charger_transition in Htr. rewrite Hst10 in Htr.
  destruct Htr as (Hgo & _).
  destruct Hgo as (Hst11 & Hloc & Hsp & _); [lia|].
  exists s11. split; [|auto].
  change 11%nat with (10 + 1)%nat. rewrite charger_calls_app. unfold bind at 1.
  rewrite E10. cbn [charger_calls]. unfold_M. rewrite E. reflexivity.
Qed.

(** C3, as the code has it. Every update of a random-walk, chasing, fencing
    or charger enemy returns and ends with the hit check: afterwards the game
    is stopped and "You Lose" drawn exactly when the enemy, at its new
    position, hits the player.  [DemoEnemy.update] does nothing at all. *)
Theorem moving_enemy_update_ends_with_hit_check :
  forall (g : Game) (r : RandomWalkEnemy) (c : ChasingEnemy)
         (f : FencingEnemy) (k : ChargerEnemy),
    ChargerEnemy_wf k ->
    (exists r' g', RandomWalkEnemy_update r g = Ok (r', g') /\
                   hit_checked r' g g') /\
    (exists c' g', ChasingEnemy_update c g = Ok (c', g') /\
                   hit_checked c' g g') /\
    (exists f' g', FencingEnemy_update f g = Ok (f', g') /\
                   hit_checked f' g g') /\
    (exists k' g', ChargerEnemy_update k g = Ok (k', g') /\
                   hit_checked k' g g') /\
    (forall d : DemoEnemy, DemoEnemy_update d g = Ok (d, g)).
Proof.
  intros g r c f k Hwf.
  split; [|split; [|split; [|split]]].
  - destruct (RandomWalkEnemy_update_total r g) as (r' & rnd & E & _).
    exists r'; eexists; split; [exact E|apply hit_checked_after_update].
  - destruct (ChasingEnemy_update_total c g) as (c' & E & _).
    exists c'; eexists; split; [exact E|apply hit_checked_after_update].
  - rewrite FencingEnemy_update_eq.
    eexists; eexists; split; [reflexivity|].
    apply hit_checked_intro; reflexivity.
  - destruct (ChargerEnemy_update_total k g Hwf) as (k' & E & _).
    exists k'; eexists; split; [exact E|apply hit_checked_after_update].
  - reflexivity.
Qed.

Lemma moving_enemy_update_ends_with_hit_check_witness :
  (exists r' g', RandomWalkEnemy_update (RandomWalkEnemy_init 20 "red")
                   (demo_game 4)
                 = Ok (r', g') /\ hit_checked r' (demo_game 4) g') /\
  (exists c' g', ChasingEnemy_update (ChasingEnemy_init 10 "yellow")
                   (demo_game 4)
                 = Ok (c', g') /\ hit_checked c' (demo_game 4) g') /\
  (exists f' g', FencingEnemy_update
                   (mkFencingEnemy 715 265 15 "orange" None 3 15 move_up)
                   (demo_game 4)
                 = Ok (f', g') /\ hit_checked f' (demo_game 4) g') /\
  (exists k' g', ChargerEnemy_update (ChargerEnemy_init 18 "navy")
                   (demo_game 4)
                 = Ok (k', g') /\ hit_checked k' (demo_game 4) g') /\
  (forall d : DemoEnemy, DemoEnemy_update d (demo_game 4) = Ok (d, demo_game 4)).
Proof.
  apply (moving_enemy_update_ends_with_hit_check (demo_game 4)).
  repeat split; reflexivity.
Defined.

(** C3, as stated, fails for [DemoEnemy]: a demo enemy of size 20 sitting
    on the player hits it, yet its update neither stops the game nor draws
    "You Lose". *)
Lemma DemoEnemy_update_skips_hit_check :
  hits_player (DemoEnemy_init 20 "red") (demo_game 1) = true /\
  DemoEnemy_update (DemoEnemy_init 20 "red") (demo_game 1)
  = Ok (DemoEnemy_init 20 "red", demo_game 1) /\
  stopped (demo_game 1) = false /\ canvas_texts (demo_game 1) = [].
Proof.
  split; [|repeat split].
  apply hits_player_spec. cbn. lra.
Qed.

(** ** Size and colour of an enemy *)

Lemma randint_ok (a b : Z) (r : Random) :
  a <= b ->
  exists v, randint a b r = Ok (v, mkRandom (draws r) (S (cursor r))) /\
            a <= v <= b.
Proof.
  intros Hab. unfold randint, next_draw.
  destruct (a <=? b) eqn:E; [|lia].
  eexists; split; [reflexivity|].
  pose proof (Z.mod_pos_bound (draws r (cursor r)) (b - a + 1)). lia.
Qed.

Lemma construct_spec (kind : EnemyKind) (size : Z) (color : string) (g : Game) :
  exists e r,
    construct kind size color g = Ok (e, set_random r g) /\
    kind_of e = kind /\ size_of e = size /\ color_of e = color /\ Enemy_wf e.
Proof.
  destruct kind; cbn [construct]; unfold_M;
    try (eexists; exists (random g); rewrite set_random_same;
         split; [reflexivity|]; cbn; repeat split; auto; reflexivity).
  unfold FencingEnemy_init; unfold_M.
  destruct (randint_ok 15 75 (random g)) as (v & E & _); [lia|].
  rewrite E. eexists; eexists; split; [reflexivity|]. cbn; auto.
Qed.

Lemma Enemy_create_spec (e : Enemy) :
  kind_of (Enemy_create e) = kind_of e /\
  size_of (Enemy_create e) = size_of e /\
  color_of (Enemy_create e) = color_of e /\
  (Enemy_wf e -> Enemy_wf (Enemy_create e)).
Proof. destruct e; cbn; auto. Qed.

Lemma set_position_spec (loc : Z * Z) (e : Enemy) :
  kind_of (set_position loc e) = kind_of e /\
  size_of (set_position loc e) = size_of e /\
  color_of (set_position loc e) = color_of e /\
  (Enemy_wf e -> Enemy_wf (set_position loc e)).
Proof. destruct e; cbn; auto. Qed.

Lemma Enemy_update_total (e : Enemy) (g : Game) :
  Enemy_wf e ->
  exists e' r hit,
    Enemy_update e g = Ok (e', after_update g r hit) /\
    kind_of e' = kind_of e /\ size_of e' = size_of e /\
    color_of e' = color_of e /\ Enemy_wf e'.
Proof.
  intros Hwf. destruct e as [d|r|c|f|k]; cbn [Enemy_update]; unfold_M.
  - exists (Demo d), (random g), false. unfold after_update.
    rewrite set_random_same. cbn; auto.
  - destruct (RandomWalkEnemy_update_total r g) as (r' & rnd & E & Hs & Hc & _).
    rewrite E. exists (RandomWalk r'), rnd; eexists.
    split; [reflexivity|]. cbn; auto.
  - destruct (ChasingEnemy_update_total c g) as (c' & E & Hs & Hc & _).
    rewrite E. exists (Chasing c'), (random g); eexists.
    split; [reflexivity|]. cbn; auto.
  - rewrite FencingEnemy_update_eq.
    exists (Fencing (FencingEnemy_call_state (home g) f)), (random g);
      eexists.
    split; [unfold after_update; rewrite set_random_same; reflexivity|].
    cbn. unfold FencingEnemy_call_state, FencingEnemy_move_up,
      FencingEnemy_move_left, FencingEnemy_move_down, FencingEnemy_move_right.
    destruct (fe_state f); cbn;
      match goal with |- context [if ?b then _ else _] => destruct b end;
      cbn; auto.
  - destruct (ChargerEnemy_update_total k g Hwf)
      as (k' & E & _ & Hwf' & Hs & Hc & _).
    rewrite E. exists (Charger k'), (random g); eexists.
    split; [reflexivity|]. cbn; auto.
Qed.

Lemma lifetime_invariant (e e' : Enemy) :
  lifetime e e' -> Enemy_wf e ->
  Enemy_wf e' /\ kind_of e' = kind_of e /\ size_of e' = size_of e /\
  color_of e' = color_of e.
Proof.
  induction 1 as [e | e e' Hl IH | loc e e' Hl IH | g g1 e e1 e' Hup Hl IH];
    intros Hwf.
  - auto.
  - destruct (Enemy_create_spec e) as (Hk & Hs & Hc & Hw).
    destruct (IH (Hw Hwf)) as (? & ? & ? & ?). repeat split; congruence.
  - destruct (set_position_spec loc e) as (Hk & Hs & Hc & Hw).
    destruct (IH (Hw Hwf)) as (? & ? & ? & ?). repeat split; congruence.
  - destruct (Enemy_update_total e g Hwf)
      as (e2 & r & hit & E & Hk & Hs & Hc & Hw).
    rewrite E in Hup. injection Hup as <- _.
    destruct (IH Hw) as (? & ? & ? & ?). repeat split; congruence.
Qed.

(** C10. For an enemy of any class built with [size] and [color], whatever
    sequence of [create()], position assignments and [update()] calls it has
    gone through, the [size] and [color] properties still return those two
    arguments.  For a charger, the next update returns and leaves them alone
    as well: in the charge phase it only repaints the canvas rectangle (at
    timer values 0, 10 and 20), and an update that takes it from brake back to
    hunt sets the rectangle's fill to the unchanged [color]. *)
Theorem enemy_size_and_color_are_fixed :
  forall (kind : EnemyKind) (size : Z) (color : string)
         (g0 g1 : Game) (e0 e : Enemy),
    construct kind size color g0 = Ok (e0, g1) ->
    lifetime e0 e ->
    size_of e = size /\ color_of e = color /\
    forall (c : ChargerEnemy) (g : Game),
      e = Charger c ->
      exists c' g',
        ChargerEnemy_update c g = Ok (c', g') /\
        size_of c' = size /\ color_of c' = color /\
        (cg_state c = charge ->
           cg_obj c' =
             if cg_charge_state c mod 10 =? 0
             then option_map (fun _ => palette (cg_charge_state c)) (cg_obj c)
             else cg_obj c) /\
        (cg_state c = break -> cg_state c' = hunt ->
           cg_obj c' = option_map (fun _ => color) (cg_obj c)).
Proof.
  intros kind size color g0 g1 e0 e Hc Hl.
  destruct (construct_spec kind size color g0)
    as (e1 & r & E & Hk & Hs & Hcol & Hwf).
  rewrite E in Hc. injection Hc as <- _.
  destruct (lifetime_invariant _ _ Hl Hwf) as (Hwf' & Hk' & Hs' & Hc').
  split; [congruence|]. split; [congruence|].
  intros c g ->. cbn in Hwf'.
  change (size_of (Charger c)) with (cg_size c) in Hs'.
  change (color_of (Charger c)) with (cg_color c) in Hc'.
  destruct (ChargerEnemy_update_total c g Hwf')
    as (c' & Hup & _ & _ & Hsz & Hco & Htr).
  exists c'; eexists. split; [exact Hup|].
  cbn. split; [congruence|]. split; [congruence|].
  unfold charger_transition in Htr. split.
  - intros Hst. rewrite Hst in Htr. tauto.
  - intros Hst Hst'. rewrite Hst in Htr. destruct Htr as [Hlow Hhigh].
    destruct (Rle_lt_dec (cg_speed c - 15 / 10) 2) as [Hv|Hv].
    + destruct (Hlow Hv) as (_ & _ & Ho). rewrite Ho.
      replace (cg_color c') with color by congruence. reflexivity.
    + destruct (Hhigh Hv) as (Hb & _). congruence.
Qed.

Lemma enemy_size_and_color_are_fixed_witness :
  size_of (Enemy_create (Charger (ChargerEnemy_init 18 "navy"))) = 18 /\
  color_of (Enemy_create (Charger (ChargerEnemy_init 18 "navy")))
  = "navy"%string /\
  forall (c : ChargerEnemy) (g : Game),
    Enemy_create (Charger (ChargerEnemy_init 18 "navy")) = Charger c ->
    exists c' g',
      ChargerEnemy_update c g = Ok (c', g') /\
      size_of c' = 18 /\ color_of c' = "navy"%string /\
      (cg_state c = charge ->
         cg_obj c' =
           if cg_charge_state c mod 10 =? 0
           then option_map (fun _ => palette (cg_charge_state c)) (cg_obj c)
           else cg_obj c) /\
      (cg_state c = break -> cg_state c' = hunt ->
         cg_obj c' = option_map (fun _ => "navy"%string) (cg_obj c)).
Proof.
  apply (enemy_size_and_color_are_fixed ChargerEnemyK 18 "navy"
           (demo_game 4) (demo_game 4) (Charger (ChargerEnemy_init 18 "navy"))).
  - reflexivity.
  - apply lifetime_create. apply lifetime_now.
Defined.

(** ** The patrol of a fencing enemy *)

Lemma fencing_spawned_inv (h : Home) (self : FencingEnemy) :
  fencing_spawned h self -> fencing_inv h self.
Proof.
  intros (Hr & Hs & Hst & Hx & Hy). unfold fencing_inv.
  rewrite Hst. lia.
Qed.

Lemma fencing_path_rad_steps (h : Home) (self : FencingEnemy) :
  fe_path_rad (FencingEnemy_call_state h self) = fe_path_rad self.
Proof.
  unfold FencingEnemy_call_state, FencingEnemy_move_up, FencingEnemy_move_left,
    FencingEnemy_move_down, FencingEnemy_move_right.
  destruct (fe_state self); cbn;
    match goal with |- context [if ?b then _ else _] => destruct b end;
    reflexivity.
Qed.

(** One call of the stored state method: the invariant is kept, and the
    state moves on to the next one exactly when less than a step is left
    of the current leg. *)
Lemma fencing_step_spec (h : Home) (self : FencingEnemy) :
  fencing_inv h self ->
  fencing_inv h (FencingEnemy_call_state h self) /\
  (remaining h self < 3 ->
     fe_state (FencingEnemy_call_state h self) = next_state (fe_state self)) /\
  (3 <= remaining h self ->
     fe_state (FencingEnemy_call_state h self) = fe_state self /\
     remaining h (FencingEnemy_call_state h self) = remaining h self - 3).
Proof.
  unfold fencing_inv, remaining, FencingEnemy_call_state,
    FencingEnemy_move_up, FencingEnemy_move_left,
    FencingEnemy_move_down, FencingEnemy_move_right.
  intros (Hr & Hs & Hpos).
  destruct (fe_state self) eqn:Est; cbn; rewrite Hs.
  - destruct (Z.ltb_spec (fe_y self - 3) (home_y h - fe_path_rad self));
      cbn; rewrite ?Est; cbn; repeat split; try lia.
  - destruct (Z.ltb_spec (fe_x self - 3) (home_x h - fe_path_rad self));
      cbn; rewrite ?Est; cbn; repeat split; try lia.
  - rewrite Z.gtb_ltb.
    destruct (Z.ltb_spec (home_y h + fe_path_rad self) (fe_y self + 3));
      cbn; rewrite ?Est; cbn; repeat split; try lia.
  - rewrite Z.gtb_ltb.
    destruct (Z.ltb_spec (home_x h + fe_path_rad self) (fe_x self + 3));
      cbn; rewrite ?Est; cbn; repeat split; try lia.
Qed.

Lemma fencing_steps_inv (h : Home) (n : nat) (self : FencingEnemy) :
  fencing_inv h self -> fencing_inv h (fencing_steps h n self).
Proof.
  revert self; induction n as [|n IH]; intros self Hinv; cbn; auto.
  apply IH. apply fencing_step_spec; assumption.
Qed.

Lemma fencing_inv_bounds (h : Home) (self : FencingEnemy) :
  fencing_inv h self ->
  home_x h - (fe_path_rad self + 3) <= fe_x self
    <= home_x h + (fe_path_rad self + 3) /\
  home_y h - (fe_path_rad self + 3) <= fe_y self
    <= home_y h + (fe_path_rad self + 3) /\
  0 <= remaining h self <= 2 * fe_path_rad self + 3.
Proof.
  unfold fencing_inv, remaining. intros (Hr & Hs & Hpos).
  destruct (fe_state self); lia.
Qed.

(** A leg with [3 * k <= remaining < 3 * (k + 1)] ends with the
    [(k + 1)]-th call and not before. *)
Lemma fencing_leg_ends (h : Home) (k : nat) (self : FencingEnemy) :
  fencing_inv h self ->
  3 * Z.of_nat k <= remaining h self < 3 * (Z.of_nat k + 1) ->
  fe_state (fencing_steps h (S k) self) = next_state (fe_state self) /\
  forall j : nat, (j <= k)%nat ->
    fe_state (fencing_steps h j self) = fe_state self.
Proof.
  revert self; induction k as [|k IH]; intros self Hinv Hrem.
  - destruct (fencing_step_spec h self Hinv) as (_ & Hnext & _).
    split.
    + cbn. apply Hnext. lia.
    + intros j Hj. replace j with O by lia. reflexivity.
  - destruct (fencing_step_spec h self Hinv) as (Hinv' & _ & Hsame).
    destruct Hsame as [Hst Hrem']; [lia|].
    destruct (IH (FencingEnemy_call_state h self) Hinv') as [Hend Hbefore];
      [lia|].
    split.
    + change (fencing_steps h (S (S k)) self)
        with (fencing_steps h (S k) (FencingEnemy_call_state h self)).
      rewrite Hend, Hst. reflexivity.
    + intros [|j] Hj; [reflexivity|].
      cbn. rewrite Hbefore by lia. exact Hst.
Qed.

Lemma FencingEnemy_updates_eq (n : nat) (self : FencingEnemy) (g : Game) :
  exists g',
    FencingEnemy_updates n self g = Ok (fencing_steps (home g) n self, g') /\
    home g' = home g.
Proof.
  revert self g; induction n as [|n IH]; intros self g; cbn; unfold_M.
  - exists g; auto.
  - rewrite FencingEnemy_update_eq.
    destruct (hits_player (FencingEnemy_call_state (home g) self) g).
    + destruct (IH (FencingEnemy_call_state (home g) self) (lost g))
        as (g' & E & Hh).
      exists g'. rewrite E. auto.
    + destruct (IH (FencingEnemy_call_state (home g) self) g) as (g' & E & Hh).
      exists g'. rewrite E. auto.
Qed.

(** C6, as the code has it. A fencing enemy spawned around the home, after
    any number of updates: its state is followed by the same state or by the
    next one of the cycle up, left, down, right, up; the current leg ends
    after finitely many further updates (one more than a third of what
    remains of it), so the cycle goes on for ever; and its position is
    within the square home +- (patrol radius + 3) on both axes: each line
    home +- patrol radius may be overshot by up to one step of 3. *)
Theorem fencing_enemy_patrol :
  forall (g : Game) (self0 : FencingEnemy) (n : nat),
    fencing_spawned (home g) self0 ->
    let h := home g in
    let rad := fe_path_rad self0 in
    let self := fencing_steps h n self0 in
    (exists g', FencingEnemy_updates n self0 g = Ok (self, g') /\
                home g' = home g) /\
    (home_x h - (rad + 3) <= fe_x self <= home_x h + (rad + 3) /\
     home_y h - (rad + 3) <= fe_y self <= home_y h + (rad + 3)) /\
    (fe_state (FencingEnemy_call_state h self) = fe_state self \/
     fe_state (FencingEnemy_call_state h self) = next_state (fe_state self)) /\
    (let k := Z.to_nat (remaining h self / 3) in
     fe_state (fencing_steps h (S k) self) = next_state (fe_state self) /\
     forall j : nat, (j <= k)%nat ->
       fe_state (fencing_steps h j self) = fe_state self).
Proof.
  intros g self0 n Hsp h rad self.
  assert (Hinv : fencing_inv h self)
    by (apply fencing_steps_inv, fencing_spawned_inv; exact Hsp).
  assert (Hrad : fe_path_rad self = rad).
  { subst self rad. clear. revert self0.
    induction n as [|n IH]; intros self0; cbn; [reflexivity|].
    rewrite IH. apply fencing_path_rad_steps. }
  destruct (fencing_inv_bounds h self Hinv) as (Hx & Hy & Hrem).
  rewrite Hrad in Hx, Hy.
  split; [apply FencingEnemy_updates_eq|].
  split; [auto|].
  split.
  - destruct (fencing_step_spec h self Hinv) as (_ & Hnext & Hsame).
    destruct (Z_lt_le_dec (remaining h self) 3) as [Hlt|Hge].
    + right; auto.
    + left; apply Hsame; exact Hge.
  - apply fencing_leg_ends; [exact Hinv|].
    rewrite Z2Nat.id by (apply Z.div_pos; lia).
    pose proof (Z.div_mod (remaining h self) 3).
    pose proof (Z.mod_pos_bound (remaining h self) 3). lia.
Qed.

Lemma fencing_enemy_patrol_witness :
  (exists g',
      FencingEnemy_updates 11
        (mkFencingEnemy 715 265 15 "orange" (Some "orange"%string) 3 15 move_up)
        (demo_game 3)
      = Ok (fencing_steps (home (demo_game 3)) 11
              (mkFencingEnemy 715 265 15 "orange" (Some "orange"%string)
                              3 15 move_up), g') /\
      home g' = home (demo_game 3)) /\
  fe_state (fencing_steps (home (demo_game 3)) 11
              (mkFencingEnemy 715 265 15 "orange" (Some "orange"%string)
                              3 15 move_up)) = move_left.
Proof.
  assert (Hsp : fencing_spawned (home (demo_game 3))
                  (mkFencingEnemy 715 265 15 "orange" (Some "orange"%string)
                                  3 15 move_up))
    by (unfold fencing_spawned; cbn; repeat split; try reflexivity; lia).
  split.
  - exact (proj1 (fencing_enemy_patrol (demo_game 3) _ 11 Hsp)).
  - vm_compute. reflexivity.
Defined.

(** C6, as stated, fails: a fencing enemy with patrol radius 15 spawned at
    (715, 265) around the home at (700, 250) is at y = 232 after eleven
    updates, below the line home_y - patrol_radius = 235. *)
Lemma fencing_enemy_leaves_square :
  exists self g',
    FencingEnemy_updates 11
      (mkFencingEnemy 715 265 15 "orange" (Some "orange"%string) 3 15 move_up)
      (demo_game 3) = Ok (self, g') /\
    fencing_spawned (home (demo_game 3))
      (mkFencingEnemy 715 265 15 "orange" (Some "orange"%string) 3 15 move_up) /\
    fe_y self = 232 /\
    home_y (home (demo_game 3)) - fe_path_rad self = 235 /\
    ~ (home_y (home (demo_game 3)) - fe_path_rad self <= fe_y self
         <= home_y (home (demo_game 3)) + fe_path_rad self).
Proof.
  destruct (FencingEnemy_updates_eq 11
              (mkFencingEnemy 715 265 15 "orange" (Some "orange"%string)
                              3 15 move_up) (demo_game 3)) as (g' & E & _).
  set (self := fencing_steps (home (demo_game 3)) 11
                 (mkFencingEnemy 715 265 15 "orange" (Some "orange"%string)
                                 3 15 move_up)) in *.
  assert (Hy : fe_y self = 232) by (vm_compute; reflexivity).
  assert (Hr : fe_path_rad self = 15) by (vm_compute; reflexivity).
  assert (Hh : home_y (home (demo_game 3)) = 250) by (vm_compute; reflexivity).
  exists self, g'. split; [exact E|].
  split; [unfold fencing_spawned; cbn; repeat split; try reflexivity; lia|].
  rewrite Hy, Hr, Hh. lia.
Qed.

(** ** The turtle moves straight at its target *)

Lemma hypot_pos (a b : R) : (a <> 0 \/ b <> 0)%R -> (0 < hypot a b)%R.
Proof.
  intros H. unfold hypot. apply sqrt_lt_R0.
  destruct H as [H|H]; nra.
Qed.

Lemma sqrt_one_plus_sqr (x y : R) :
  (x <> 0)%R -> sqrt (1 + (y / x)²) = (hypot x y / Rabs x)%R.
Proof.
  intros Hx. unfold hypot.
  replace (1 + (y / x)²)%R with ((x ^ 2 + y ^ 2) / x²)%R
    by (unfold Rsqr; field; exact Hx).
  rewrite sqrt_div_alt by (unfold Rsqr; nra).
  rewrite sqrt_Rsqr_abs. reflexivity.
Qed.

Lemma atan_direction (y x : R) :
  (x <> 0)%R ->
  cos (atan (y / x)) = (Rabs x / hypot x y)%R /\
  sin (atan (y / x)) = (y / x * Rabs x / hypot x y)%R.
Proof.
  intros Hx.
  assert (Hh : (0 < hypot x y)%R) by (apply hypot_pos; auto).
  assert (Ha : (0 < Rabs x)%R) by (apply Rabs_pos_lt; exact Hx).
  rewrite cos_atan, sin_atan, sqrt_one_plus_sqr by exact Hx.
  split; field; lra.
Qed.

Lemma atan2_direction (y x : R) :
  (x <> 0 \/ y <> 0)%R ->
  cos (atan2 y x) = (x / hypot x y)%R /\ sin (atan2 y x) = (y / hypot x y)%R.
Proof.
  intros Hxy.
  assert (Hh : (0 < hypot x y)%R) by (apply hypot_pos; exact Hxy).
  unfold atan2.
  destruct (Rlt_dec 0 x) as [Hpos|Hnpos].
  - destruct (atan_direction y x) as [Hc Hs]; [lra|].
    rewrite Hc, Hs, Rabs_right by lra. split; field; lra.
  - destruct (Rlt_dec x 0) as [Hneg|Hnneg].
    + destruct (atan_direction y x) as [Hc Hs]; [lra|].
      rewrite Rabs_left in Hc, Hs by lra.
      destruct (Rle_dec 0 y).
      * rewrite neg_cos, neg_sin, Hc, Hs. split; field; lra.
      * rewrite cos_minus, sin_minus, cos_PI, sin_PI, Hc, Hs.
        split; field; lra.
    + assert (Hx : x = 0%R) by lra. subst x.
      assert (Hy : (y <> 0)%R) by (destruct Hxy; lra).
      unfold hypot in *.
      replace (0 ^ 2 + y ^ 2)%R with (y * y)%R in * by ring.
      destruct (Rlt_dec 0 y) as [Hy1|Hy1].
      * rewrite cos_PI2, sin_PI2, sqrt_square by lra. split; field; lra.
      * destruct (Rlt_dec y 0) as [Hy2|Hy2]; [|lra].
        rewrite cos_neg, sin_neg, cos_PI2, sin_PI2.
        replace (y * y)%R with ((- y) * (- y))%R by ring.
        rewrite sqrt_square by lra. split; field; lra.
Qed.

(** The step that the chasing enemy and the charger take: from [(x, y)] by
    [s] in the direction [atan2] gives for the target [(tx, ty)]. *)
Lemma step_at_target (x y tx ty s : R) :
  let deg := atan2 (ty - y) (tx - x) in
  let d := hypot (tx - x) (ty - y) in
  let x' := (x + cos deg * s)%R in
  let y' := (y + sin deg * s)%R in
  hypot (x' - x) (y' - y) = Rabs s /\
  ((0 < d)%R ->
     x' = (x + s * ((tx - x) / d))%R /\ y' = (y + s * ((ty - y) / d))%R /\
     hypot (tx - x') (ty - y') = Rabs (d - s)) /\
  (tx = x -> ty = y -> x' = (x + s)%R /\ y' = y).
Proof.
  cbv zeta. set (a := atan2 (ty - y) (tx - x)).
  split; [|split].
  - unfold hypot.
    replace ((x + cos a * s - x) ^ 2 + (y + sin a * s - y) ^ 2)%R
      with (s² * ((sin a)² + (cos a)²))%R by (unfold Rsqr; ring).
    rewrite sin2_cos2, Rmult_1_r. apply sqrt_Rsqr_abs.
  - intros Hd.
    assert (Hne : (tx - x <> 0 \/ ty - y <> 0)%R).
    { destruct (Req_dec (tx - x) 0) as [Hx|Hx]; [|auto].
      destruct (Req_dec (ty - y) 0) as [Hy|Hy]; [|auto].
      exfalso. unfold hypot in Hd. rewrite Hx, Hy in Hd.
      replace (0 ^ 2 + 0 ^ 2)%R with 0%R in Hd by ring.
      rewrite sqrt_0 in Hd. lra. }
    destruct (atan2_direction _ _ Hne) as [Hca Hsa]. fold a in Hca, Hsa.
    rewrite Hca, Hsa.
    set (r := hypot (tx - x) (ty - y)) in *.
    assert (Hr2 : (r * r = (tx - x) ^ 2 + (ty - y) ^ 2)%R).
    { unfold r, hypot. apply sqrt_sqrt.
      apply Rplus_le_le_0_compat; apply pow2_ge_0. }
    split; [field; lra|]. split; [field; lra|].
    unfold hypot.
    replace ((tx - (x + (tx - x) / r * s)) ^ 2
             + (ty - (y + (ty - y) / r * s)) ^ 2)%R
      with (((tx - x) ^ 2 + (ty - y) ^ 2) * (1 - s / r) ^ 2)%R
      by (field; lra).
    rewrite <- Hr2.
    replace (r * r * (1 - s / r) ^ 2)%R with ((r - s)²)%R
      by (unfold Rsqr; field; lra).
    apply sqrt_Rsqr_abs.
  - intros -> ->. unfold a, atan2.
    replace (y - y)%R with 0%R by ring. replace (x - x)%R with 0%R by ring.
    destruct (Rlt_dec 0 0); [lra|].
    rewrite cos_0, sin_0. split; ring.
Qed.

(** ** Rounding and angles *)

Lemma round_half_even_IZR (n : Z) : round_half_even (IZR n) = n.
Proof.
  unfold round_half_even. rewrite ZfloorZ.
  destruct (Rlt_dec (IZR n - IZR n) (1 / 2)) as [_|H]; [reflexivity|].
  exfalso. apply H. lra.
Qed.

Lemma round_half_even_error (r : R) :
  (Rabs (IZR (round_half_even r) - r) <= 1 / 2)%R.
Proof.
  unfold round_half_even. pose proof (Zfloor_bound r) as Hb.
  destruct (Rlt_dec (r - IZR (Zfloor r)) (1 / 2)) as [H1|H1].
  - apply Rabs_le. lra.
  - destruct (Rlt_dec (1 / 2) (r - IZR (Zfloor r))) as [H2|H2].
    + rewrite plus_IZR. apply Rabs_le. lra.
    + destruct (Z.even (Zfloor r)); [|rewrite plus_IZR]; apply Rabs_le; lra.
Qed.

Lemma pow10_pos (k : nat) : (0 < 10 ^ k)%R.
Proof. apply pow_lt. lra. Qed.

Lemma round_ndigits_exact (n : Z) (k : nat) :
  round_ndigits (IZR n / 10 ^ k) k = (IZR n / 10 ^ k)%R.
Proof.
  unfold round_ndigits. pose proof (pow10_pos k).
  replace (IZR n / 10 ^ k * 10 ^ k)%R with (IZR n) by (field; lra).
  rewrite round_half_even_IZR. reflexivity.
Qed.

Lemma round_ndigits_error (r : R) (k : nat) :
  (Rabs (round_ndigits r k - r) <= 1 / (2 * 10 ^ k))%R.
Proof.
  unfold round_ndigits. pose proof (pow10_pos k) as Hp.
  pose proof (round_half_even_error (r * 10 ^ k)) as He.
  replace (IZR (round_half_even (r * 10 ^ k)) / 10 ^ k - r)%R
    with ((IZR (round_half_even (r * 10 ^ k)) - r * 10 ^ k) / 10 ^ k)%R
    by (field; lra).
  unfold Rdiv at 1. rewrite Rabs_mult, (Rabs_right (/ 10 ^ k)).
  - replace (1 / (2 * 10 ^ k))%R with (1 / 2 * / 10 ^ k)%R by (field; lra).
    apply Rmult_le_compat_r; [|exact He].
    apply Rlt_le, Rinv_0_lt_compat, Hp.
  - apply Rle_ge, Rlt_le, Rinv_0_lt_compat, Hp.
Qed.

Lemma exact10_round (r : R) : exact10 (round_ndigits r 10).
Proof. eexists. reflexivity. Qed.

Lemma fmod_bounds (a b : R) : (0 < b)%R -> (0 <= fmod a b < b)%R.
Proof.
  intros Hb. unfold fmod. pose proof (Zfloor_bound (a / b)) as [H1 H2].
  assert (Ha : a = (a / b * b)%R) by (field; lra).
  split.
  - assert (b * IZR (Zfloor (a / b)) <= a / b * b)%R by nra. lra.
  - assert (a / b * b < b * (IZR (Zfloor (a / b)) + 1))%R by nra. lra.
Qed.

Lemma fmod_small (a b : R) : (0 <= a < b)%R -> fmod a b = a.
Proof.
  intros [H0 Hb]. unfold fmod.
  rewrite (Zfloor_eq 0).
  - ring.
  - split.
    + apply Rmult_le_pos; [lra|]. apply Rlt_le, Rinv_0_lt_compat. lra.
    + apply (Rmult_lt_reg_r b); [lra|].
      replace (a / b * b)%R with a by (field; lra). lra.
Qed.

Lemma exact10_fmod (x : R) : exact10 x -> exact10 (fmod x 360).
Proof.
  intros [n ->]. unfold fmod.
  exists (n - 360 * 10 ^ 10 * Zfloor (IZR n / 10 ^ 10 / 360)).
  rewrite minus_IZR, !mult_IZR.
  change (10 ^ 10)%Z with (10 ^ Z.of_nat 10)%Z. rewrite <- pow_IZR.
  pose proof (pow10_pos 10). field; lra.
Qed.

Lemma cos_period_Z (x : R) (k : Z) : cos (x + 2 * IZR k * PI) = cos x.
Proof.
  destruct (Z_le_gt_dec 0 k) as [Hk|Hk].
  - rewrite <- (Z2Nat.id k Hk), <- INR_IZR_INZ. apply cos_period.
  - rewrite <- (cos_period (x + 2 * IZR k * PI) (Z.to_nat (- k))).
    rewrite INR_IZR_INZ, Z2Nat.id by lia. rewrite opp_IZR. f_equal. ring.
Qed.

Lemma sin_period_Z (x : R) (k : Z) : sin (x + 2 * IZR k * PI) = sin x.
Proof.
  destruct (Z_le_gt_dec 0 k) as [Hk|Hk].
  - rewrite <- (Z2Nat.id k Hk), <- INR_IZR_INZ. apply sin_period.
  - rewrite <- (sin_period (x + 2 * IZR k * PI) (Z.to_nat (- k))).
    rewrite INR_IZR_INZ, Z2Nat.id by lia. rewrite opp_IZR. f_equal. ring.
Qed.

(** [atan2] undoes [sin] and [cos] on (-PI, PI]. *)
Lemma atan2_sin_cos (a : R) :
  (- PI < a <= PI)%R -> atan2 (sin a) (cos a) = a.
Proof.
  intros [Hlo Hhi]. pose proof PI_RGT_0 as Hpi. unfold atan2.
  destruct (Rlt_dec 0 (cos a)) as [Hc|Hc].
  - (* cos a > 0: a in (-PI/2, PI/2) *)
    assert (Ha : (- (PI / 2) < a < PI / 2)%R).
    { split.
      - destruct (Rlt_le_dec (- (PI / 2)) a) as [H|H]; [exact H|].
        exfalso.
        assert (Hle : (cos (a + 2 * PI) <= 0)%R) by (apply cos_le_0; lra).
        replace (a + 2 * PI)%R with (a + 2 * INR 1 * PI)%R in Hle by (cbn; ring).
        rewrite cos_period in Hle. lra.
      - destruct (Rlt_le_dec a (PI / 2)) as [H|H]; [exact H|].
        exfalso. pose proof (cos_le_0 a). lra. }
    change (sin a / cos a)%R with (tan a). apply atan_tan. exact Ha.
  - destruct (Rlt_dec (cos a) 0) as [Hc'|Hc'].
    + destruct (Rle_dec 0 (sin a)) as [Hs|Hs].
      * (* a in (PI/2, PI] *)
        assert (Ha : (PI / 2 < a)%R).
        { destruct (Rlt_le_dec (PI / 2) a) as [H|H]; [exact H|].
          exfalso.
          destruct (Rle_lt_dec (- (PI / 2)) a) as [H'|H'].
          - pose proof (cos_ge_0 a H' H). lra.
          - pose proof (sin_lt_0_var a Hlo). lra. }
        assert (Et : (sin a / cos a)%R = tan (a - PI)).
        { unfold tan. rewrite sin_minus, cos_minus, sin_PI, cos_PI.
          field. lra. }
        rewrite Et, atan_tan by lra. ring.
      * (* a in (-PI, -PI/2) *)
        assert (Ha : (a < - (PI / 2))%R).
        { destruct (Rlt_le_dec a (- (PI / 2))) as [H|H]; [exact H|].
          exfalso.
          destruct (Rle_lt_dec a (PI / 2)) as [H'|H'].
          - pose proof (cos_ge_0 a H H'). lra.
          - pose proof (sin_ge_0 a). lra. }
        assert (Et : (sin a / cos a)%R = tan (a + PI)).
        { unfold tan. rewrite neg_sin, neg_cos. field. lra. }
        rewrite Et, atan_tan by lra. ring.
    + assert (Hc0 : cos a = 0%R) by lra.
      destruct (Rlt_dec 0 (sin a)) as [Hs|Hs].
      * destruct (Rle_lt_dec 0 a) as [H0|H0].
        -- destruct (cos_eq_0_2PI_0 a) as [E|E]; lra.
        -- pose proof (sin_lt_0_var a Hlo H0). lra.
      * destruct (Rlt_dec (sin a) 0) as [Hs'|Hs'].
        -- destruct (Rle_lt_dec 0 a) as [H0|H0].
           ++ pose proof (sin_ge_0 a H0 Hhi). lra.
           ++ destruct (cos_eq_0_2PI_0 (a + 2 * PI)) as [E|E]; try lra.
              replace (a + 2 * PI)%R with (a + 2 * INR 1 * PI)%R by (cbn; ring).
              rewrite cos_period. exact Hc0.
        -- exfalso. pose proof (sin2_cos2 a) as H1. unfold Rsqr in H1.
           assert (sin a = 0%R) by lra. nra.
Qed.

(** ** The turtle *)

Lemma in_degrees_eq (y x : R) :
  in_degrees y x = fmod (round_ndigits (degrees (atan2 y x)) 10) 360.
Proof.
  unfold in_degrees. cbv zeta.
  set (r := fmod (round_ndigits (degrees (atan2 y x)) 10) 360).
  assert (Hr : (0 <= r < 360)%R) by (apply fmod_bounds; lra).
  replace (0 + 1 * (r / 1))%R with r by field.
  apply fmod_small. exact Hr.
Qed.

Lemma in_degrees_spec (y x : R) :
  (0 <= in_degrees y x < 360)%R /\ exact10 (in_degrees y x).
Proof.
  rewrite in_degrees_eq. split.
  - apply fmod_bounds. lra.
  - apply exact10_fmod, exact10_round.
Qed.

Lemma radians_degrees (a : R) : radians (degrees a) = a.
Proof. unfold radians, degrees. field. pose proof PI_RGT_0. lra. Qed.

Lemma degrees_radians (a : R) : degrees (radians a) = a.
Proof. unfold radians, degrees. field. pose proof PI_RGT_0. lra. Qed.

Lemma radians_fmod (r : R) :
  cos (radians (fmod r 360)) = cos (radians r) /\
  sin (radians (fmod r 360)) = sin (radians r).
Proof.
  unfold fmod.
  replace (radians (r - 360 * IZR (Zfloor (r / 360))))
    with (radians r + 2 * IZR (- Zfloor (r / 360)) * PI)%R
    by (unfold radians; rewrite opp_IZR; field).
  split; [apply cos_period_Z|apply sin_period_Z].
Qed.

Lemma exact10_shift (h : R) (k : Z) : exact10 h -> exact10 (h + IZR k).
Proof.
  intros [n ->]. exists (n + k * 10 ^ 10).
  rewrite plus_IZR, mult_IZR.
  change (10 ^ 10)%Z with (10 ^ Z.of_nat 10)%Z. rewrite <- pow_IZR.
  pose proof (pow10_pos 10). field; lra.
Qed.

Lemma round_exact10 (h : R) : exact10 h -> round_ndigits h 10 = h.
Proof. intros [n ->]. apply round_ndigits_exact. Qed.

(** The heading read back from an orientation at a ten-decimal angle is
    that angle. *)
Lemma heading_exact (t : RawTurtle) (h : R) :
  (0 <= h < 360)%R -> exact10 h ->
  orient_x t = cos (radians h) -> orient_y t = sin (radians h) ->
  heading t = h.
Proof.
  intros Hh Hex Hx Hy. unfold heading. rewrite in_degrees_eq, Hx, Hy.
  pose proof PI_RGT_0 as Hpi.
  destruct (Rle_lt_dec h 180) as [Hle|Hgt].
  - rewrite atan2_sin_cos.
    + rewrite degrees_radians, round_exact10 by exact Hex.
      apply fmod_small. exact Hh.
    + unfold radians. split; [|].
      * assert (0 <= h * PI / 180)%R; [|lra].
        unfold Rdiv. apply Rmult_le_pos; [|lra]. apply Rmult_le_pos; lra.
      * assert (h * PI <= 180 * PI)%R by nra. lra.
  - assert (Ec : cos (radians h) = cos (radians (h - 360))).
    { replace (radians h) with (radians (h - 360) + 2 * INR 1 * PI)%R
        by (unfold radians; cbn; field).
      apply cos_period. }
    assert (Es : sin (radians h) = sin (radians (h - 360))).
    { replace (radians h) with (radians (h - 360) + 2 * INR 1 * PI)%R
        by (unfold radians; cbn; field).
      apply sin_period. }
    rewrite Ec, Es, atan2_sin_cos.
    + rewrite degrees_radians.
      replace (h - 360)%R with (h + IZR (-360))%R by lra.
      rewrite round_exact10 by (apply exact10_shift; exact Hex).
      unfold fmod. rewrite (Zfloor_eq (-1)); lra.
    + unfold radians. split.
      * assert (-180 * PI < (h - 360) * PI)%R by nra. lra.
      * assert ((h - 360) * PI <= 0)%R by nra. lra.
Qed.

Lemma setheading_exact (t : RawTurtle) (a : R) :
  turtle_wf t ->
  setheading a t = mkTurtle (xcor t) (ycor t) (cos (radians a)) (sin (radians a)).
Proof.
  intros (h & Hh & Hex & Hx & Hy).
  unfold setheading. cbv zeta.
  rewrite (heading_exact t h Hh Hex Hx Hy).
  unfold rotate. cbn [fst snd]. rewrite Hx, Hy.
  set (al := (fmod ((a - h) * 1 + 360 / 2) 360 - 360 / 2)%R).
  assert (Eal : exists k : Z, (radians h + radians al)%R
                              = (radians a + 2 * IZR k * PI)%R).
  { exists (- Zfloor (((a - h) * 1 + 360 / 2) / 360)).
    unfold al, fmod, radians. rewrite opp_IZR. field. }
  destruct Eal as (k & Eal).
  f_equal.
  - replace (cos (radians h) * cos (radians al)
             + - sin (radians h) * sin (radians al))%R
      with (cos (radians h + radians al)%R) by (rewrite cos_plus; ring).
    rewrite Eal. apply cos_period_Z.
  - replace (sin (radians h) * cos (radians al)
             + cos (radians h) * sin (radians al))%R
      with (sin (radians h + radians al)%R) by (rewrite sin_plus; ring).
    rewrite Eal. apply sin_period_Z.
Qed.

Lemma turtle_wf_setheading (x y : R) (t : RawTurtle) :
  turtle_wf t -> turtle_wf (setheading (towards x y t) t).
Proof.
  intros Hwf. rewrite setheading_exact by exact Hwf.
  destruct (in_degrees_spec (y - ycor t) (x - xcor t)) as [Hr Hex].
  exists (towards x y t). unfold towards. auto.
Qed.

(** [towards] is the direction of the target up to the rounding of the
    angle to ten decimals of a degree. *)
Lemma towards_direction (x y : R) (t : RawTurtle) :
  let dir := atan2 (y - ycor t) (x - xcor t) in
  let err := (round_ndigits (degrees dir) 10 - degrees dir)%R in
  (Rabs err <= 1 / (2 * 10 ^ 10))%R /\
  cos (radians (towards x y t)) = cos (dir + radians err) /\
  sin (radians (towards x y t)) = sin (dir + radians err).
Proof.
  cbv zeta. split; [apply round_ndigits_error|].
  unfold towards. rewrite in_degrees_eq.
  destruct (radians_fmod
              (round_ndigits (degrees (atan2 (y - ycor t) (x - xcor t))) 10))
    as [Hc Hs].
  rewrite Hc, Hs.
  replace (atan2 (y - ycor t) (x - xcor t)
           + radians (round_ndigits
                        (degrees (atan2 (y - ycor t) (x - xcor t))) 10
                      - degrees (atan2 (y - ycor t) (x - xcor t))))%R
    with (radians (round_ndigits
                     (degrees (atan2 (y - ycor t) (x - xcor t))) 10)).
  - auto.
  - rewrite <- (radians_degrees (atan2 (y - ycor t) (x - xcor t))) at 2.
    unfold radians. field.
Qed.

Lemma turtle_wf_east (x y : R) : turtle_wf (mkTurtle x y 1 0).
Proof.
  exists 0%R. split; [lra|]. split; [exists 0; lra|].
  cbn [orient_x orient_y].
  replace (radians 0) with 0%R by (unfold radians; lra).
  rewrite cos_0, sin_0. auto.
Qed.

Lemma atan2_east (x : R) : (0 < x)%R -> atan2 0 x = 0%R.
Proof.
  intros Hx. unfold atan2. destruct (Rlt_dec 0 x); [|lra].
  replace (0 / x)%R with 0%R by (field; lra). apply atan_0.
Qed.

Lemma atan2_west (x : R) : (x < 0)%R -> atan2 0 x = PI.
Proof.
  intros Hx. unfold atan2. destruct (Rlt_dec 0 x); [lra|].
  destruct (Rlt_dec x 0); [|lra]. destruct (Rle_dec 0 0); [|lra].
  replace (0 / x)%R with 0%R by (field; lra). rewrite atan_0. ring.
Qed.

Lemma atan2_origin : atan2 0 0 = 0%R.
Proof.
  unfold atan2. destruct (Rlt_dec 0 0); [lra|]. reflexivity.
Qed.

(** Along a horizontal line, and for a target on the turtle itself, the
    direction is 0 or 180 degrees: nothing is lost in the rounding. *)
Lemma horizontal_exact (x0 x : R) :
  exact10 (degrees (atan2 0 (x - x0))).
Proof.
  destruct (Rtotal_order 0 (x - x0)) as [H|[H|H]].
  - rewrite atan2_east by exact H. exists 0. unfold degrees. lra.
  - rewrite <- H, atan2_origin. exists 0. unfold degrees. lra.
  - rewrite atan2_west by lra. exists (180 * 10 ^ 10).
    rewrite mult_IZR. change (10 ^ 10)%Z with (10 ^ Z.of_nat 10)%Z.
    rewrite <- pow_IZR. unfold degrees. pose proof PI_RGT_0.
    pose proof (pow10_pos 10). field; lra.
Qed.

(** Turning towards a target and going forward by [d] moves the turtle by
    exactly [|d|] in the direction that [towards] returns. *)
Lemma forward_towards (x y d : R) (t : RawTurtle) :
  turtle_wf t ->
  let a := towards x y t in
  let t' := forward d (setheading a t) in
  t' = mkTurtle (xcor t + cos (radians a) * d) (ycor t + sin (radians a) * d)
                (cos (radians a)) (sin (radians a)) /\
  turtle_wf t' /\
  hypot (xcor t' - xcor t) (ycor t' - ycor t) = Rabs d.
Proof.
  intros Hwf. cbv zeta.
  rewrite setheading_exact by exact Hwf. unfold forward.
  cbn [xcor ycor orient_x orient_y].
  split; [reflexivity|]. split.
  - destruct (in_degrees_spec (y - ycor t) (x - xcor t)) as [Hr Hex].
    exists (towards x y t). unfold towards. cbn [orient_x orient_y]. auto.
  - set (a := radians (towards x y t)). unfold hypot.
    replace ((xcor t + cos a * d - xcor t) ^ 2
             + (ycor t + sin a * d - ycor t) ^ 2)%R
      with (d² * ((sin a)² + (cos a)²))%R by (unfold Rsqr; ring).
    rewrite sin2_cos2, Rmult_1_r. apply sqrt_Rsqr_abs.
Qed.

(** Where the rounding loses nothing, the move is straight at the target,
    unless the turtle sits on it. *)
Lemma forward_towards_exact (x y d : R) (t : RawTurtle) :
  turtle_wf t ->
  exact10 (degrees (atan2 (y - ycor t) (x - xcor t))) ->
  let t' := forward d (setheading (towards x y t) t) in
  ((0 < distance x y t)%R ->
     xcor t' = (xcor t + d * ((x - xcor t) / distance x y t))%R /\
     ycor t' = (ycor t + d * ((y - ycor t) / distance x y t))%R /\
     distance x y t' = Rabs (distance x y t - d)) /\
  (x = xcor t -> y = ycor t ->
     xcor t' = (xcor t + d)%R /\ ycor t' = ycor t).
Proof.
  intros Hwf Hex. cbv zeta.
  destruct (forward_towards x y d t Hwf) as (E & _ & _). cbv zeta in E.
  rewrite E. cbn [xcor ycor]. unfold distance. cbn [xcor ycor].
  destruct (towards_direction x y t) as (_ & Hc & Hs). cbv zeta in Hc, Hs.
  rewrite (round_exact10 _ Hex) in Hc, Hs.
  replace (degrees (atan2 (y - ycor t) (x - xcor t))
           - degrees (atan2 (y - ycor t) (x - xcor t)))%R with 0%R in Hc, Hs
    by ring.
  replace (radians 0) with 0%R in Hc, Hs by (unfold radians; lra).
  rewrite Rplus_0_r in Hc, Hs. rewrite Hc, Hs.
  destruct (step_at_target (xcor t) (ycor t) x y d) as (_ & Hdir & Hon).
  cbv zeta in Hdir, Hon. split; [exact Hdir|exact Hon].
Qed.

(** ** The update of the player *)

Lemma Player_update_eq (g : Game) :
  let g1 := if Home_contains (home g) (player_x (player g)) (player_y (player g))
            then won g else g in
  Player_update g =
  Ok (tt,
      if is_active (waypoint g)
      then
        let g2 := set_player (mkPlayer (player_speed (player g)) (advanced g)) g1 in
        if Rltb (distance (waypoint_x (waypoint g)) (waypoint_y (waypoint g))
                          (advanced g))
                (player_speed (player g))
        then set_waypoint (Waypoint_deactivate (waypoint g)) g2
        else g2
      else g1).
Proof.
  cbv zeta. unfold Player_update, advanced; unfold_M.
  destruct (Home_contains _ _ _); cbn;
    destruct (is_active (waypoint g)); cbn; try reflexivity;
    destruct (Rltb _ _); reflexivity.
Qed.






(** ** Spawning *)

Lemma Enemy_spawn_location_ok (g : Game) :
  0 <= screen_width g -> 0 <= screen_height g ->
  exists loc r, Enemy_spawn_location g = Ok (loc, set_random r g).
Proof.
  intros Hw Hh. unfold Enemy_spawn_location; unfold_M.
  assert (Hw4 : 0 <= 3 * (screen_width g / 4) <= screen_width g).
  { pose proof (Z.div_mod (screen_width g) 4).
    pose proof (Z.mod_pos_bound (screen_width g) 4). lia. }
  assert (Hh2 : 0 <= screen_height g / 2 <= screen_height g).
  { pose proof (Z.div_mod (screen_height g) 2).
    pose proof (Z.mod_pos_bound (screen_height g) 2). lia. }
  destruct (Rleb (player_x (player g)) _);
    destruct (Rleb (player_y (player g)) _);
    repeat match goal with
           | |- context [randint ?a ?b ?r] =>
               let E := fresh "E" in
               destruct (randint_ok a b r) as (? & E & _); [lia|];
               rewrite E; cbn [random set_random]
           end;
    do 2 eexists; reflexivity.
Qed.

Lemma spawn_enemy_done (c : SpawnCall) (g : Game) :
  spawn_quota c <= 0 -> EnemyGenerator_spawn_enemy c g = Ok (tt, g).
Proof.
  intros Hq. unfold EnemyGenerator_spawn_enemy.
  destruct (spawn_quota c >? 0) eqn:E; [lia|reflexivity].
Qed.

Lemma spawn_enemy_spec (c : SpawnCall) (g : Game) :
  0 <= screen_width g -> 0 <= screen_height g ->
  spawn_quota c > 0 ->
  exists e r,
    EnemyGenerator_spawn_enemy c g = Ok (tt, spawned c e r g) /\
    kind_of e = enemy_type c /\ size_of e = enemy_size c /\
    color_of e = enemy_col c /\ Enemy_wf e /\
    (forall f, e = Fencing f -> fencing_spawned (home g) f).
Proof.
  intros Hw Hh Hq. unfold EnemyGenerator_spawn_enemy.
  destruct (spawn_quota c >? 0) eqn:E; [clear E|lia].
  destruct (Enemy_spawn_location_ok g Hw Hh) as (loc & r & Eloc).
  unfold spawned, rearmed.
  destruct (enemy_type c) eqn:Ek; cbn [construct]; unfold_M;
    try (cbn [spawn_location]; rewrite Eloc;
         eexists; exists r; split; [reflexivity|];
         cbn; repeat split; auto; try reflexivity; intros; discriminate).
  unfold FencingEnemy_init; unfold_M.
  destruct (randint_ok 15 75 (random g)) as (rad & Er & Hrad); [lia|].
  rewrite Er. cbn [spawn_location FencingEnemy_spawn_location].
  unfold_M. eexists; eexists; split; [reflexivity|].
  cbn. repeat split; auto; try lia;
    match goal with H : Fencing _ = Fencing _ |- _ => injection H as <- end;
    cbn; first [reflexivity | lia].
Qed.

(** ** Loops that keep an invariant *)

Section ForEach.

Variable A : Type.
Variable P : Game -> Prop.
Variable R : Game -> Game -> Prop.
Hypothesis R_refl : forall g, R g g.
Hypothesis R_trans : forall g1 g2 g3, R g1 g2 -> R g2 g3 -> R g1 g3.

Lemma for_each_inv (l : list A) (body : A -> M unit) :
  (forall a g, In a l -> P g ->
     exists g', body a g = Ok (tt, g') /\ P g' /\ R g g') ->
  forall g, P g ->
    exists g', for_each l body g = Ok (tt, g') /\ P g' /\ R g g'.
Proof.
  induction l as [|a l IH]; intros Hbody g Hg; cbn; unfold_M.
  - exists g; auto.
  - destruct (Hbody a g (or_introl eq_refl) Hg) as (g1 & E1 & Hg1 & Hr1).
    rewrite E1.
    destruct (IH (fun b g0 Hb => Hbody b g0 (or_intror Hb)) g1 Hg1)
      as (g2 & E2 & Hg2 & Hr2).
    exists g2; eauto.
Qed.

End ForEach.

(** ** Counting enemies and pending spawns *)


Lemma EnemyKind_eqb_refl (a : EnemyKind) : EnemyKind_eqb a a = true.
Proof. destruct a; reflexivity. Qed.

Lemma count_kind_app (k : EnemyKind) (l l' : list Element) :
  count_kind k (l ++ l') = count_kind k l + count_kind k l'.
Proof.
  unfold count_kind. rewrite filter_app, length_app. lia.
Qed.

Lemma count_kind_nonneg (k : EnemyKind) (l : list Element) : 0 <= count_kind k l.
Proof. unfold count_kind. lia. Qed.

Lemma pending_app (k : EnemyKind) (l l' : list Timer) :
  pending k (l ++ l') = pending k l + pending k l'.
Proof. induction l as [|t l IH]; cbn; [reflexivity|]. rewrite IH. lia. Qed.

Lemma pending_nonneg (k : EnemyKind) (l : list Timer) : 0 <= pending k l.
Proof.
  induction l as [|t l IH]; cbn; [lia|].
  destruct (EnemyKind_eqb _ _); lia.
Qed.

Lemma load_app (l l' : list Timer) : load (l ++ l') = load l + load l'.
Proof. induction l as [|t l IH]; cbn; [reflexivity|]. rewrite IH. lia. Qed.

Lemma load_nonneg (l : list Timer) : 0 <= load l.
Proof. induction l as [|t l IH]; cbn; lia. Qed.

Lemma pop_earliest_spec (l : list Timer) :
  match pop_earliest l with
  | None => l = []
  | Some (t, rest) =>
      (forall k, pending k l = pending k [t] + pending k rest) /\
      load l = load [t] + load rest /\
      In t l
  end.
Proof.
  induction l as [|t l IH]; cbn; [reflexivity|].
  destruct (pop_earliest l) as [[t' rest]|].
  - destruct IH as (Hp & Hl & Hin).
    destruct (fire_at t <=? fire_at t').
    + repeat split; auto; cbn; intros; lia.
    + repeat split; auto.
      * intros k. specialize (Hp k). cbn in *. lia.
      * cbn in *. lia.
  - subst l. repeat split; auto; cbn; intros; lia.
Qed.

Lemma total_spawned (k : EnemyKind) (c : SpawnCall) (e : Enemy) (r : Random)
      (g : Game) :
  kind_of e = enemy_type c -> spawn_quota c > 0 ->
  total k (spawned c e r g)
  = total k g + (if EnemyKind_eqb (enemy_type c) k then spawn_quota c else 0).
Proof.
  intros Hk Hq. unfold total, spawned. cbn.
  rewrite count_kind_app, pending_app. cbn.
  unfold count_kind at 2. cbn. rewrite Hk.
  destruct (EnemyKind_eqb (enemy_type c) k); cbn; lia.
Qed.

Lemma Game_wf_spawned (c : SpawnCall) (e : Enemy) (r : Random) (g : Game) :
  Game_wf g -> Enemy_wf e -> Game_wf (spawned c e r g).
Proof.
  intros (Hw & Hh & Hall) He. unfold Game_wf, spawned. cbn.
  repeat split; auto.
  apply Forall_app; split; [exact Hall|]. constructor; [exact He|constructor].
Qed.

(** ** Events *)

Lemma same_setting_refl (g : Game) : same_setting g g.
Proof. unfold same_setting; auto. Qed.

Lemma same_setting_trans (g1 g2 g3 : Game) :
  same_setting g1 g2 -> same_setting g2 g3 -> same_setting g1 g3.
Proof. unfold same_setting; intuition congruence. Qed.

Lemma frozen_refl (g : Game) : stopped g = true -> frozen g g.
Proof. unfold frozen. auto. Qed.

Lemma frozen_trans (g1 g2 g3 : Game) :
  frozen g1 g2 -> frozen g2 g3 -> frozen g1 g3.
Proof.
  intros (? & ? & ? & ?) (? & ? & ? & ?). unfold frozen.
  repeat split; congruence.
Qed.

Lemma evolves_refl (g : Game) : evolves g g.
Proof.
  unfold evolves. split; [apply same_setting_refl|].
  split; [intros; lia|]. split; [intros; lia|].
  split; [apply frozen_refl|reflexivity].
Qed.

Lemma evolves_trans (g1 g2 g3 : Game) :
  evolves g1 g2 -> evolves g2 g3 -> evolves g1 g3.
Proof.
  intros (Hs1 & Ht1 & Hc1 & Hf1 & Hr1) (Hs2 & Ht2 & Hc2 & Hf2 & Hr2).
  unfold evolves.
  split; [eapply same_setting_trans; eassumption|].
  split; [|split; [|split]].
  - intros k. specialize (Ht1 k). specialize (Ht2 k). lia.
  - intros k. specialize (Hc1 k). specialize (Hc2 k). lia.
  - intros Hst. pose proof (Hf1 Hst) as H12.
    eapply frozen_trans; [exact H12|]. apply Hf2. apply H12.
  - intros Hst k.
    assert (Hst2 : stopped g2 = false).
    { destruct (stopped g2) eqn:E2; [|reflexivity].
      destruct (Hf2 eq_refl) as (H3 & _). congruence. }
    rewrite (Hr2 Hst k). apply (Hr1 Hst2 k).
Qed.

(** A timer that fires in a running game runs its spawn call; in a stopped
    game it is dropped. *)
Lemma Game_fire_timer_spec (g : Game) :
  Game_wf g ->
  exists g',
    Game_fire_timer g = Ok (tt, g') /\
    match pop_earliest (timers g) with
    | None => g' = g
    | Some (t, rest) =>
        if stopped g then g' = timer_taken t rest g
        else if spawn_quota (callback t) >? 0
        then exists e r,
            g' = spawned (callback t) e r (timer_taken t rest g) /\
            kind_of e = enemy_type (callback t) /\ Enemy_wf e
        else g' = timer_taken t rest g
    end.
Proof.
  intros (Hw & Hh & Hall). unfold Game_fire_timer; unfold_M.
  destruct (pop_earliest (timers g)) as [[t rest]|].
  - fold (timer_taken t rest g).
    destruct (stopped g); [eauto|].
    destruct (spawn_quota (callback t) >? 0) eqn:Eq.
    + destruct (spawn_enemy_spec (callback t) (timer_taken t rest g))
        as (e & r & E & Hk & _ & _ & Hwf & _); auto; [lia|].
      rewrite E. eauto 10.
    + rewrite spawn_enemy_done by lia. eauto.
  - eauto.
Qed.

Lemma Game_fire_timer_evolves (g : Game) :
  Game_wf g ->
  exists g',
    Game_fire_timer g = Ok (tt, g') /\ Game_wf g' /\ evolves g g' /\
    stopped g' = stopped g /\
    (timers g <> [] -> load (timers g') <= load (timers g) - 1) /\
    (timers g = [] -> g' = g).
Proof.
  intros Hwf.
  destruct (Game_fire_timer_spec g Hwf) as (g' & E & Hg').
  exists g'. split; [exact E|].
  pose proof (pop_earliest_spec (timers g)) as Hpop.
  destruct (pop_earliest (timers g)) as [[t rest]|].
  - destruct Hpop as (Hpend & Hload & Hin).
    assert (Hwf1 : Game_wf (timer_taken t rest g))
      by (destruct Hwf as (? & ? & ?); repeat split; assumption).
    assert (Hne : timers g <> []) by (intros Hnil; rewrite Hnil in Hin; inversion Hin).
    destruct (stopped g) eqn:Es.
    + subst g'. split; [exact Hwf1|]. split; [|split; [exact Es|split; [|tauto]]].
      * unfold evolves. split; [unfold same_setting; cbn; auto|].
        split; [|split; [intros k; cbn; lia|split]].
        -- intros k. unfold total, timer_taken. cbn. rewrite (Hpend k). cbn.
           destruct (EnemyKind_eqb _ _); lia.
        -- intros _. unfold frozen. cbn. auto.
        -- intros Hst. cbn in Hst. congruence.
      * intros _. cbn. rewrite Hload. cbn. lia.
    + destruct (spawn_quota (callback t) >? 0) eqn:Eq.
      * destruct Hg' as (e & r & -> & Hk & He).
        split; [apply Game_wf_spawned; assumption|].
        split; [|split; [exact Es|split; [|tauto]]].
        -- assert (Heq : forall k,
                     total k (spawned (callback t) e r (timer_taken t rest g))
                     = total k g).
           { intros k. rewrite total_spawned by (auto; lia).
             unfold total, timer_taken. cbn. rewrite (Hpend k). cbn.
             destruct (EnemyKind_eqb _ _); lia. }
           unfold evolves. split; [unfold same_setting; cbn; auto|].
           split; [intros k; rewrite Heq; lia|].
           split; [|split; [intros Hst; congruence|intros _; exact Heq]].
           intros k. unfold spawned. cbn. rewrite count_kind_app.
           pose proof (count_kind_nonneg k [AnEnemy e]). lia.
        -- intros _. unfold spawned. cbn. rewrite load_app, Hload. cbn. lia.
      * subst g'. split; [exact Hwf1|].
        split; [|split; [exact Es|split; [|tauto]]].
        -- assert (Heq : forall k, total k (timer_taken t rest g) = total k g).
           { intros k. unfold total, timer_taken. cbn. rewrite (Hpend k). cbn.
             destruct (EnemyKind_eqb _ _); lia. }
           unfold evolves. split; [unfold same_setting; cbn; auto|].
           split; [intros k; rewrite Heq; lia|].
           split; [intros k; cbn; lia|].
           split; [intros Hst; congruence|intros _; exact Heq].
        -- intros _. cbn. rewrite Hload. cbn. lia.
  - subst g'. split; [exact Hwf|]. split; [apply evolves_refl|].
    split; [reflexivity|]. split; [tauto|reflexivity].
Qed.

Lemma count_kind_list_set (k : EnemyKind) (l : list Element) (i : nat)
      (a b : Element) :
  nth_error l i = Some a -> is_kind k b = is_kind k a ->
  count_kind k (list_set l i b) = count_kind k l.
Proof.
  unfold count_kind. revert i; induction l as [|c l IH]; intros i Hn Hk.
  - destruct i; discriminate.
  - destruct i as [|i]; cbn in *.
    + injection Hn as ->. rewrite Hk. destruct (is_kind k a); reflexivity.
    + specialize (IH i Hn Hk).
      destruct (is_kind k c); cbn; lia.
Qed.

Lemma Forall_list_set {A : Type} (P : A -> Prop) (l : list A) (i : nat) (b : A) :
  Forall P l -> P b -> Forall P (list_set l i b).
Proof.
  intros Hl Hb. revert i; induction Hl as [|c l Hc Hl IH]; intros i; cbn.
  - constructor.
  - destruct i; constructor; auto.
Qed.

Lemma ticked_refl (g : Game) : ticked g g.
Proof. unfold ticked. auto using same_setting_refl. Qed.

Lemma ticked_trans (g1 g2 g3 : Game) :
  ticked g1 g2 -> ticked g2 g3 -> ticked g1 g3.
Proof.
  intros (Hs1 & Ht1 & Hn1 & Hc1 & Hst1) (Hs2 & Ht2 & Hn2 & Hc2 & Hst2).
  unfold ticked.
  split; [eapply same_setting_trans; eassumption|].
  split; [congruence|]. split; [congruence|].
  split; [|auto].
  intros k. rewrite Hc2. apply Hc1.
Qed.

Lemma ticked_evolves (g g' : Game) :
  ticked g g' -> (stopped g = true -> frozen g g') -> evolves g g'.
Proof.
  intros (Hs & Ht & Hn & Hc & Hst) Hf. unfold evolves, total.
  split; [exact Hs|]. split; [|split; [|split; [exact Hf|]]].
  - intros k. rewrite Ht, Hc. lia.
  - intros k. rewrite Hc. lia.
  - intros _ k. rewrite Ht, Hc. reflexivity.
Qed.

Lemma Player_update_ticked (g : Game) :
  Game_wf g ->
  exists g', Player_update g = Ok (tt, g') /\ Game_wf g' /\ ticked g g'.
Proof.
  intros Hwf. pose proof (Player_update_eq g) as E. cbv zeta in E.
  eexists; split; [exact E|].
  destruct (Home_contains _ _ _), (is_active (waypoint g));
    try destruct (Rltb _ _);
    (split; [exact Hwf|]);
    unfold ticked, same_setting; cbn; auto 10.
Qed.

Lemma Element_update_ticked (i : nat) (g : Game) :
  Game_wf g ->
  exists g', Element_update i g = Ok (tt, g') /\ Game_wf g' /\ ticked g g'.
Proof.
  intros Hwf. unfold Element_update. unfold bind at 1. unfold get.
  destruct (nth_error (elements g) i) as [[| | |e]|] eqn:En.
  - exists g. auto using ticked_refl.
  - exists g. auto using ticked_refl.
  - apply Player_update_ticked; exact Hwf.
  - destruct Hwf as (Hw & Hh & Hall).
    assert (He : Enemy_wf e).
    { rewrite Forall_forall in Hall.
      apply (Hall (AnEnemy e)). eapply nth_error_In; eassumption. }
    destruct (Enemy_update_total e g He)
      as (e' & r & hit & E & Hk & _ & _ & He').
    unfold_M. rewrite E.
    eexists; split; [reflexivity|].
    assert (Hel : elements (after_update g r hit) = elements g)
      by (unfold after_update; destruct hit; reflexivity).
    split.
    + unfold Game_wf, after_update. destruct hit; cbn;
        (repeat split; auto; apply Forall_list_set; auto).
    + unfold ticked, same_setting. cbn. rewrite Hel.
      unfold after_update. destruct hit; cbn;
        (repeat split; auto;
         intros k; apply (count_kind_list_set k _ _ (AnEnemy e)); auto;
         cbn; rewrite Hk; reflexivity).
  - exists g. auto using ticked_refl.
Qed.

Lemma Game_tick_spec (g : Game) :
  Game_wf g ->
  exists g', Game_tick g = Ok (tt, g') /\ Game_wf g' /\ ticked g g' /\
             (stopped g = true -> g' = g).
Proof.
  intros Hwf. unfold Game_tick. unfold bind, get.
  destruct (stopped g) eqn:Es.
  - exists g. auto using ticked_refl.
  - destruct (for_each_inv nat Game_wf ticked ticked_refl ticked_trans
                (seq 0 (List.length (elements g))) Element_update) with (g := g)
      as (g' & E & Hwf' & Ht); auto.
    + intros a g0 _ Hg0. apply Element_update_ticked; exact Hg0.
    + exists g'. split; [exact E|]. split; [exact Hwf'|]. split; [exact Ht|].
      intros; discriminate.
Qed.

Lemma step_spec (ev : Event) (g : Game) :
  Game_wf g ->
  exists g', step ev g = Ok (tt, g') /\ Game_wf g' /\ evolves g g'.
Proof.
  intros Hwf. destruct ev as [| |x y]; cbn [step].
  - destruct (Game_tick_spec g Hwf) as (g' & E & Hwf' & Ht & Hsame).
    exists g'. split; [exact E|]. split; [exact Hwf'|].
    apply ticked_evolves; [exact Ht|].
    intros Hst. rewrite (Hsame Hst). apply frozen_refl. exact Hst.
  - destruct (Game_fire_timer_evolves g Hwf) as (g' & E & Hwf' & He & _).
    exists g'. auto.
  - unfold on_click; unfold_M. eexists; split; [reflexivity|].
    split; [exact Hwf|]. apply ticked_evolves.
    + unfold ticked, same_setting. cbn. auto 10.
    + intros Hst. unfold frozen. cbn. auto.
Qed.

Lemma run_spec (evs : list Event) (g : Game) :
  Game_wf g ->
  exists g', run evs g = Ok (tt, g') /\ Game_wf g' /\ evolves g g'.
Proof.
  intros Hwf. unfold run.
  apply (for_each_inv Event Game_wf evolves evolves_refl evolves_trans);
    [|exact Hwf].
  intros ev g0 _ Hg0. apply step_spec; exact Hg0.
Qed.

Lemma load_nil (l : list Timer) : load l <= 0 -> l = [].
Proof.
  destruct l as [|t l]; [reflexivity|]. cbn.
  pose proof (load_nonneg l). lia.
Qed.

(** The pending callbacks run out: after [load] firings none is left, and
    all the enemies they stood for are registered. *)
Lemma drain_spec (fuel : nat) (g : Game) :
  Game_wf g -> load (timers g) <= Z.of_nat fuel ->
  exists g', drain fuel g = Ok (tt, g') /\ Game_wf g' /\ evolves g g' /\
             timers g' = [] /\ stopped g' = stopped g.
Proof.
  revert g; induction fuel as [|fuel IH]; intros g Hwf Hload; cbn [drain];
    unfold_M.
  - exists g. split; [reflexivity|]. split; [exact Hwf|].
    split; [apply evolves_refl|]. split; [|reflexivity].
    apply load_nil. lia.
  - destruct (timers g) as [|t l] eqn:Et.
    + exists g. split; [reflexivity|]. split; [exact Hwf|].
      split; [apply evolves_refl|]. split; [exact Et|reflexivity].
    + destruct (Game_fire_timer_evolves g Hwf)
        as (g1 & E1 & Hwf1 & He1 & Hs1 & Hl1 & _).
      rewrite E1.
      destruct (IH g1 Hwf1) as (g2 & E2 & Hwf2 & He2 & Ht2 & Hs2).
      { assert (Hne : timers g <> []) by (rewrite Et; discriminate).
        specialize (Hl1 Hne). rewrite Et in Hl1. lia. }
      exists g2. split; [exact E2|]. split; [exact Hwf2|].
      split; [eapply evolves_trans; eassumption|].
      split; [exact Ht2|congruence].
Qed.

Lemma evolves_drained (k : EnemyKind) (g g' : Game) :
  evolves g g' -> stopped g' = false -> timers g' = [] ->
  count_kind k (elements g') = total k g.
Proof.
  intros (_ & _ & _ & _ & Ht) Hst Hnil. rewrite <- (Ht Hst k).
  unfold total. rewrite Hnil. cbn. lia.
Qed.

(** ** The enemy generator *)

Lemma generated_refl (g : Game) : generated g g.
Proof. unfold generated. auto 10 using same_setting_refl. Qed.

Lemma generated_trans (g1 g2 g3 : Game) :
  generated g1 g2 -> generated g2 g3 -> generated g1 g3.
Proof.
  intros (Hs1 & ? & ? & ? & ? & ?) (Hs2 & ? & ? & ? & ? & ?).
  unfold generated.
  split; [eapply same_setting_trans; eassumption|].
  repeat split; congruence.
Qed.

Lemma generated_spawned (c : SpawnCall) (e : Enemy) (r : Random) (g : Game) :
  generated g (spawned c e r g).
Proof. unfold generated, same_setting, spawned. cbn. auto 10. Qed.

Lemma spawn_enemy_generated (c : SpawnCall) (g : Game) :
  Game_wf g ->
  exists g', EnemyGenerator_spawn_enemy c g = Ok (tt, g') /\ Game_wf g' /\
             generated g g'.
Proof.
  intros Hwf. destruct (Z_gt_le_dec (spawn_quota c) 0) as [Hq|Hq].
  - destruct Hwf as (Hw & Hh & Hall).
    destruct (spawn_enemy_spec c g Hw Hh Hq) as (e & r & E & _ & _ & _ & He & _).
    exists (spawned c e r g). split; [exact E|].
    split; [apply Game_wf_spawned; [repeat split; assumption|exact He]|].
    apply generated_spawned.
  - exists g. rewrite spawn_enemy_done by exact Hq.
    auto using generated_refl.
Qed.

Arguments EnemyGenerator_spawn_enemy : simpl never.

Lemma In_enemies_type (row : EnemyRow) :
  In row enemies_type ->
  row_type row = RandomWalkEnemyK \/ row_type row = ChasingEnemyK \/
  row_type row = FencingEnemyK \/ row_type row = ChargerEnemyK.
Proof.
  unfold enemies_type. cbn.
  intros [<-|[<-|[<-|[<-|[]]]]]; cbn; auto.
Qed.

Lemma create_enemy_ok (lvl : Z) (g : Game) :
  Game_wf g ->
  exists g', EnemyGenerator_create_enemy lvl g = Ok (tt, g') /\ Game_wf g' /\
             generated g g'.
Proof.
  intros Hwf. unfold EnemyGenerator_create_enemy.
  destruct (lvl <? Z.of_nat (List.length enemies_type)) eqn:El.
  - apply (for_each_inv nat Game_wf generated generated_refl generated_trans);
      [|exact Hwf].
    intros i g0 Hi Hg0. unfold range in Hi. apply in_seq in Hi.
    assert (Hi3 : (i < 3)%nat) by (cbn in El; lia).
    destruct i as [|[|[|i]]]; [| | |lia]; cbn; unfold_M;
      apply spawn_enemy_generated; exact Hg0.
  - apply (for_each_inv EnemyRow Game_wf generated generated_refl
             generated_trans); [|exact Hwf].
    intros row g0 Hrow Hg0. unfold_M.
    destruct (In_enemies_type row Hrow) as [Hk|[Hk|[Hk|Hk]]]; rewrite Hk;
      cbn [high_lvl];
      apply (for_each_inv nat Game_wf generated generated_refl
               generated_trans); auto;
      intros j g1 _ Hg1; apply spawn_enemy_generated; exact Hg1.
Qed.

Lemma base_game_wf (w h lvl : Z) (rnd : Random) :
  0 <= w -> 0 <= h -> Game_wf (base_game w h lvl rnd).
Proof.
  intros Hw Hh. unfold Game_wf. cbn. repeat split; auto.
  repeat constructor.
Qed.

(** The constructor: the three fixed elements are registered, the
    generator runs, the player is placed. *)
Lemma init_spec (w h lvl : Z) (rnd : Random) (g1 : Game) :
  w <> 1 -> h <> 1 ->
  EnemyGenerator_create_enemy lvl (base_game w h lvl rnd) = Ok (tt, g1) ->
  TurtleAdventureGame_init w h lvl rnd = Ok (player_placed g1).
Proof.
  intros Hw1 Hh1 E.
  unfold TurtleAdventureGame_init, TurtleAdventureGame_init_game,
    Game_add_element, EnemyGenerator_init, setworldcoordinates.
  unfold_M. cbn [screen_width screen_height new_game].
  destruct (w - 1 - 0 =? 0) eqn:Ew; [apply Z.eqb_eq in Ew; lia|].
  destruct (0 - (h - 1) =? 0) eqn:Eh; [apply Z.eqb_eq in Eh; lia|].
  cbn [elements set_elements app level new_game].
  change (set_elements [TheWaypoint; TheHome; ThePlayer]
            (set_elements [TheWaypoint; TheHome]
               (set_elements [TheWaypoint] (new_game w h lvl rnd))))
    with (base_game w h lvl rnd).
  rewrite E. reflexivity.
Qed.

(** On a screen one unit wide or high the constructor fails: the world
    coordinates that [init_game] sets have a span of zero. *)
Lemma init_raises (w h lvl : Z) (rnd : Random) :
  w = 1 \/ h = 1 ->
  TurtleAdventureGame_init w h lvl rnd = Raise ZeroDivisionError.
Proof.
  intros H1.
  unfold TurtleAdventureGame_init, TurtleAdventureGame_init_game,
    setworldcoordinates.
  unfold_M. cbn [screen_width screen_height new_game].
  destruct (w - 1 - 0 =? 0) eqn:Ew; [reflexivity|].
  destruct (0 - (h - 1) =? 0) eqn:Eh; [reflexivity|].
  apply Z.eqb_neq in Ew, Eh. lia.
Qed.

Lemma init_ok (w h lvl : Z) (rnd : Random) :
  0 <= w -> 0 <= h -> w <> 1 -> h <> 1 ->
  exists g1,
    EnemyGenerator_create_enemy lvl (base_game w h lvl rnd) = Ok (tt, g1) /\
    TurtleAdventureGame_init w h lvl rnd = Ok (player_placed g1) /\
    Game_wf (player_placed g1) /\
    generated (base_game w h lvl rnd) g1.
Proof.
  intros Hw Hh Hw1 Hh1.
  destruct (create_enemy_ok lvl (base_game w h lvl rnd))
    as (g1 & E & Hwf & Hgen); [apply base_game_wf; assumption|].
  exists g1. split; [exact E|]. split; [apply init_spec; assumption|].
  split; [|exact Hgen].
  destruct Hwf as (? & ? & ?). repeat split; assumption.
Qed.


(** ** The home *)

(** C9, as the code has it. Once the game is constructed (on a screen of
    non-negative size that is not one unit wide or high, for which the
    constructor raises), no sequence of frame ticks, timer firings and
    clicks, with all the updates, spawns and game-over calls they cause,
    changes the home: it stays the one built by the constructor, at
    [(screen_width - 100, screen_height // 2)] with size 20.  (The class
    itself offers a [size] setter, which nothing in the program calls.) *)
Theorem home_is_left_alone :
  forall (w h lvl : Z) (rnd : Random) (evs : list Event),
    0 <= w -> 0 <= h -> w <> 1 -> h <> 1 ->
    exists g g',
      TurtleAdventureGame_init w h lvl rnd = Ok g /\
      home g = Home_init (w - 100, h / 2) 20 /\
      run evs g = Ok (tt, g') /\
      home g' = home g.
Proof.
  intros w h lvl rnd evs Hw Hh Hw1 Hh1.
  destruct (init_ok w h lvl rnd Hw Hh Hw1 Hh1)
    as (g1 & _ & Einit & Hwf & Hgen).
  destruct (run_spec evs (player_placed g1) Hwf) as (g' & Erun & _ & Hev).
  exists (player_placed g1), g'.
  split; [exact Einit|]. split; [|split; [exact Erun|apply Hev]].
  destruct Hgen as ((Hhome & _) & _). cbn. rewrite Hhome. reflexivity.
Qed.

Lemma home_is_left_alone_witness :
  exists g g',
    TurtleAdventureGame_init 800 500 1 zero_draws = Ok g /\
    home g = Home_init (800 - 100, 500 / 2) 20 /\
    run [Tick; TimerFires; Click 10 10; Tick] g = Ok (tt, g') /\
    home g' = home g.
Proof.
  apply (home_is_left_alone 800 500 1 zero_draws
           [Tick; TimerFires; Click 10 10; Tick]); lia.
Defined.

(** C9, as stated, fails: [Home] has a public [size] setter, and setting
    the size of the home of the 800 x 500 game to 30 changes it from 20. *)
Lemma home_size_setter_changes_size :
  Home_size (home (demo_game 1)) = 20 /\
  Home_size (Home_set_size 30 (home (demo_game 1))) = 30 /\
  Home_set_size 30 (home (demo_game 1)) <> home (demo_game 1).
Proof.
  split; [reflexivity|]. split; [reflexivity|].
  cbn. intros H. discriminate H.
Qed.

(** ** Game over *)







(** ** Spawn chains *)


Lemma total_zero (k : EnemyKind) (g : Game) :
  total k g <= 0 -> count_kind k (elements g) = 0 /\ pending k (timers g) = 0.
Proof.
  unfold total. pose proof (count_kind_nonneg k (elements g)).
  pose proof (pending_nonneg k (timers g)). lia.
Qed.





(** ** Levels from the number of enemy classes up *)

Lemma timers_of_app (k : EnemyKind) (l l' : list Timer) :
  timers_of k (l ++ l') = timers_of k l ++ timers_of k l'.
Proof. apply filter_app. Qed.

Lemma pending_timers_of (k : EnemyKind) (l : list Timer) :
  pending k l = pending k (timers_of k l).
Proof.
  induction l as [|t l IH]; cbn; [reflexivity|].
  destruct (EnemyKind_eqb (enemy_type (callback t)) k) eqn:E; cbn.
  - rewrite E, IH. reflexivity.
  - exact IH.
Qed.

Lemma pending_repeat (k : EnemyKind) (t : Timer) (n : nat) :
  EnemyKind_eqb (enemy_type (callback t)) k = true ->
  pending k (repeat t n) = Z.of_nat n * Z.max 0 (spawn_quota (callback t)).
Proof.
  intros E. induction n as [|n IH]; [reflexivity|].
  cbn [repeat pending]. rewrite E, IH. lia.
Qed.

(** [n] spawn calls in a row, as the inner loop of [create_enemy] issues
    them: [n] enemies of the class are registered and [n] equal callbacks
    are armed. *)
Lemma spawn_batch (c : SpawnCall) (n s : nat) (g : Game) :
  Game_wf g -> spawn_quota c > 0 ->
  exists g',
    for_each (seq s n) (fun _ => EnemyGenerator_spawn_enemy c) g = Ok (tt, g') /\
    Game_wf g' /\ generated g g' /\
    forall k,
      timers_of k (timers g') =
        timers_of k (timers g) ++
        (if EnemyKind_eqb (enemy_type c) k
         then repeat (mkTimer (now g + delay c) (rearmed c)) n else []) /\
      count_kind k (elements g') =
        count_kind k (elements g) +
        (if EnemyKind_eqb (enemy_type c) k then Z.of_nat n else 0).
Proof.
  intros Hwf Hq. revert s g Hwf.
  induction n as [|n IH]; intros s g Hwf; cbn [seq for_each]; unfold_M.
  - exists g. split; [reflexivity|]. split; [exact Hwf|].
    split; [apply generated_refl|].
    intros k. destruct (EnemyKind_eqb _ _); cbn; rewrite app_nil_r; split;
      auto; lia.
  - pose proof Hwf as (Hw & Hh & Hall).
    destruct (spawn_enemy_spec c g Hw Hh Hq)
      as (e & r & E & Hk & _ & _ & He & _).
    rewrite E.
    destruct (IH (S s) (spawned c e r g) (Game_wf_spawned c e r g Hwf He))
      as (g' & E' & Hwf' & Hgen' & Hk').
    exists g'. split; [exact E'|]. split; [exact Hwf'|].
    split; [eapply generated_trans; [apply generated_spawned|exact Hgen']|].
    intros k. destruct (Hk' k) as [Ht Hc]. rewrite Ht, Hc.
    unfold spawned. cbn [timers set_timers elements set_elements now
                           set_random].
    rewrite timers_of_app, count_kind_app.
    unfold count_kind at 2. cbn. rewrite Hk.
    destruct (EnemyKind_eqb (enemy_type c) k) eqn:Ek; cbn.
    + rewrite <- app_assoc. cbn. split; [reflexivity|lia].
    + rewrite !app_nil_r. split; [reflexivity|lia].
Qed.

Lemma high_lvl_row (lvl : Z) (row : EnemyRow) :
  4 <= lvl -> In row enemies_type ->
  exists chains,
    high_lvl (lvl / 20) (row_type row) = Ok chains /\ 3 <= chains /\
    row_quota row > 0.
Proof.
  intros Hl Hin.
  assert (0 <= lvl / 20) by (apply Z.div_pos; lia).
  unfold enemies_type in Hin. cbn in Hin.
  destruct Hin as [<-|[<-|[<-|[<-|[]]]]]; cbn [high_lvl row_type row_quota];
    eexists; (split; [reflexivity|split; lia]).
Qed.

(** The body of the outer loop of [create_enemy] for one row. *)
Lemma create_enemy_row (lvl : Z) (row : EnemyRow) (g : Game) :
  4 <= lvl -> In row enemies_type -> Game_wf g ->
  exists g' chains,
    high_lvl (lvl / 20) (row_type row) = Ok chains /\
    (chains' <- lift (high_lvl (lvl / 20) (row_type row)) ;;
     for_each (range chains')
       (fun _ => EnemyGenerator_spawn_enemy (high_call lvl row))) g
    = Ok (tt, g') /\
    Game_wf g' /\ generated g g' /\
    forall k,
      timers_of k (timers g') =
        timers_of k (timers g) ++
        (if EnemyKind_eqb (row_type row) k
         then repeat (mkTimer (now g + row_delay row / (1 + lvl / 10))
                              (rearmed (high_call lvl row)))
                     (Z.to_nat chains)
         else []) /\
      count_kind k (elements g') =
        count_kind k (elements g) +
        (if EnemyKind_eqb (row_type row) k then chains else 0).
Proof.
  intros Hl Hin Hwf.
  destruct (high_lvl_row lvl row Hl Hin) as (chains & Eh & Hc & Hq).
  destruct (spawn_batch (high_call lvl row) (Z.to_nat chains) 0 g Hwf Hq)
    as (g' & E & Hwf' & Hgen & Hk).
  exists g', chains. split; [exact Eh|].
  unfold_M. rewrite Eh. unfold range. split; [exact E|].
  split; [exact Hwf'|]. split; [exact Hgen|].
  intros k. destruct (Hk k) as [Ht Hn]. rewrite Ht, Hn.
  cbn [high_call enemy_type delay].
  rewrite Z2Nat.id by lia. auto.
Qed.

Lemma create_enemy_high_eq (lvl : Z) (g : Game) :
  4 <= lvl ->
  EnemyGenerator_create_enemy lvl g = for_each enemies_type (row_body lvl) g.
Proof.
  intros Hl. unfold EnemyGenerator_create_enemy.
  destruct (lvl <? Z.of_nat (List.length enemies_type)) eqn:E;
    [cbn in E; lia|reflexivity].
Qed.

(** [create_enemy] at a level that is at least the number of rows: for
    every row of the table, as many enemies of its class and as many equal
    callbacks as [high_lvl] says. *)
Lemma create_enemy_high (lvl : Z) (g : Game) :
  4 <= lvl -> Game_wf g ->
  exists g',
    EnemyGenerator_create_enemy lvl g = Ok (tt, g') /\
    Game_wf g' /\ generated g g' /\
    forall row, In row enemies_type ->
      exists chains,
        high_lvl (lvl / 20) (row_type row) = Ok chains /\ 3 <= chains /\
        timers_of (row_type row) (timers g') =
          timers_of (row_type row) (timers g) ++
          repeat (mkTimer (now g + row_delay row / (1 + lvl / 10))
                          (rearmed (high_call lvl row)))
                 (Z.to_nat chains) /\
        count_kind (row_type row) (elements g') =
          count_kind (row_type row) (elements g) + chains.
Proof.
  intros Hl Hwf. rewrite create_enemy_high_eq by exact Hl.
  unfold enemies_type. cbn [for_each]. unfold bind at 1 2 3 4.
  set (r1 := mkEnemyRow RandomWalkEnemyK 20 "red" 10000 5).
  set (r2 := mkEnemyRow ChasingEnemyK 10 "yellow" 20000 2).
  set (r3 := mkEnemyRow FencingEnemyK 15 "orange" 15000 2).
  set (r4 := mkEnemyRow ChargerEnemyK 18 "navy" 25000 1).
  assert (H1 : In r1 enemies_type) by (cbn; auto).
  assert (H2 : In r2 enemies_type) by (cbn; auto).
  assert (H3 : In r3 enemies_type) by (cbn; auto).
  assert (H4 : In r4 enemies_type) by (cbn; auto 6).
  destruct (create_enemy_row lvl r1 g Hl H1 Hwf)
    as (g1 & c1 & Eh1 & E1 & Hwf1 & Hg1 & K1).
  fold (row_body lvl r1) in E1. rewrite E1.
  destruct (create_enemy_row lvl r2 g1 Hl H2 Hwf1)
    as (g2 & c2 & Eh2 & E2 & Hwf2 & Hg2 & K2).
  fold (row_body lvl r2) in E2. rewrite E2.
  destruct (create_enemy_row lvl r3 g2 Hl H3 Hwf2)
    as (g3 & c3 & Eh3 & E3 & Hwf3 & Hg3 & K3).
  fold (row_body lvl r3) in E3. rewrite E3.
  destruct (create_enemy_row lvl r4 g3 Hl H4 Hwf3)
    as (g4 & c4 & Eh4 & E4 & Hwf4 & Hg4 & K4).
  fold (row_body lvl r4) in E4. rewrite E4.
  exists g4. split; [reflexivity|]. split; [exact Hwf4|].
  split; [eauto using generated_trans|].
  assert (Hn1 : now g1 = now g) by apply Hg1.
  assert (Hn2 : now g2 = now g) by (destruct Hg2 as (_ & _ & -> & _); exact Hn1).
  assert (Hn3 : now g3 = now g) by (destruct Hg3 as (_ & _ & -> & _); exact Hn2).
  intros row Hin.
  destruct (high_lvl_row lvl row Hl Hin) as (chains & Eh & Hc & _).
  exists chains. split; [exact Eh|]. split; [exact Hc|].
  unfold enemies_type in Hin. cbn in Hin.
  fold r1 r2 r3 r4 in Hin.
  destruct Hin as [<-|[<-|[<-|[<-|[]]]]];
    [ specialize (K1 (row_type r1)); specialize (K2 (row_type r1));
      specialize (K3 (row_type r1)); specialize (K4 (row_type r1))
    | specialize (K1 (row_type r2)); specialize (K2 (row_type r2));
      specialize (K3 (row_type r2)); specialize (K4 (row_type r2))
    | specialize (K1 (row_type r3)); specialize (K2 (row_type r3));
      specialize (K3 (row_type r3)); specialize (K4 (row_type r3))
    | specialize (K1 (row_type r4)); specialize (K2 (row_type r4));
      specialize (K3 (row_type r4)); specialize (K4 (row_type r4)) ];
    cbn [row_type r1 r2 r3 r4 EnemyKind_eqb] in *;
    destruct K1 as [T1 C1], K2 as [T2 C2], K3 as [T3 C3], K4 as [T4 C4];
    rewrite T4, T3, T2, T1, C4, C3, C2, C1, ?app_nil_r, ?Hn1, ?Hn2, ?Hn3;
    first [ replace chains with c1 by congruence
          | replace chains with c2 by congruence
          | replace chains with c3 by congruence
          | replace chains with c4 by congruence ];
    (split; [reflexivity|lia]).
Qed.

(** The game constructed at a level that is at least the number of rows,
    row by row. *)
Lemma init_high_level (lvl w h : Z) (rnd : Random) (row : EnemyRow) :
  4 <= lvl -> 0 <= w -> 0 <= h -> w <> 1 -> h <> 1 -> In row enemies_type ->
  exists g chains,
    TurtleAdventureGame_init w h lvl rnd = Ok g /\ Game_wf g /\
    stopped g = false /\
    high_lvl (lvl / 20) (row_type row) = Ok chains /\
    timers_of (row_type row) (timers g) =
      repeat (mkTimer (row_delay row / (1 + lvl / 10))
                      (rearmed (high_call lvl row)))
             (Z.to_nat chains) /\
    count_kind (row_type row) (elements g) = chains /\
    total (row_type row) g = chains * row_quota row.
Proof.
  intros Hl Hw Hh Hw1 Hh1 Hin.
  pose proof (base_game_wf w h lvl rnd Hw Hh) as Hwfb.
  destruct (create_enemy_high lvl _ Hl Hwfb) as (g1 & Ec & Hwf1 & Hgen & Hrows).
  destruct (Hrows row Hin) as (chains & Eh & Hc & Ht & Hn).
  destruct (high_lvl_row lvl row Hl Hin) as (chains' & Eh' & _ & Hq).
  pose proof (init_spec w h lvl rnd _ Hw1 Hh1 Ec) as Einit.
  assert (Hwf : Game_wf (player_placed g1))
    by (destruct Hwf1 as (? & ? & ?); repeat split; assumption).
  exists (player_placed g1), chains.
  split; [exact Einit|]. split; [exact Hwf|].
  split; [destruct Hgen as (_ & Hst & _); exact Hst|].
  split; [exact Eh|].
  cbn [base_game new_game set_elements timers elements now timers_of
       filter app] in Ht, Hn.
  change (count_kind (row_type row) [TheWaypoint; TheHome; ThePlayer])
    with 0 in Hn.
  split; [exact Ht|]. split; [cbn; rewrite Hn; lia|].
  unfold total. cbn [player_placed elements timers set_player].
  rewrite Hn, pending_timers_of, Ht, pending_repeat
    by (cbn; apply EnemyKind_eqb_refl).
  cbn [callback rearmed high_call spawn_quota].
  rewrite Z2Nat.id, Z.max_r by lia. ring.
Qed.

(** C2, as the code has it. At every level that is at least the number of
    enemy classes (4), on a screen of non-negative size that is not one unit
    wide or high, every class of the table is introduced: for a row with
    class [k], delay [d] and quota [q] the constructor issues
    [chains = base + level // 20] spawn calls (base 3, 4, 3, 3 for the four
    classes), each with quota [q] and with delay [d // (1 + level // 10)]
    (floor division); so [chains] enemies of the class are registered at
    once and [chains] callbacks with that delay are armed, in a running
    game.  Whatever happens next, never more than [chains * q] enemies of
    the class are registered; and if the game has not been stopped, then
    once the timers have run out exactly [chains * q] enemies of the class
    are registered. *)
Theorem high_level_spawns_chains_times_quota :
  forall (lvl w h : Z) (rnd : Random) (row : EnemyRow),
    4 <= lvl -> 0 <= w -> 0 <= h -> w <> 1 -> h <> 1 ->
    In row enemies_type ->
    exists g chains,
      TurtleAdventureGame_init w h lvl rnd = Ok g /\
      stopped g = false /\
      high_lvl (lvl / 20) (row_type row) = Ok chains /\
      timers_of (row_type row) (timers g) =
        repeat (mkTimer (row_delay row / (1 + lvl / 10))
                        (rearmed (high_call lvl row)))
               (Z.to_nat chains) /\
      count_kind (row_type row) (elements g) = chains /\
      forall evs, exists g' g'',
        run evs g = Ok (tt, g') /\
        drain (Z.to_nat (load (timers g'))) g' = Ok (tt, g'') /\
        timers g'' = [] /\
        count_kind (row_type row) (elements g'') <= chains * row_quota row /\
        (stopped g' = false ->
           count_kind (row_type row) (elements g'') = chains * row_quota row).
Proof.
  intros lvl w h rnd row Hl Hw Hh Hw1 Hh1 Hin.
  destruct (init_high_level lvl w h rnd row Hl Hw Hh Hw1 Hh1 Hin)
    as (g & chains & Einit & Hwf & Hrun & Eh & Ht & Hn & Htot).
  exists g, chains.
  split; [exact Einit|]. split; [exact Hrun|]. split; [exact Eh|].
  split; [exact Ht|]. split; [exact Hn|].
  intros evs.
  destruct (run_spec evs g Hwf) as (g' & Erun & Hwf' & Hev).
  destruct (drain_spec (Z.to_nat (load (timers g'))) g' Hwf')
    as (g'' & Ed & _ & Hev' & Ht'' & Hs'').
  { pose proof (load_nonneg (timers g')). lia. }
  pose proof (evolves_trans _ _ _ Hev Hev') as Hev''.
  exists g', g''. split; [exact Erun|]. split; [exact Ed|].
  split; [exact Ht''|]. split.
  - destruct Hev'' as (_ & Hle & _). specialize (Hle (row_type row)).
    unfold total at 1 in Hle. rewrite Ht'' in Hle. cbn in Hle. lia.
  - intros Hrun'.
    assert (Hrun'' : stopped g'' = false) by (rewrite Hs''; exact Hrun').
    rewrite (evolves_drained _ _ _ Hev'' Hrun'' Ht''). exact Htot.
Qed.

Lemma high_level_spawns_chains_times_quota_witness :
  exists g,
    TurtleAdventureGame_init 800 500 25 zero_draws = Ok g /\
    timers_of ChargerEnemyK (timers g) =
      repeat (mkTimer 8333 (mkSpawnCall ChargerEnemyK 18 "navy" 8333 0)) 4 /\
    count_kind ChargerEnemyK (elements g) = 4 /\
    exists g'',
      drain (Z.to_nat (load (timers g))) g = Ok (tt, g'') /\
      timers g'' = [] /\
      count_kind ChargerEnemyK (elements g'') = 4.
Proof.
  destruct (high_level_spawns_chains_times_quota 25 800 500 zero_draws
              (mkEnemyRow ChargerEnemyK 18 "navy" 25000 1))
    as (g & chains & Einit & Hs & Eh & Ht & Hn & Hrun).
  - lia.
  - lia.
  - lia.
  - lia.
  - lia.
  - cbn. auto 6.
  - injection Eh as <-.
    destruct (Hrun []) as (g' & g'' & Erun & Ed & Ht'' & _ & Hc'').
    injection Erun as <-.
    exists g. split; [exact Einit|]. split; [exact Ht|]. split; [exact Hn|].
    exists g''. split; [exact Ed|]. split; [exact Ht''|exact (Hc'' Hs)].
Defined.

(** C2, as stated, fails. At level 25 on an 800 x 500 screen the table's
    quota for random-walk enemies is 5 and [25 // 20 = 1], yet once the
    timers of the running game have run out 20 random-walk enemies are
    registered, not 6 (and not 4): four chains of quota 5. *)
Lemma level25_random_walk_total :
  exists g g'',
    TurtleAdventureGame_init 800 500 25 zero_draws = Ok g /\
    drain (Z.to_nat (load (timers g))) g = Ok (tt, g'') /\
    timers g'' = [] /\
    count_kind RandomWalkEnemyK (elements g'') = 20 /\
    5 + 25 / 20 = 6 /\ 3 + 25 / 20 = 4.
Proof.
  destruct (init_high_level 25 800 500 zero_draws
              (mkEnemyRow RandomWalkEnemyK 20 "red" 10000 5))
    as (g & chains & Einit & Hwf & Hrun & Eh & _ & _ & Htot);
    try lia; [cbn; auto|].
  injection Eh as <-.
  destruct (drain_spec (Z.to_nat (load (timers g))) g Hwf)
    as (g'' & Ed & _ & Hev & Ht'' & Hs'').
  { pose proof (load_nonneg (timers g)). lia. }
  assert (Hrun'' : stopped g'' = false) by (rewrite Hs''; exact Hrun).
  exists g, g''. split; [exact Einit|]. split; [exact Ed|].
  split; [exact Ht''|]. split; [|split; reflexivity].
  rewrite (evolves_drained _ _ _ Hev Hrun'' Ht''). exact Htot.
Qed.

(** * Further properties of the module *)

(** ** The home as a region *)

Lemma Home_contains_spec (h : Home) (x y : R) :
  Home_contains h x y = true <->
  (IZR (home_x h) - IZR (home_size h) / 2 <= x
     <= IZR (home_x h) + IZR (home_size h) / 2)%R /\
  (IZR (home_y h) - IZR (home_size h) / 2 <= y
     <= IZR (home_y h) + IZR (home_size h) / 2)%R.
Proof.
  unfold Home_contains, Home_size.
  rewrite !andb_true_iff, !Rleb_true. tauto.
Qed.

(** X1. [Home.contains] is inclusive on its boundary: a home of
    non-negative size contains its centre and its four corners.  A home whose
    size is negative contains no point at all. *)
Theorem Home_contains_corners_and_empty :
  forall (h : Home) (x y : R),
    (0 <= home_size h ->
       let half := (IZR (home_size h) / 2)%R in
       let cx := IZR (home_x h) in
       let cy := IZR (home_y h) in
       Home_contains h cx cy = true /\
       Home_contains h (cx - half) (cy - half) = true /\
       Home_contains h (cx - half) (cy + half) = true /\
       Home_contains h (cx + half) (cy - half) = true /\
       Home_contains h (cx + half) (cy + half) = true) /\
    (home_size h < 0 -> Home_contains h x y = false).
Proof.
  intros h x y. split.
  - intros Hs. apply IZR_le in Hs. cbv zeta.
    repeat split; apply Home_contains_spec; lra.
  - intros Hs. apply IZR_lt in Hs.
    destruct (Home_contains h x y) eqn:E; [|reflexivity].
    apply Home_contains_spec in E. lra.
Qed.

Lemma Home_contains_corners_and_empty_witness :
  Home_contains (mkHome 700 250 20) 690 240 = true /\
  Home_contains (mkHome 700 250 (-20)) 700 250 = false.
Proof.
  split.
  - destruct (Home_contains_corners_and_empty (mkHome 700 250 20) 0 0)
      as [Hin _].
    assert (H0 : 0 <= home_size (mkHome 700 250 20)) by (cbn; lia).
    destruct (Hin H0) as (_ & Hc & _). cbn in Hc.
    replace 690%R with (700 - 20 / 2)%R by lra.
    replace 240%R with (250 - 20 / 2)%R by lra. exact Hc.
  - apply (Home_contains_corners_and_empty (mkHome 700 250 (-20)) 700 250).
    cbn; lia.
Defined.

(** X2. Enlarging a home through the [size] setter never loses a point:
    what the home contained before, it contains afterwards; and the setter
    leaves the position of the home alone. *)
Theorem Home_set_size_grows :
  forall (h : Home) (val : Z) (x y : R),
    home_size h <= val ->
    Home_contains h x y = true ->
    Home_contains (Home_set_size val h) x y = true /\
    home_x (Home_set_size val h) = home_x h /\
    home_y (Home_set_size val h) = home_y h /\
    Home_size (Home_set_size val h) = val.
Proof.
  intros h val x y Hle Hc. apply IZR_le in Hle.
  apply Home_contains_spec in Hc.
  split; [|repeat split].
  apply Home_contains_spec. cbn. lra.
Qed.

Lemma Home_set_size_grows_witness :
  Home_contains (Home_set_size 30 (mkHome 700 250 20)) 700 250 = true.
Proof.
  apply (Home_set_size_grows (mkHome 700 250 20) 30 700 250).
  - cbn; lia.
  - apply Home_contains_spec. cbn. lra.
Defined.

(** ** Where enemies are spawned *)

Lemma randint_raises (a b : Z) (r : Random) :
  b < a -> randint a b r = Raise ValueError.
Proof.
  intros H. unfold randint. destruct (a <=? b) eqn:E; [lia|reflexivity].
Qed.

Lemma Enemy_spawn_location_bounds (g : Game) :
  0 <= screen_width g -> 0 <= screen_height g ->
  exists x y r,
    Enemy_spawn_location g = Ok ((x, y), set_random r g) /\
    (if Rleb (player_x (player g)) (IZR (screen_width g) / 2)
     then 3 * (screen_width g / 4) <= x <= screen_width g
     else 0 <= x <= 3 * (screen_width g / 4)) /\
    (if Rleb (player_y (player g)) (IZR (screen_height g) / 2)
     then screen_height g / 2 <= y <= screen_height g
     else 0 <= y <= screen_height g / 2).
Proof.
  intros Hw Hh. unfold Enemy_spawn_location; unfold_M.
  assert (Hw4 : 0 <= 3 * (screen_width g / 4) <= screen_width g).
  { pose proof (Z.div_mod (screen_width g) 4).
    pose proof (Z.mod_pos_bound (screen_width g) 4). lia. }
  assert (Hh2 : 0 <= screen_height g / 2 <= screen_height g).
  { pose proof (Z.div_mod (screen_height g) 2).
    pose proof (Z.mod_pos_bound (screen_height g) 2). lia. }
  destruct (Rleb (player_x (player g)) _);
    destruct (Rleb (player_y (player g)) _);
    repeat match goal with
           | |- context [randint ?a ?b ?r] =>
               let E := fresh "E" in
               let B := fresh "B" in
               destruct (randint_ok a b r) as (? & E & B); [lia|];
               rewrite E; cbn [random set_random]
           end;
    do 3 eexists; (split; [reflexivity|]); split; assumption.
Qed.

(** X3. [Enemy.spawn_location] on a screen of non-negative size returns a
    point of the screen, on the far side from the player: when the player's x
    is at most half the width the point's x is in
    [3 * (width // 4) .. width], otherwise in [0 .. 3 * (width // 4)]; when
    the player's y is at most half the height the point's y is in
    [height // 2 .. height], otherwise in [0 .. height // 2]. *)
Theorem spawn_location_on_far_side :
  forall g : Game,
    0 <= screen_width g -> 0 <= screen_height g ->
    exists x y r,
      Enemy_spawn_location g = Ok ((x, y), set_random r g) /\
      0 <= x <= screen_width g /\ 0 <= y <= screen_height g /\
      ((player_x (player g) <= IZR (screen_width g) / 2)%R ->
         3 * (screen_width g / 4) <= x) /\
      ((IZR (screen_width g) / 2 < player_x (player g))%R ->
         x <= 3 * (screen_width g / 4)) /\
      ((player_y (player g) <= IZR (screen_height g) / 2)%R ->
         screen_height g / 2 <= y) /\
      ((IZR (screen_height g) / 2 < player_y (player g))%R ->
         y <= screen_height g / 2).
Proof.
  intros g Hw Hh.
  destruct (Enemy_spawn_location_bounds g Hw Hh) as (x & y & r & E & Bx & By).
  exists x, y, r. split; [exact E|].
  assert (Hw4 : 0 <= 3 * (screen_width g / 4) <= screen_width g).
  { pose proof (Z.div_mod (screen_width g) 4).
    pose proof (Z.mod_pos_bound (screen_width g) 4). lia. }
  assert (Hh2 : 0 <= screen_height g / 2 <= screen_height g).
  { pose proof (Z.div_mod (screen_height g) 2).
    pose proof (Z.mod_pos_bound (screen_height g) 2). lia. }
  destruct (Rleb (player_x (player g)) _) eqn:Ex;
    destruct (Rleb (player_y (player g)) _) eqn:Ey;
    try apply Rleb_true in Ex; try apply Rleb_false in Ex;
    try apply Rleb_true in Ey; try apply Rleb_false in Ey;
    repeat split; intros; try lia; exfalso; lra.
Qed.

Lemma spawn_location_on_far_side_witness :
  exists x y r,
    Enemy_spawn_location (demo_game 1) = Ok ((x, y), set_random r (demo_game 1)) /\
    600 <= x <= 800 /\ 250 <= y <= 500.
Proof.
  destruct (spawn_location_on_far_side (demo_game 1))
    as (x & y & r & E & Bx & By & Hx & _ & Hy & _).
  - cbn; lia.
  - cbn; lia.
  - exists x, y, r. split; [exact E|].
    assert (Hpx : (player_x (player (demo_game 1))
                   <= IZR (screen_width (demo_game 1)) / 2)%R) by (cbn; lra).
    assert (Hpy : (player_y (player (demo_game 1))
                   <= IZR (screen_height (demo_game 1)) / 2)%R) by (cbn; lra).
    specialize (Hx Hpx). specialize (Hy Hpy).
    change (screen_width (demo_game 1)) with 800 in *.
    change (screen_height (demo_game 1)) with 500 in *.
    change (3 * (800 / 4)) with 600 in Hx. change (500 / 2) with 250 in Hy.
    lia.
Defined.

(** X4. On a screen whose height is -2 or less [Enemy.spawn_location]
    raises ValueError, wherever the player is: one of its [randint] calls is
    given an empty range. *)
Theorem spawn_location_negative_height :
  forall g : Game,
    screen_height g <= -2 ->
    Enemy_spawn_location g = Raise ValueError.
Proof.
  intros g Hh. unfold Enemy_spawn_location; unfold_M.
  assert (Hh2 : screen_height g < screen_height g / 2 /\ screen_height g / 2 < 0).
  { pose proof (Z.div_mod (screen_height g) 2).
    pose proof (Z.mod_pos_bound (screen_height g) 2). lia. }
  assert (Hx : forall a b r,
             (exists v r', randint a b r = Ok (v, r')) \/
             randint a b r = Raise ValueError).
  { intros a b r. unfold randint. destruct (a <=? b); [|auto].
    left. destruct (next_draw r). eauto. }
  destruct (Rleb (player_x (player g)) _);
    match goal with
    | |- context [randint ?a ?b ?r] =>
        destruct (Hx a b r) as [(v & r' & E)|E]; rewrite E
    end; try reflexivity;
    cbn [random set_random];
    destruct (Rleb (player_y (player g)) _);
    rewrite randint_raises by lia; reflexivity.
Qed.

Lemma spawn_location_negative_height_witness :
  Enemy_spawn_location (new_game 800 (-2) 1 zero_draws) = Raise ValueError.
Proof.
  apply (spawn_location_negative_height (new_game 800 (-2) 1 zero_draws)).
  cbn; lia.
Defined.

(** ** The chasing enemy *)

Lemma ChasingEnemy_update_eq (self : ChasingEnemy) (g : Game) :
  let deg := atan2 (player_y (player g) - ch_y self)
                   (player_x (player g) - ch_x self) in
  let self' := ch_move (ch_x self + cos deg * ch_speed self)
                       (ch_y self + sin deg * ch_speed self) self in
  ChasingEnemy_update self g
  = Ok (self', if hits_player self' g then lost g else g).
Proof.
  cbv zeta. unfold ChasingEnemy_update; unfold_M.
  rewrite lose_if_hit_eq. reflexivity.
Qed.

(** X5. One update moves a chasing enemy by exactly its speed and straight
    at the player: from a distance [d > 0] the distance to the player becomes
    [|d - speed|] (it overshoots when [d < speed]).  An enemy sitting exactly
    on the player steps to the right by its speed. *)
Theorem chasing_enemy_closes_in :
  forall (self : ChasingEnemy) (g : Game),
    let px := player_x (player g) in
    let py := player_y (player g) in
    let d := hypot (px - ch_x self) (py - ch_y self) in
    exists self' g',
      ChasingEnemy_update self g = Ok (self', g') /\
      ch_speed self' = ch_speed self /\
      hypot (ch_x self' - ch_x self) (ch_y self' - ch_y self)
      = Rabs (ch_speed self) /\
      ((0 < d)%R ->
         ch_x self' = (ch_x self + ch_speed self * ((px - ch_x self) / d))%R /\
         ch_y self' = (ch_y self + ch_speed self * ((py - ch_y self) / d))%R /\
         hypot (px - ch_x self') (py - ch_y self') = Rabs (d - ch_speed self)) /\
      (px = ch_x self -> py = ch_y self ->
         ch_x self' = (ch_x self + ch_speed self)%R /\ ch_y self' = ch_y self).
Proof.
  intros self g px py d.
  pose proof (ChasingEnemy_update_eq self g) as E. cbv zeta in E.
  eexists; eexists. split; [exact E|].
  cbn [ch_move ch_x ch_y ch_speed]. split; [reflexivity|].
  exact (step_at_target (ch_x self) (ch_y self) px py (ch_speed self)).
Qed.

Lemma chasing_enemy_closes_in_witness :
  exists self' g',
    ChasingEnemy_update (ch_move 3 4 (ChasingEnemy_init 10 "yellow"))
                        (demo_game 2) = Ok (self', g') /\
    hypot (0 - ch_x self') (0 - ch_y self') = Rabs (5 - 275 / 100).
Proof.
  destruct (chasing_enemy_closes_in
              (ch_move 3 4 (ChasingEnemy_init 10 "yellow")) (demo_game 2))
    as (self' & g' & E & _ & _ & Hd & _).
  exists self', g'. split; [exact E|].
  assert (H5 : hypot (0 - 3) (0 - 4) = 5%R).
  { unfold hypot. replace ((0 - 3) ^ 2 + (0 - 4) ^ 2)%R with (5 * 5)%R by ring.
    apply sqrt_square. lra. }
  cbn [demo_game new_game player Player_init RawTurtle_init player_x player_y
       player_turtle xcor ycor ch_move ch_x ch_y ch_speed ChasingEnemy_init]
    in Hd.
  rewrite H5 in Hd. apply Hd. lra.
Defined.

(** ** The random walk *)

Lemma RandomWalkEnemy_update_eq (self : RandomWalkEnemy) (g : Game) :
  exists acc_x acc_y r,
    (acc_x = (- rw_acc self)%R \/ acc_x = rw_acc self) /\
    (acc_y = (- rw_acc self)%R \/ acc_y = rw_acc self) /\
    let vx := (rw_speed_x self + acc_x)%R in
    let vy := (rw_speed_y self + acc_y)%R in
    let vx := if Rltb (rw_max_speed self) vx then rw_max_speed self else vx in
    let vy := if Rltb (rw_max_speed self) vy then rw_max_speed self else vy in
    let vx := if Rltb (rw_x self) 0 then Rabs vx
              else if Rltb (IZR (screen_height g)) (rw_x self)
                   then (- Rabs vx)%R else vx in
    let vy := if Rltb (rw_y self) 0 then Rabs vy
              else if Rltb (IZR (screen_height g)) (rw_y self)
                   then (- Rabs vy)%R else vy in
    let self' := rw_move (rw_x self + vx) (rw_y self + vy) vx vy self in
    RandomWalkEnemy_update self g
    = Ok (self', after_update g r (hits_player self' g)).
Proof.
  unfold RandomWalkEnemy_update; unfold_M.
  destruct (choice_pair (- rw_acc self)%R (rw_acc self) (random g))
    as (ax & Ex & Hax).
  rewrite Ex. cbn [random set_random].
  destruct (choice_pair (- rw_acc self)%R (rw_acc self)
                        (mkRandom (draws (random g)) (S (cursor (random g)))))
    as (ay & Ey & Hay).
  rewrite Ey. rewrite lose_if_hit_eq.
  exists ax, ay. eexists. split; [tauto|]. split; [tauto|].
  cbv zeta. reflexivity.
Qed.

(** X6. One update of a random-walk enemy advances each coordinate by the
    new speed on that axis.  On either axis, a coordinate below 0 gives a
    non-negative new speed and a coordinate that is not below 0 but above
    [screen_height] (the height, for x as well as for y) a non-positive one,
    so the enemy heads back; in between, the new speed is the old one plus or minus the
    acceleration, capped from above at [max_speed]. *)
Theorem random_walk_step :
  forall (self : RandomWalkEnemy) (g : Game),
    exists self' g',
      RandomWalkEnemy_update self g = Ok (self', g') /\
      rw_x self' = (rw_x self + rw_speed_x self')%R /\
      rw_y self' = (rw_y self + rw_speed_y self')%R /\
      rw_acc self' = rw_acc self /\ rw_max_speed self' = rw_max_speed self /\
      ((rw_x self < 0)%R -> (0 <= rw_speed_x self')%R) /\
      ((0 <= rw_x self)%R -> (IZR (screen_height g) < rw_x self)%R ->
         (rw_speed_x self' <= 0)%R) /\
      ((0 <= rw_x self <= IZR (screen_height g))%R ->
         (rw_speed_x self' <= rw_max_speed self)%R /\
         (rw_speed_x self' = (rw_speed_x self + rw_acc self)%R \/
          rw_speed_x self' = (rw_speed_x self - rw_acc self)%R \/
          rw_speed_x self' = rw_max_speed self)) /\
      ((rw_y self < 0)%R -> (0 <= rw_speed_y self')%R) /\
      ((0 <= rw_y self)%R -> (IZR (screen_height g) < rw_y self)%R ->
         (rw_speed_y self' <= 0)%R) /\
      ((0 <= rw_y self <= IZR (screen_height g))%R ->
         (rw_speed_y self' <= rw_max_speed self)%R /\
         (rw_speed_y self' = (rw_speed_y self + rw_acc self)%R \/
          rw_speed_y self' = (rw_speed_y self - rw_acc self)%R \/
          rw_speed_y self' = rw_max_speed self)).
Proof.
  intros self g.
  destruct (RandomWalkEnemy_update_eq self g) as (ax & ay & r & Hax & Hay & E).
  cbv zeta in E. eexists; eexists. split; [exact E|].
  cbn [rw_move rw_x rw_y rw_speed_x rw_speed_y rw_acc rw_max_speed].
  split; [reflexivity|]. split; [reflexivity|].
  split; [reflexivity|]. split; [reflexivity|].
  assert (Hax' : forall v, v = (rw_speed_x self + ax)%R ->
            v = (rw_speed_x self + rw_acc self)%R \/
            v = (rw_speed_x self - rw_acc self)%R)
    by (intros v ->; destruct Hax as [-> | ->]; [right|left]; ring).
  assert (Hay' : forall v, v = (rw_speed_y self + ay)%R ->
            v = (rw_speed_y self + rw_acc self)%R \/
            v = (rw_speed_y self - rw_acc self)%R)
    by (intros v ->; destruct Hay as [-> | ->]; [right|left]; ring).
  repeat split; intros;
    repeat match goal with
           | |- context [Rltb ?a ?b] =>
               let Hb := fresh "Hb" in
               destruct (Rltb a b) eqn:Hb;
               [apply Rltb_true in Hb | apply Rltb_false in Hb]
           end;
    try lra;
    try (pose proof (Rabs_pos (rw_max_speed self));
         pose proof (Rabs_pos (rw_speed_x self + ax));
         pose proof (Rabs_pos (rw_speed_y self + ay)); lra);
    try (right; right; reflexivity);
    try (specialize (Hax' _ eq_refl); tauto);
    try (specialize (Hay' _ eq_refl); tauto).
Qed.

Lemma random_walk_step_witness :
  exists self' g',
    RandomWalkEnemy_update (RandomWalkEnemy_init 20 "red") (demo_game 1)
    = Ok (self', g') /\
    (rw_speed_x self' <= 2)%R.
Proof.
  destruct (random_walk_step (RandomWalkEnemy_init 20 "red") (demo_game 1))
    as (self' & g' & E & _ & _ & _ & _ & _ & _ & Hin & _).
  exists self', g'. split; [exact E|].
  apply Hin. cbn. lra.
Defined.

(** ** The player's walk to the waypoint *)

(** One update with an active waypoint on the horizontal line of the
    player, at a distance [d > 0]: the direction is 0 or 180 degrees, which
    the rounding in [towards] leaves as it is. *)
Lemma Player_step (g : Game) :
  turtle_wf (player_turtle (player g)) ->
  is_active (waypoint g) = true ->
  waypoint_y (waypoint g) = player_y (player g) ->
  (0 < waypoint_distance g)%R ->
  exists g',
    Player_update g = Ok (tt, g') /\
    turtle_wf (player_turtle (player g')) /\
    player_speed (player g') = player_speed (player g) /\
    player_x (player g')
    = (player_x (player g)
       + player_speed (player g)
         * ((waypoint_x (waypoint g) - player_x (player g))
            / waypoint_distance g))%R /\
    player_y (player g') = player_y (player g) /\
    waypoint_x (waypoint g') = waypoint_x (waypoint g) /\
    waypoint_y (waypoint g') = waypoint_y (waypoint g) /\
    waypoint_distance g' = Rabs (waypoint_distance g - player_speed (player g)) /\
    is_active (waypoint g')
    = negb (Rltb (Rabs (waypoint_distance g - player_speed (player g)))
                 (player_speed (player g))).
Proof.
  intros Hwf Ha Hy Hd. pose proof (Player_update_eq g) as E. cbv zeta in E.
  rewrite Ha in E.
  assert (Hex : exact10
                  (degrees (atan2 (waypoint_y (waypoint g)
                                   - ycor (player_turtle (player g)))
                                  (waypoint_x (waypoint g)
                                   - xcor (player_turtle (player g)))))).
  { rewrite Hy. unfold player_y.
    replace (ycor (player_turtle (player g)) - ycor (player_turtle (player g)))%R
      with 0%R by ring.
    apply horizontal_exact. }
  pose proof (forward_towards (waypoint_x (waypoint g)) (waypoint_y (waypoint g))
                (player_speed (player g)) (player_turtle (player g)) Hwf)
    as Hft.
  pose proof (forward_towards_exact (waypoint_x (waypoint g))
                (waypoint_y (waypoint g)) (player_speed (player g))
                (player_turtle (player g)) Hwf Hex) as Hfe.
  cbv zeta in Hft, Hfe.
  change (forward (player_speed (player g))
            (setheading
               (towards (waypoint_x (waypoint g)) (waypoint_y (waypoint g))
                        (player_turtle (player g)))
               (player_turtle (player g)))) with (advanced g) in Hft, Hfe.
  destruct Hft as (_ & Hwf' & _). destruct Hfe as [Hdir _].
  fold (waypoint_distance g) in Hdir.
  destruct (Hdir Hd) as (Hx' & Hy' & Hnew). clear Hdir.
  assert (Hy'' : ycor (advanced g) = player_y (player g)).
  { rewrite Hy', Hy. unfold player_y. field. lra. }
  eexists. split; [exact E|]. unfold waypoint_distance at 1, player_x, player_y.
  destruct (Home_contains _ _ _);
    destruct (Rltb (distance _ _ (advanced g)) _) eqn:El;
    cbn [set_player set_waypoint player waypoint won player_turtle
         player_speed Waypoint_deactivate waypoint_x waypoint_y is_active
         set_canvas_texts set_stopped];
    rewrite <- Hnew, ?El; auto 10.
Qed.

(** While the waypoint is at least two steps away, an update brings the
    player one step nearer and leaves the waypoint active. *)
Lemma Player_walks_on (j : nat) (g : Game) :
  turtle_wf (player_turtle (player g)) ->
  is_active (waypoint g) = true ->
  waypoint_y (waypoint g) = player_y (player g) ->
  (0 < player_speed (player g))%R ->
  ((INR j + 1) * player_speed (player g) <= waypoint_distance g)%R ->
  exists g',
    Player_updates j g = Ok (tt, g') /\
    turtle_wf (player_turtle (player g')) /\
    is_active (waypoint g') = true /\
    player_speed (player g') = player_speed (player g) /\
    player_y (player g') = player_y (player g) /\
    waypoint_x (waypoint g') = waypoint_x (waypoint g) /\
    waypoint_y (waypoint g') = waypoint_y (waypoint g) /\
    waypoint_distance g'
    = (waypoint_distance g - INR j * player_speed (player g))%R.
Proof.
  revert g; induction j as [|j IH]; intros g Hwf Ha Hy Hs Hd.
  - exists g. cbn [Player_updates INR]. unfold_M.
    repeat split; auto. ring.
  - rewrite S_INR in Hd.
    assert (HjR : (0 <= INR j)%R) by apply pos_INR.
    assert (Hfar : (2 * player_speed (player g) <= waypoint_distance g)%R)
      by nra.
    destruct (Player_step g Hwf Ha Hy)
      as (g1 & E1 & Hwf1 & Hs1 & _ & Hpy1 & Hx1 & Hy1 & Hd1 & Ha1); [lra|].
    rewrite Rabs_right in Hd1, Ha1 by lra.
    assert (Ha1' : is_active (waypoint g1) = true).
    { rewrite Ha1. apply negb_true_iff, Rltb_false. lra. }
    destruct (IH g1 Hwf1 Ha1')
      as (g' & E' & Hwf' & Ha' & Hs' & Hpy' & Hx' & Hy' & Hd').
    + congruence.
    + rewrite Hs1. exact Hs.
    + rewrite Hs1, Hd1. lra.
    + exists g'. cbn [Player_updates]. unfold bind. rewrite E1.
      split; [exact E'|]. split; [exact Hwf'|]. split; [exact Ha'|].
      split; [congruence|]. split; [congruence|].
      split; [congruence|]. split; [congruence|].
      rewrite Hd', Hd1, Hs1, S_INR. ring.
Qed.

Lemma Player_updates_snoc (n : nat) (g0 g1 g2 : Game) :
  Player_updates n g0 = Ok (tt, g1) ->
  Player_update g1 = Ok (tt, g2) ->
  Player_updates (S n) g0 = Ok (tt, g2).
Proof.
  revert g0. induction n as [|n IH]; intros g0 E1 E2.
  - cbn in E1. unfold ret in E1. injection E1 as <-.
    cbn [Player_updates]. unfold bind. rewrite E2. reflexivity.
  - cbn [Player_updates] in E1 |- *. unfold bind in E1 |- *.
    destruct (Player_update g0) as [[[] g0']|]; [|discriminate].
    apply (IH g0' E1 E2).
Qed.

(** With an inactive waypoint, updates leave the player and the waypoint
    as they are. *)
Lemma Player_rests (m : nat) (g : Game) :
  is_active (waypoint g) = false ->
  exists g',
    Player_updates m g = Ok (tt, g') /\ player g' = player g /\
    waypoint g' = waypoint g.
Proof.
  revert g. induction m as [|m IH]; intros g Hoff.
  - exists g. auto.
  - pose proof (Player_update_eq g) as E. cbv zeta in E.
    rewrite Hoff in E. cbn [Player_updates]. unfold bind. rewrite E.
    destruct (Home_contains _ _ _).
    + destruct (IH (won g) Hoff) as (g' & E' & Hp & Hw). exists g'. auto.
    + destruct (IH g Hoff) as (g' & E' & Hp & Hw). exists g'. auto.
Qed.

(** X7. The player's walk along a horizontal line to an active waypoint
    (the waypoint has the player's y; the direction is then 0 or 180
    degrees, which the rounding of the heading leaves as it is).  With speed
    [s > 0] and the waypoint at a distance [d] with
    [k * s <= d < (k + 1) * s] for some [k >= 1], the first [k - 1] updates
    each bring the player [s] nearer, on the same line, and leave the
    waypoint active; the [k]-th deactivates it, with the player at distance
    [d - k * s < s] from it; from then on updates leave the player where it
    is.  (The turtle of the player is in the state in which the module keeps
    it: its orientation is a heading with at most ten decimals.) *)
Theorem player_walk_arrives :
  forall (k : nat) (g : Game),
    turtle_wf (player_turtle (player g)) ->
    is_active (waypoint g) = true ->
    waypoint_y (waypoint g) = player_y (player g) ->
    (0 < player_speed (player g))%R ->
    (1 <= k)%nat ->
    (INR k * player_speed (player g) <= waypoint_distance g
       < (INR k + 1) * player_speed (player g))%R ->
    (forall j, (j < k)%nat ->
       exists gj,
         Player_updates j g = Ok (tt, gj) /\
         is_active (waypoint gj) = true /\
         player_y (player gj) = player_y (player g) /\
         waypoint_distance gj
         = (waypoint_distance g - INR j * player_speed (player g))%R) /\
    exists g',
      Player_updates k g = Ok (tt, g') /\
      is_active (waypoint g') = false /\
      player_y (player g') = player_y (player g) /\
      waypoint_distance g'
      = (waypoint_distance g - INR k * player_speed (player g))%R /\
      forall m, exists g'',
        Player_updates m g' = Ok (tt, g'') /\ player g'' = player g' /\
        waypoint g'' = waypoint g'.
Proof.
  intros k g Hwf Ha Hy Hs Hk Hd. split.
  - intros j Hj.
    assert (HjR : (INR j + 1 <= INR k)%R).
    { rewrite <- S_INR. apply le_INR. lia. }
    destruct (Player_walks_on j g Hwf Ha Hy Hs)
      as (gj & E & _ & Haj & _ & Hpy & _ & _ & Hdj).
    + nra.
    + exists gj. auto.
  - destruct k as [|k]; [lia|]. rewrite S_INR in Hd.
    assert (HkR : (0 <= INR k)%R) by apply pos_INR.
    destruct (Player_walks_on k g Hwf Ha Hy Hs)
      as (gk & Ek & Hwfk & Hak & Hsk & Hpyk & _ & Hyk & Hdk); [lra|].
    destruct (Player_step gk Hwfk Hak)
      as (g' & E' & _ & Hs' & _ & Hpy' & _ & _ & Hd' & Ha');
      [congruence|rewrite Hdk; nra|].
    rewrite Hsk, Hdk in Hd', Ha'.
    rewrite Rabs_right in Hd', Ha' by nra.
    exists g'. split; [exact (Player_updates_snoc _ _ _ _ Ek E')|].
    assert (Hoff : is_active (waypoint g') = false).
    { rewrite Ha'. apply negb_false_iff, Rltb_true. lra. }
    split; [exact Hoff|]. split; [congruence|].
    split; [rewrite Hd', S_INR; ring|].
    intros m. apply Player_rests. exact Hoff.
Qed.

Lemma player_walk_arrives_witness :
  exists g',
    Player_updates 1 (set_waypoint (mkWaypoint 697 250 true) arrived_game)
    = Ok (tt, g') /\
    is_active (waypoint g') = false.
Proof.
  assert (Hd : waypoint_distance
                 (set_waypoint (mkWaypoint 697 250 true) arrived_game) = 7%R).
  { unfold waypoint_distance, distance, hypot. cbn.
    replace ((697 - 690) * ((697 - 690) * 1) + (250 - 250) * ((250 - 250) * 1))%R
      with (7 * 7)%R by ring.
    apply sqrt_square. lra. }
  destruct (player_walk_arrives 1
              (set_waypoint (mkWaypoint 697 250 true) arrived_game))
    as (_ & g' & E & Hoff & _).
  - apply turtle_wf_east.
  - reflexivity.
  - reflexivity.
  - cbn. lra.
  - lia.
  - rewrite Hd. cbn. lra.
  - exists g'. split; [exact E|exact Hoff].
Defined.

(** X8. A player standing exactly on an active waypoint does not stay: the
    heading towards its own position is 0, so the update moves it to the
    right by its speed and leaves the waypoint active; the next update brings
    it back onto the waypoint and deactivates it.  (The turtle of the player
    is in the state in which the module keeps it: its orientation is a
    heading with at most ten decimals.) *)
Theorem player_on_waypoint_steps_aside :
  forall g : Game,
    turtle_wf (player_turtle (player g)) ->
    is_active (waypoint g) = true ->
    waypoint_x (waypoint g) = player_x (player g) ->
    waypoint_y (waypoint g) = player_y (player g) ->
    (0 < player_speed (player g))%R ->
    exists g1 g2,
      Player_update g = Ok (tt, g1) /\
      player_x (player g1) = (player_x (player g) + player_speed (player g))%R /\
      player_y (player g1) = player_y (player g) /\
      is_active (waypoint g1) = true /\
      Player_update g1 = Ok (tt, g2) /\
      player_x (player g2) = player_x (player g) /\
      player_y (player g2) = player_y (player g) /\
      is_active (waypoint g2) = false.
Proof.
  intros g Hwf Ha Hx Hy Hs.
  pose proof (Player_update_eq g) as E. cbv zeta in E. rewrite Ha in E.
  assert (Hex : exact10
                  (degrees (atan2 (waypoint_y (waypoint g)
                                   - ycor (player_turtle (player g)))
                                  (waypoint_x (waypoint g)
                                   - xcor (player_turtle (player g)))))).
  { rewrite Hy. unfold player_y.
    replace (ycor (player_turtle (player g)) - ycor (player_turtle (player g)))%R
      with 0%R by ring.
    apply horizontal_exact. }
  pose proof (forward_towards (waypoint_x (waypoint g)) (waypoint_y (waypoint g))
                (player_speed (player g)) (player_turtle (player g)) Hwf)
    as Hft.
  pose proof (forward_towards_exact (waypoint_x (waypoint g))
                (waypoint_y (waypoint g)) (player_speed (player g))
                (player_turtle (player g)) Hwf Hex) as Hfe.
  cbv zeta in Hft, Hfe.
  change (forward (player_speed (player g))
            (setheading
               (towards (waypoint_x (waypoint g)) (waypoint_y (waypoint g))
                        (player_turtle (player g)))
               (player_turtle (player g)))) with (advanced g) in Hft, Hfe.
  destruct Hft as (_ & Hwf' & _). destruct Hfe as [_ Hon].
  destruct (Hon Hx Hy) as (Hax & Hay). clear Hon.
  fold (player_x (player g)) in Hax. fold (player_y (player g)) in Hay.
  assert (Hd1 : distance (waypoint_x (waypoint g)) (waypoint_y (waypoint g))
                         (advanced g) = player_speed (player g)).
  { unfold distance, hypot. rewrite Hax, Hay, Hx, Hy.
    replace ((player_x (player g) - (player_x (player g) + player_speed (player g))) ^ 2
             + (player_y (player g) - player_y (player g)) ^ 2)%R
      with (player_speed (player g) * player_speed (player g))%R by ring.
    apply sqrt_square. lra. }
  rewrite Hd1 in E.
  replace (Rltb (player_speed (player g)) (player_speed (player g)))
    with false in E by (symmetry; apply Rltb_false; lra).
  set (g1 := set_player (mkPlayer (player_speed (player g)) (advanced g))
               (if Home_contains (home g) (player_x (player g))
                                 (player_y (player g))
                then won g else g)) in *.
  assert (Hw1 : waypoint g1 = waypoint g)
    by (unfold g1; destruct (Home_contains _ _ _); reflexivity).
  assert (Hp1 : player g1 = mkPlayer (player_speed (player g)) (advanced g))
    by (unfold g1; destruct (Home_contains _ _ _); reflexivity).
  assert (Ha1 : is_active (waypoint g1) = true) by (rewrite Hw1; exact Ha).
  assert (Hdist : waypoint_distance g1 = player_speed (player g)).
  { unfold waypoint_distance. rewrite Hw1, Hp1. exact Hd1. }
  assert (Hx1 : player_x (player g1)
                = (player_x (player g) + player_speed (player g))%R)
    by (rewrite Hp1; exact Hax).
  assert (Hy1 : player_y (player g1) = player_y (player g))
    by (rewrite Hp1; exact Hay).
  destruct (Player_step g1) as (g2 & E2 & _ & _ & Hx2 & Hy2 & _ & _ & _ & Ha2).
  - rewrite Hp1. exact Hwf'.
  - exact Ha1.
  - rewrite Hw1, Hy1. exact Hy.
  - rewrite Hdist. exact Hs.
  - exists g1, g2. split; [exact E|].
    split; [exact Hx1|]. split; [exact Hy1|]. split; [exact Ha1|].
    split; [exact E2|].
    split; [rewrite Hx2, Hdist, Hw1, Hx1, Hx, Hp1; cbn [player_speed]; field; lra|].
    split; [congruence|].
    rewrite Ha2, Hdist, Hp1. cbn [player_speed].
    apply negb_false_iff, Rltb_true.
    replace (player_speed (player g) - player_speed (player g))%R with 0%R by ring.
    rewrite Rabs_R0. exact Hs.
Qed.

Lemma player_on_waypoint_steps_aside_witness :
  exists g1 g2,
    Player_update (set_waypoint (mkWaypoint 690 250 true) arrived_game)
    = Ok (tt, g1) /\
    player_x (player g1) = (690 + 5)%R /\
    Player_update g1 = Ok (tt, g2) /\
    player_x (player g2) = 690%R /\
    is_active (waypoint g2) = false.
Proof.
  destruct (player_on_waypoint_steps_aside
              (set_waypoint (mkWaypoint 690 250 true) arrived_game))
    as (g1 & g2 & E1 & Hx1 & _ & _ & E2 & Hx2 & _ & Hoff).
  - apply turtle_wf_east.
  - reflexivity.
  - reflexivity.
  - reflexivity.
  - cbn. lra.
  - exists g1, g2. auto.
Defined.

(** ** Properties that every registered enemy keeps *)

(** The enemy that a spawn call registers is the freshly constructed one,
    placed and created. *)
Lemma spawn_enemy_shape (c : SpawnCall) (g : Game) :
  0 <= screen_width g -> 0 <= screen_height g -> spawn_quota c > 0 ->
  exists e0 loc r0 r,
    construct (enemy_type c) (enemy_size c) (enemy_col c) g
    = Ok (e0, set_random r0 g) /\
    spawn_location e0 (set_random r0 g) = Ok (loc, set_random r g) /\
    EnemyGenerator_spawn_enemy c g
    = Ok (tt, spawned c (Enemy_create (set_position loc e0)) r g).
Proof.
  intros Hw Hh Hq. unfold EnemyGenerator_spawn_enemy.
  destruct (spawn_quota c >? 0) eqn:E; [clear E|lia].
  destruct (construct_spec (enemy_type c) (enemy_size c) (enemy_col c) g)
    as (e0 & r0 & Ec & _).
  assert (Hloc : exists loc r,
             spawn_location e0 (set_random r0 g) = Ok (loc, set_random r g)).
  { destruct e0 as [d|rw|ch|f|cg]; cbn [spawn_location];
      try (destruct (Enemy_spawn_location_ok (set_random r0 g) Hw Hh)
             as (loc & r & El); exists loc, r; rewrite El; reflexivity).
    unfold FencingEnemy_spawn_location; unfold_M.
    eexists; exists r0. reflexivity. }
  destruct Hloc as (loc & r & El).
  exists e0, loc, r0, r. split; [exact Ec|]. split; [exact El|].
  unfold bind at 1. rewrite Ec. unfold bind at 1. rewrite El.
  reflexivity.
Qed.

Ltac solve_table_call :=
  unfold table_call, enemies_type;
  first
    [ eexists; split; [left; reflexivity|cbn; repeat split; reflexivity]
    | eexists; split; [right; left; reflexivity|cbn; repeat split; reflexivity]
    | eexists; split;
      [do 2 right; left; reflexivity|cbn; repeat split; reflexivity]
    | eexists; split;
      [do 3 right; left; reflexivity|cbn; repeat split; reflexivity] ].

Section EnemyInvariant.

Variable Q : Enemy -> Prop.

(** [Q] holds of an enemy built for a row of the table, placed and
    created, and every update keeps it. *)
Hypothesis Q_new :
  forall (c : SpawnCall) (g g0 : Game) (e0 : Enemy) (loc : Z * Z),
    table_call c ->
    construct (enemy_type c) (enemy_size c) (enemy_col c) g = Ok (e0, g0) ->
    Q (Enemy_create (set_position loc e0)).
Hypothesis Q_update :
  forall (e e' : Enemy) (g g' : Game),
    Enemy_wf e -> Q e -> Enemy_update e g = Ok (e', g') -> Q e'.

Lemma spawn_enemy_keeps (c : SpawnCall) (g : Game) :
  table_call c -> Game_keeps Q g ->
  exists g', EnemyGenerator_spawn_enemy c g = Ok (tt, g') /\ Game_keeps Q g'.
Proof.
  intros Hc (Hwf & Hel & Htm).
  destruct (Z_gt_le_dec (spawn_quota c) 0) as [Hq|Hq].
  - pose proof Hwf as (Hw & Hh & Hall).
    destruct (spawn_enemy_shape c g Hw Hh Hq)
      as (e0 & loc & r0 & r & Ec & _ & E).
    destruct (spawn_enemy_spec c g Hw Hh Hq) as (e & r' & E' & _ & _ & _ & He & _).
    rewrite E in E'. injection E' as He' _.
    eexists. split; [exact E|].
    split; [apply Game_wf_spawned; [exact Hwf|]|split].
    + assert (Heq : e = Enemy_create (set_position loc e0)).
      { unfold spawned in He'. cbn in He'.
        apply app_inj_tail in He'. destruct He' as [_ He']. congruence. }
      rewrite <- Heq. exact He.
    + unfold spawned. cbn. apply Forall_app. split; [exact Hel|].
      constructor; [|constructor]. cbn. eapply Q_new; eassumption.
    + unfold spawned. cbn. apply Forall_app. split; [exact Htm|].
      constructor; [|constructor]. cbn.
      destruct Hc as (row & Hin & Ht & Hs & Hcol).
      exists row. cbn. auto.
  - exists g. rewrite spawn_enemy_done by exact Hq.
    split; [reflexivity|]. split; [exact Hwf|split; assumption].
Qed.

Lemma create_enemy_keeps (lvl : Z) (g : Game) :
  Game_keeps Q g ->
  exists g', EnemyGenerator_create_enemy lvl g = Ok (tt, g') /\ Game_keeps Q g'.
Proof.
  intros Hg. unfold EnemyGenerator_create_enemy.
  assert (Htriv : forall g0 : Game, True) by auto.
  destruct (lvl <? Z.of_nat (List.length enemies_type)) eqn:El.
  - destruct (for_each_inv nat (Game_keeps Q) (fun _ _ => True)
                (fun _ => I) (fun _ _ _ _ _ => I) (range lvl)
                (fun i =>
                   row <- lift (list_get enemies_type i) ;;
                   amount <- lift (low_lvl (row_type row)) ;;
                   EnemyGenerator_spawn_enemy
                     (mkSpawnCall (row_type row) (row_size row) (row_color row)
                                  100 amount))) with (g := g)
      as (g' & E & Hg' & _); [|exact Hg|exists g'; auto].
    intros i g0 Hi Hg0. unfold range in Hi. apply in_seq in Hi.
    assert (Hi3 : (i < 3)%nat) by (cbn in El; lia).
    destruct i as [|[|[|i]]]; [| | |lia]; cbn; unfold_M;
      match goal with
      | |- context [EnemyGenerator_spawn_enemy ?c g0] =>
          destruct (spawn_enemy_keeps c g0) as (g1 & E1 & Hg1);
          [solve_table_call
          |exact Hg0
          |exists g1; rewrite E1; auto]
      end.
  - destruct (for_each_inv EnemyRow (Game_keeps Q) (fun _ _ => True)
                (fun _ => I) (fun _ _ _ _ _ => I) enemies_type
                (row_body lvl)) with (g := g)
      as (g' & E & Hg' & _); [|exact Hg|exists g'; auto].
    intros row g0 Hrow Hg0. unfold row_body; unfold_M.
    destruct (In_enemies_type row Hrow) as [Hk|[Hk|[Hk|Hk]]]; rewrite Hk;
      cbn [high_lvl];
      match goal with
      | |- context [for_each ?l ?b g0] =>
          destruct (for_each_inv nat (Game_keeps Q) (fun _ _ => True)
                      (fun _ => I) (fun _ _ _ _ _ => I) l b)
            with (g := g0) as (g1 & E1 & Hg1 & _);
          [intros j g2 _ Hg2;
           destruct (spawn_enemy_keeps (high_call lvl row) g2)
             as (g3 & E3 & Hg3);
           [exists row; cbn; auto|exact Hg2|exists g3; auto]
          |exact Hg0
          |exists g1; auto]
      end.
Qed.

Lemma Element_update_keeps (i : nat) (g : Game) :
  Game_keeps Q g ->
  exists g', Element_update i g = Ok (tt, g') /\ Game_keeps Q g'.
Proof.
  intros (Hwf & Hel & Htm).
  destruct (Element_update_ticked i g Hwf) as (g' & E & Hwf' & Ht).
  exists g'. split; [exact E|]. split; [exact Hwf'|].
  split; [|destruct Ht as (_ & -> & _); exact Htm].
  revert E. unfold Element_update. unfold bind at 1. unfold get.
  destruct (nth_error (elements g) i) as [[| | |e]|] eqn:En.
  - unfold Waypoint_update, ret. intros [= <-]. exact Hel.
  - unfold Home_update, ret. intros [= <-]. exact Hel.
  - intros E. pose proof (Player_update_eq g) as E'. cbv zeta in E'.
    rewrite E in E'. injection E' as ->.
    destruct (Home_contains _ _ _), (is_active (waypoint g));
      try destruct (Rltb _ _); exact Hel.
  - assert (Hin : In (AnEnemy e) (elements g))
      by (eapply nth_error_In; eassumption).
    assert (He : Enemy_wf e).
    { destruct Hwf as (_ & _ & Hall). rewrite Forall_forall in Hall.
      apply (Hall _ Hin). }
    assert (Hq : Q e).
    { rewrite Forall_forall in Hel. apply (Hel _ Hin). }
    destruct (Enemy_update_total e g He) as (e' & r & hit & Eu & _).
    unfold_M. rewrite Eu. intros [= <-].
    cbn [elements set_elements].
    apply Forall_list_set.
    + unfold after_update. destruct hit; exact Hel.
    + cbn. eapply Q_update; eassumption.
  - unfold ret. intros [= <-]. exact Hel.
Qed.

Lemma step_keeps (ev : Event) (g : Game) :
  Game_keeps Q g ->
  exists g', step ev g = Ok (tt, g') /\ Game_keeps Q g'.
Proof.
  intros Hg. destruct ev as [| |x y]; cbn [step].
  - unfold Game_tick. unfold bind, get.
    destruct (stopped g); [exists g; auto|].
    destruct (for_each_inv nat (Game_keeps Q) (fun _ _ => True)
                (fun _ => I) (fun _ _ _ _ _ => I)
                (seq 0 (List.length (elements g))) Element_update)
      with (g := g) as (g' & E & Hg' & _); [|exact Hg|exists g'; auto].
    intros i g0 _ Hg0. destruct (Element_update_keeps i g0 Hg0) as (g1 & ? & ?).
    exists g1. auto.
  - destruct Hg as (Hwf & Hel & Htm).
    unfold Game_fire_timer. unfold bind at 1. unfold get.
    destruct (pop_earliest (timers g)) as [[t rest]|] eqn:Ep.
    + assert (Hsub : table_call (callback t) /\
                     Forall (fun t0 => table_call (callback t0)) rest).
      { clear - Ep Htm. revert t rest Ep Htm.
        induction (timers g) as [|a l IH]; intros t rest Ep Htm;
          [discriminate|].
        cbn in Ep. inversion Htm as [|? ? Ha Hl]; subst.
        destruct (pop_earliest l) as [[t' rest']|].
        - destruct (IH t' rest' eq_refl Hl) as [Ht' Hr'].
          destruct (fire_at a <=? fire_at t'); injection Ep as <- <-; auto.
        - injection Ep as <- <-. auto. }
      destruct Hsub as [Hct Hrest].
      unfold bind, modify.
      fold (timer_taken t rest g).
      assert (Hk : Game_keeps Q (timer_taken t rest g))
        by (destruct Hwf as (? & ? & ?); repeat split; assumption).
      destruct (stopped g).
      * exists (timer_taken t rest g). split; [reflexivity|exact Hk].
      * apply spawn_enemy_keeps; [exact Hct|exact Hk].
    + exists g. split; [reflexivity|]. split; [exact Hwf|split; assumption].
  - unfold on_click; unfold_M. eexists; split; [reflexivity|].
    destruct Hg as ((? & ? & ?) & ? & ?). repeat split; assumption.
Qed.

Lemma run_keeps (evs : list Event) (g : Game) :
  Game_keeps Q g ->
  exists g', run evs g = Ok (tt, g') /\ Game_keeps Q g'.
Proof.
  intros Hg. unfold run.
  destruct (for_each_inv Event (Game_keeps Q) (fun _ _ => True)
              (fun _ => I) (fun _ _ _ _ _ => I) evs step) with (g := g)
    as (g' & E & Hg' & _); [|exact Hg|exists g'; auto].
  intros ev g0 _ Hg0. destruct (step_keeps ev g0 Hg0) as (g1 & ? & ?).
  exists g1. auto.
Qed.

(** From the constructor on, whatever happens, every registered enemy has
    the property. *)
Lemma reachable_keeps (w h lvl : Z) (rnd : Random) (evs : list Event) :
  0 <= w -> 0 <= h -> w <> 1 -> h <> 1 ->
  exists g g',
    TurtleAdventureGame_init w h lvl rnd = Ok g /\
    run evs g = Ok (tt, g') /\
    Game_keeps Q g'.
Proof.
  intros Hw Hh Hw1 Hh1.
  assert (Hb : Game_keeps Q (base_game w h lvl rnd)).
  { split; [apply base_game_wf; assumption|]. cbn. split.
    - repeat constructor.
    - constructor. }
  destruct (create_enemy_keeps lvl _ Hb) as (g1 & Ec & Hg1).
  assert (Hp : Game_keeps Q (player_placed g1)).
  { destruct Hg1 as ((? & ? & ?) & ? & ?). repeat split; assumption. }
  destruct (run_keeps evs _ Hp) as (g' & Er & Hg').
  exists (player_placed g1), g'.
  split; [apply init_spec; assumption|]. auto.
Qed.

End EnemyInvariant.

(** X9. On a screen of non-negative size that is not one unit wide or high
    (for which the constructor raises), whatever the level, and whatever
    ticks, timer firings and clicks have happened since the constructor,
    every registered enemy has the class, size and colour of one row of
    [enemies_type]; in particular no [DemoEnemy] is ever registered. *)
Theorem registered_enemies_are_table_rows :
  forall (w h lvl : Z) (rnd : Random) (evs : list Event),
    0 <= w -> 0 <= h -> w <> 1 -> h <> 1 ->
    exists g g',
      TurtleAdventureGame_init w h lvl rnd = Ok g /\
      run evs g = Ok (tt, g') /\
      forall e, In (AnEnemy e) (elements g') ->
        kind_of e <> DemoEnemyK /\
        exists row, In row enemies_type /\
          kind_of e = row_type row /\ size_of e = row_size row /\
          color_of e = row_color row.
Proof.
  intros w h lvl rnd evs Hw Hh Hw1 Hh1.
  destruct (reachable_keeps table_enemy) with (w := w) (h := h) (lvl := lvl)
    (rnd := rnd) (evs := evs) as (g & g' & Ei & Er & _ & Hel & _); auto.
  - intros c g0 g1 e0 loc (row & Hin & Hk & Hs & Hc) Ec.
    destruct (construct_spec (enemy_type c) (enemy_size c) (enemy_col c) g0)
      as (e1 & r & Ec' & Hk' & Hs' & Hc' & _).
    rewrite Ec' in Ec. injection Ec as <- _.
    destruct (Enemy_create_spec (set_position loc e1)) as (Hk1 & Hs1 & Hc1 & _).
    destruct (set_position_spec loc e1) as (Hk2 & Hs2 & Hc2 & _).
    exists row. repeat split; congruence.
  - intros e e' g0 g1 Hwf (row & Hin & Hk & Hs & Hc) Eu.
    destruct (Enemy_update_total e g0 Hwf)
      as (e2 & r & hit & Eu' & Hk' & Hs' & Hc' & _).
    rewrite Eu' in Eu. injection Eu as <- _.
    exists row. repeat split; congruence.
  - exists g, g'. split; [exact Ei|]. split; [exact Er|].
    intros e Hin. rewrite Forall_forall in Hel.
    specialize (Hel _ Hin). cbn in Hel.
    split; [|exact Hel].
    destruct Hel as (row & Hrow & Hk & _). rewrite Hk.
    destruct (In_enemies_type row Hrow) as [E|[E|[E|E]]]; rewrite E;
      discriminate.
Qed.

Lemma registered_enemies_are_table_rows_witness :
  exists g g',
    TurtleAdventureGame_init 800 500 3 zero_draws = Ok g /\
    run [Tick; TimerFires; Tick] g = Ok (tt, g') /\
    forall e, In (AnEnemy e) (elements g') -> kind_of e <> DemoEnemyK.
Proof.
  destruct (registered_enemies_are_table_rows 800 500 3 zero_draws
              [Tick; TimerFires; Tick])
    as (g & g' & Ei & Er & H); [lia|lia|lia|lia|].
  exists g, g'. split; [exact Ei|]. split; [exact Er|].
  intros e Hin. apply (H e Hin).
Defined.

(** ** Speed and colour of a charger *)

Lemma charger_reach_update (c c' : ChargerEnemy) (g g' : Game) :
  charger_reach c -> ChargerEnemy_update c g = Ok (c', g') -> charger_reach c'.
Proof.
  intros [Hwf Hst] Eu.
  destruct (ChargerEnemy_update_total c g Hwf)
    as (c1 & Eu' & _ & Hwf' & _ & Hcol & Htr).
  rewrite Eu' in Eu. injection Eu as <- _.
  split; [exact Hwf'|].
  unfold charger_transition in Htr.
  destruct (cg_state c) eqn:Est.
  - (* hunt *)
    destruct Hst as [Hsp Hp]. destruct Htr as [Hnear Hfar].
    destruct (Rle_lt_dec (hypot (player_x (player g) - cg_x c)
                                (player_y (player g) - cg_y c)) 150) as [Hd|Hd].
    + rewrite (Hnear Hd). cbn. split; [exact Hsp|].
      unfold charge_fill. cbn. destruct Hwf as [_ Hcs]. rewrite Est in Hcs.
      rewrite Hcs. exact Hp.
    + destruct (Hfar Hd) as (-> & Hs1 & Ho1).
      split; [congruence|]. unfold painted in *. rewrite Ho1, Hcol. exact Hp.
  - (* charge *)
    destruct Hst as [Hsp Hp].
    destruct Htr as (Hgo & Hstay & _ & _ & Hobj).
    destruct Hwf as [_ Hcs]. rewrite Est in Hcs. destruct Hcs as [Hr Hev].
    pose proof (Z.div_mod (cg_charge_state c) 10) as Hdm.
    pose proof (Z.mod_pos_bound (cg_charge_state c) 10) as Hmb.
    pose proof (Z.div_mod (cg_charge_state c) 2) as Hd2.
    destruct (Z_gt_le_dec (cg_charge_state c + 2) 20) as [Hgt|Hle].
    + destruct (Hgo Hgt) as (-> & _ & Hs1 & _).
      split; [exact Hs1|].
      assert (Ecs : cg_charge_state c = 20) by lia.
      rewrite Ecs in Hobj. cbn in Hobj.
      unfold painted. intros f Hf. rewrite Hobj in Hf.
      destruct (cg_obj c); cbn in Hf; [|discriminate].
      injection Hf as <-. reflexivity.
    + destruct (Hstay Hle) as (-> & Hcs1 & Hs1 & _).
      split; [congruence|].
      unfold painted, charge_fill in *. rewrite Hcs1, Hcol.
      intros f Hf. rewrite Hobj in Hf.
      destruct (cg_charge_state c mod 10 =? 0) eqn:Em.
      * apply Z.eqb_eq in Em.
        assert (Ecs : cg_charge_state c = 0 \/ cg_charge_state c = 10) by lia.
        clear Hdm Hmb Hd2 Hr Hev Em Hle.
        destruct Ecs as [Ecs|Ecs]; rewrite Ecs in Hf |- *; cbn in Hf |- *;
          (destruct (cg_obj c); cbn in Hf; [|discriminate];
           injection Hf as <-; reflexivity).
      * apply Z.eqb_neq in Em. specialize (Hp f Hf).
        destruct (cg_charge_state c =? 0) eqn:E0;
          [apply Z.eqb_eq in E0; rewrite E0 in Em; cbn in Em; congruence|].
        destruct (cg_charge_state c + 2 =? 0) eqn:E2;
          [apply Z.eqb_eq in E2; lia|].
        destruct (cg_charge_state c <=? 10) eqn:E10;
          destruct (cg_charge_state c + 2 <=? 10) eqn:E12; try exact Hp.
        -- apply Z.leb_le in E10. apply Z.leb_gt in E12. exfalso. lia.
        -- apply Z.leb_gt in E10. apply Z.leb_le in E12. lia.
  - (* strike *)
    destruct Hst as [Hsp Hp].
    destruct Htr as (t & _ & Hnear & Hfar & _ & _ & Hs1 & Ho1 & _).
    assert (Hp' : painted "green" c1)
      by (unfold painted in *; rewrite Ho1; exact Hp).
    destruct (Rlt_le_dec (hypot (fst t - cg_x c) (snd t - cg_y c)) 25)
      as [Hd|Hd].
    + destruct (Hnear Hd) as (-> & _).
      split; [|exact Hp']. exists 0. split; [lia|]. rewrite Hs1, Hsp. lra.
    + rewrite (Hfar Hd). split; [congruence|exact Hp'].
  - (* break *)
    destruct Hst as [(k & Hk & Hsp) Hp]. destruct Htr as [Hlow Hhigh].
    destruct (Rle_lt_dec (cg_speed c - 15 / 10) 2) as [Hv|Hv].
    + destruct (Hlow Hv) as (-> & Hs1 & Ho1).
      split; [exact Hs1|].
      unfold painted. intros f Hf. rewrite Ho1 in Hf.
      destruct (cg_obj c); cbn in Hf; [|discriminate]. congruence.
    + destruct (Hhigh Hv) as (-> & Hs1 & Ho1).
      split; [|unfold painted in *; rewrite Ho1; exact Hp].
      exists (k + 1). rewrite plus_IZR, Hs1, Hsp.
      split; [|lra].
      destruct (Z_le_gt_dec k 14) as [Hk14|Hk14]; [lia|].
      exfalso. assert (Hk' : (15 <= IZR k)%R) by (apply IZR_le; lia).
      rewrite Hsp in Hv. lra.
Qed.

(** X10. On a screen of non-negative size that is not one unit wide or
    high (for which the constructor raises), whatever the level, and whatever
    ticks, timer firings and clicks have happened since the constructor,
    every registered charger is in a well-formed state, and its speed is 2
    while hunting or charging, 25 while striking and one of 25, 23.5, ...,
    2.5 while braking (so always between 2 and 25).  Its rectangle, once it
    exists, is filled with its own colour while hunting; while charging, still
    with its own colour as long as the charge timer is 0 (the update that
    switched to charging has not repainted it), red for the timer values 2
    to 10 and yellow for 12 to 20; and green while striking and braking. *)
Theorem chargers_speed_and_fill :
  forall (w h lvl : Z) (rnd : Random) (evs : list Event),
    0 <= w -> 0 <= h -> w <> 1 -> h <> 1 ->
    exists g g',
      TurtleAdventureGame_init w h lvl rnd = Ok g /\
      run evs g = Ok (tt, g') /\
      forall c, In (AnEnemy (Charger c)) (elements g') ->
        charger_reach c /\ (2 <= cg_speed c <= 25)%R.
Proof.
  intros w h lvl rnd evs Hw Hh Hw1 Hh1.
  destruct (reachable_keeps reach_enemy) with (w := w) (h := h) (lvl := lvl)
    (rnd := rnd) (evs := evs) as (g & g' & Ei & Er & _ & Hel & _); auto.
  - intros c g0 g1 e0 loc _ Ec.
    destruct (enemy_type c); cbn [construct] in Ec; unfold_M;
      try (injection Ec as <- _; exact I).
    injection Ec as <- _. cbn.
    split; [apply (ChargerEnemy_init_wf (enemy_size c) (enemy_col c))|].
    cbn. split; [reflexivity|]. intros f [= <-]. reflexivity.
  - intros e e' g0 g1 Hwf Hq Eu.
    destruct e as [d|r|c|f|k]; cbn [Enemy_update] in Eu; unfold_M;
      try (match type of Eu with
           | match ?u with _ => _ end = _ =>
               destruct u as [[? ?]|]; [|discriminate]
           end; injection Eu as <- _; exact I).
    destruct (ChargerEnemy_update k g0) as [[k' g2]|] eqn:Ek; [|discriminate].
    injection Eu as <- _. cbn. eapply charger_reach_update; eassumption.
  - exists g, g'. split; [exact Ei|]. split; [exact Er|].
    intros c Hin. rewrite Forall_forall in Hel.
    specialize (Hel _ Hin). cbn in Hel. split; [exact Hel|].
    destruct Hel as [_ Hst].
    destruct (cg_state c); try (destruct Hst as [-> _]; lra).
    destruct Hst as [(k & Hk & ->) _].
    assert (0 <= IZR k <= 15)%R by (split; apply IZR_le; lia). lra.
Qed.

Lemma chargers_speed_and_fill_witness :
  exists g g',
    TurtleAdventureGame_init 800 500 30 zero_draws = Ok g /\
    run [Tick; TimerFires; Tick] g = Ok (tt, g') /\
    forall c, In (AnEnemy (Charger c)) (elements g') ->
      (2 <= cg_speed c <= 25)%R.
Proof.
  destruct (chargers_speed_and_fill 800 500 30 zero_draws
              [Tick; TimerFires; Tick])
    as (g & g' & Ei & Er & H); [lia|lia|lia|lia|].
  exists g, g'. split; [exact Ei|]. split; [exact Er|].
  intros c Hin. apply (H c Hin).
Defined.

(** ** The braking phase of a charger *)

(** One [__break] call: the speed drops by 1.5 first, the charger then
    moves by the new speed in the braking direction. *)
Lemma ChargerEnemy_break_step (self : ChargerEnemy) (g : Game) (deg : R) :
  ChargerEnemy_wf self -> cg_state self = break ->
  cg_break_deg self = Some deg ->
  exists self',
    ChargerEnemy_call_state self g = Ok (self', g) /\
    ChargerEnemy_wf self' /\
    cg_x self' = (cg_x self + cos deg * (cg_speed self - 15 / 10))%R /\
    cg_y self' = (cg_y self + sin deg * (cg_speed self - 15 / 10))%R /\
    cg_break_deg self' = Some deg /\ cg_color self' = cg_color self /\
    ((2 < cg_speed self - 15 / 10)%R ->
       cg_state self' = break /\
       cg_speed self' = (cg_speed self - 15 / 10)%R /\
       cg_obj self' = cg_obj self) /\
    ((cg_speed self - 15 / 10 <= 2)%R ->
       cg_state self' = hunt /\ cg_speed self' = 2%R /\
       cg_obj self' = option_map (fun _ => cg_color self) (cg_obj self)).
Proof.
  intros [Hc Hwf] Hst Hdeg.
  pose proof Hc as (Hacc & Hss & Hhs & Hrad & Hcs & Hcol).
  rewrite Hst in Hwf. destruct Hwf as [Hz _].
  unfold ChargerEnemy_call_state, ChargerEnemy_wf, ChargerEnemy_consts.
  rewrite Hst. unfold ChargerEnemy_break; unfold_M. cbn.
  rewrite Hdeg. cbn. rewrite Hacc, Hhs.
  destruct (Rleb _ 2) eqn:Ed.
  - apply Rleb_true in Ed.
    eexists; split; [reflexivity|]. cbn. finish.
  - apply Rleb_false in Ed.
    eexists; split; [reflexivity|]. cbn. rewrite Hst. finish.
Qed.

(** While the speed stays above 2, [n] braking calls take 1.5 off the
    speed each and carry the charger on along the braking direction. *)
Lemma brake_phase_advances (n : nat) (self : ChargerEnemy) (g : Game) (deg : R) :
  ChargerEnemy_wf self -> cg_state self = break ->
  cg_break_deg self = Some deg ->
  (2 < cg_speed self - 15 / 10 * INR n)%R ->
  exists self',
    charger_calls n self g = Ok (self', g) /\ ChargerEnemy_wf self' /\
    cg_state self' = break /\ cg_break_deg self' = Some deg /\
    cg_color self' = cg_color self /\ cg_obj self' = cg_obj self /\
    cg_speed self' = (cg_speed self - 15 / 10 * INR n)%R /\
    cg_x self' = (cg_x self + cos deg *
                    (INR n * cg_speed self - 3 / 4 * INR n * (INR n + 1)))%R /\
    cg_y self' = (cg_y self + sin deg *
                    (INR n * cg_speed self - 3 / 4 * INR n * (INR n + 1)))%R.
Proof.
  revert self; induction n as [|n IH]; intros self Hwf Hst Hdeg Hv.
  - exists self. cbn [charger_calls INR]. unfold ret.
    repeat (split; [first [reflexivity|assumption|lra]|]). lra.
  - rewrite S_INR in Hv. pose proof (pos_INR n) as Hn.
    destruct (ChargerEnemy_break_step self g deg Hwf Hst Hdeg)
      as (s1 & E1 & Hwf1 & Hx1 & Hy1 & Hdeg1 & Hcol1 & Hon & _).
    destruct Hon as (Hst1 & Hsp1 & Hobj1); [lra|].
    destruct (IH s1 Hwf1 Hst1 Hdeg1)
      as (s' & E' & Hwf' & Hst' & Hdeg' & Hcol' & Hobj' & Hsp' & Hx' & Hy');
      [rewrite Hsp1; lra|].
    exists s'. cbn [charger_calls]. unfold bind. rewrite E1.
    split; [exact E'|]. split; [exact Hwf'|]. split; [exact Hst'|].
    split; [exact Hdeg'|]. split; [congruence|]. split; [congruence|].
    rewrite S_INR.
    split; [rewrite Hsp', Hsp1; field|].
    split; [rewrite Hx', Hx1, Hsp1; field|rewrite Hy', Hy1, Hsp1; field].
Qed.

(** X11. The braking phase of a charger that enters it at the strike speed
    25: for 15 calls it stays in the brake state, its speed falling by 1.5 a
    call down to 2.5; the 16th call returns it to the hunt state with speed 2
    and its rectangle filled with its own colour again.  Over the 16 calls
    it has run on by 196 in the braking direction. *)
Theorem charger_brake_phase :
  forall (self : ChargerEnemy) (g : Game) (deg : R),
    ChargerEnemy_wf self -> cg_state self = break ->
    cg_speed self = 25%R -> cg_break_deg self = Some deg ->
    (forall n, (n <= 15)%nat ->
       exists s, charger_calls n self g = Ok (s, g) /\
                 cg_state s = break /\
                 cg_speed s = (25 - 15 / 10 * INR n)%R /\
                 cg_obj s = cg_obj self) /\
    exists s16,
      charger_calls 16 self g = Ok (s16, g) /\
      cg_state s16 = hunt /\ cg_speed s16 = 2%R /\
      cg_x s16 = (cg_x self + 196 * cos deg)%R /\
      cg_y s16 = (cg_y self + 196 * sin deg)%R /\
      cg_obj s16 = option_map (fun _ => cg_color self) (cg_obj self).
Proof.
  intros self g deg Hwf Hst Hsp Hdeg.
  assert (Hadv : forall n, (n <= 15)%nat ->
            exists s, charger_calls n self g = Ok (s, g) /\
              ChargerEnemy_wf s /\ cg_state s = break /\
              cg_break_deg s = Some deg /\ cg_color s = cg_color self /\
              cg_obj s = cg_obj self /\
              cg_speed s = (25 - 15 / 10 * INR n)%R /\
              cg_x s = (cg_x self + cos deg *
                          (INR n * 25 - 3 / 4 * INR n * (INR n + 1)))%R /\
              cg_y s = (cg_y self + sin deg *
                          (INR n * 25 - 3 / 4 * INR n * (INR n + 1)))%R).
  { intros n Hn. rewrite <- Hsp.
    apply brake_phase_advances; try assumption.
    pose proof (le_INR n 15 Hn) as H15. simpl in H15.
    rewrite Hsp. lra. }
  split.
  - intros n Hn.
    destruct (Hadv n Hn) as (s & E & _ & Hs & _ & _ & Ho & Hv & _).
    exists s. auto.
  - destruct (Hadv 15%nat (le_n 15))
      as (s15 & E15 & Hwf15 & Hst15 & Hdeg15 & Hcol15 & Hobj15 & Hsp15
          & Hx15 & Hy15).
    assert (H15 : INR 15 = 15%R) by (simpl; lra).
    rewrite H15 in Hsp15, Hx15, Hy15.
    destruct (ChargerEnemy_break_step s15 g deg Hwf15 Hst15 Hdeg15)
      as (s16 & E16 & _ & Hx16 & Hy16 & _ & _ & _ & Hoff).
    destruct Hoff as (Hst16 & Hsp16 & Hobj16); [rewrite Hsp15; lra|].
    exists s16.
    split.
    { change 16%nat with (15 + 1)%nat. rewrite charger_calls_app.
      unfold bind at 1. rewrite E15. cbn [charger_calls]. unfold_M.
      rewrite E16. reflexivity. }
    split; [exact Hst16|]. split; [exact Hsp16|].
    split; [rewrite Hx16, Hx15, Hsp15; lra|].
    split; [rewrite Hy16, Hy15, Hsp15; lra|].
    rewrite Hobj16, Hcol15, Hobj15. reflexivity.
Qed.

Lemma charger_brake_phase_witness :
  exists s16,
    charger_calls 16
      (cg_set_break_deg (Some 0%R)
         (cg_set_state break (cg_set_speed 25 (ChargerEnemy_init 18 "navy"))))
      (demo_game 4) = Ok (s16, demo_game 4) /\
    cg_state s16 = hunt /\ cg_speed s16 = 2%R /\
    cg_x s16 = (0 + 196 * cos 0)%R.
Proof.
  destruct (charger_brake_phase
              (cg_set_break_deg (Some 0%R)
                 (cg_set_state break
                    (cg_set_speed 25 (ChargerEnemy_init 18 "navy"))))
              (demo_game 4) 0%R)
    as [_ (s16 & E & Hst & Hsp & Hx & _)].
  - split; [repeat split; reflexivity|].
    cbn. split; [reflexivity|discriminate].
  - reflexivity.
  - reflexivity.
  - reflexivity.
  - exists s16. split; [exact E|]. split; [exact Hst|]. split; [exact Hsp|].
    exact Hx.
Defined.

(** ** Where a charger moves *)

Lemma ChargerEnemy_hunt_step (self : ChargerEnemy) (g : Game) :
  ChargerEnemy_wf self -> cg_state self = hunt ->
  let dx := (player_x (player g) - cg_x self)%R in
  let dy := (player_y (player g) - cg_y self)%R in
  ((hypot dx dy <= 150)%R ->
     ChargerEnemy_call_state self g = Ok (cg_set_state charge self, g)) /\
  ((150 < hypot dx dy)%R ->
     ChargerEnemy_call_state self g
     = Ok (cg_move (cg_x self + cos (atan2 dy dx) * cg_speed self)
                   (cg_y self + sin (atan2 dy dx) * cg_speed self) self, g)).
Proof.
  intros [Hc _] Hst. cbv zeta.
  destruct Hc as (_ & _ & _ & Hrad & _).
  unfold ChargerEnemy_call_state. rewrite Hst.
  unfold ChargerEnemy_hunt; unfold_M. rewrite Hrad.
  destruct (Rleb _ 150) eqn:Ed.
  - apply Rleb_true in Ed. split; [reflexivity|intros; exfalso; lra].
  - apply Rleb_false in Ed. split; [intros; exfalso; lra|reflexivity].
Qed.

(** X12. Where one update takes a charger.  Hunting, it stays put when the
    player is within 150 and otherwise moves by its speed straight at the
    player; charging, it stays put; striking, it moves by its speed straight
    at the position that the player had when the strike began, not at the
    player, and from a distance [d > 0] ends at [|d - speed|] from that
    position, so the last step of a strike overshoots the target. *)
Theorem charger_moves_at_its_target :
  forall (self : ChargerEnemy) (g : Game),
    ChargerEnemy_wf self ->
    let px := player_x (player g) in
    let py := player_y (player g) in
    exists self' g',
      ChargerEnemy_update self g = Ok (self', g') /\
      (cg_state self = hunt ->
         let d := hypot (px - cg_x self) (py - cg_y self) in
         ((d <= 150)%R -> cg_x self' = cg_x self /\ cg_y self' = cg_y self) /\
         ((150 < d)%R ->
            cg_x self' = (cg_x self + cg_speed self * ((px - cg_x self) / d))%R /\
            cg_y self' = (cg_y self + cg_speed self * ((py - cg_y self) / d))%R /\
            hypot (px - cg_x self') (py - cg_y self')
            = Rabs (d - cg_speed self))) /\
      (cg_state self = charge ->
         cg_x self' = cg_x self /\ cg_y self' = cg_y self) /\
      (forall tx ty : R,
         cg_state self = strike -> cg_charge_loc self = Some (tx, ty) ->
         let d := hypot (tx - cg_x self) (ty - cg_y self) in
         hypot (cg_x self' - cg_x self) (cg_y self' - cg_y self)
         = Rabs (cg_speed self) /\
         ((0 < d)%R ->
            cg_x self' = (cg_x self + cg_speed self * ((tx - cg_x self) / d))%R /\
            cg_y self' = (cg_y self + cg_speed self * ((ty - cg_y self) / d))%R /\
            hypot (tx - cg_x self') (ty - cg_y self')
            = Rabs (d - cg_speed self))).
Proof.
  intros self g Hwf px py.
  destruct (ChargerEnemy_update_total self g Hwf)
    as (self' & Eu & Ecall & _ & _ & _ & Htr).
  exists self'. eexists. split; [exact Eu|].
  unfold charger_transition in Htr.
  split; [|split].
  - intros Hst. cbv zeta.
    destruct (ChargerEnemy_hunt_step self g Hwf Hst) as [Hnear Hfar].
    cbv zeta in Hnear, Hfar. fold px py in Hnear, Hfar.
    split.
    + intros Hd. rewrite (Hnear Hd) in Ecall. injection Ecall as <-.
      split; reflexivity.
    + intros Hd. rewrite (Hfar Hd) in Ecall. injection Ecall as <-.
      cbn [cg_move cg_x cg_y].
      destruct (step_at_target (cg_x self) (cg_y self) px py (cg_speed self))
        as (_ & Hdir & _).
      apply Hdir. lra.
  - intros Hst. rewrite Hst in Htr.
    destruct Htr as (_ & _ & Hx & Hy & _). split; assumption.
  - intros tx ty Hst Hloc. cbv zeta. rewrite Hst in Htr.
    destruct Htr as (t & Ht & _ & _ & Hx & Hy & _).
    rewrite Hloc in Ht. injection Ht as <-. cbn [fst snd] in Hx, Hy.
    rewrite Hx, Hy.
    destruct (step_at_target (cg_x self) (cg_y self) tx ty (cg_speed self))
      as (Hlen & Hdir & _).
    split; [exact Hlen|exact Hdir].
Qed.

Lemma charger_moves_at_its_target_witness :
  exists self' g',
    ChargerEnemy_update (cg_move 300 400 (ChargerEnemy_init 18 "navy"))
                        (demo_game 4) = Ok (self', g') /\
    hypot (0 - cg_x self') (0 - cg_y self') = Rabs (500 - 2).
Proof.
  destruct (charger_moves_at_its_target
              (cg_move 300 400 (ChargerEnemy_init 18 "navy")) (demo_game 4))
    as (self' & g' & E & Hh & _).
  - split; [repeat split; reflexivity|reflexivity].
  - exists self', g'. split; [exact E|].
    assert (H5 : hypot (0 - 300) (0 - 400) = 500%R).
    { unfold hypot.
      replace ((0 - 300) ^ 2 + (0 - 400) ^ 2)%R with (500 * 500)%R by ring.
      apply sqrt_square. lra. }
    destruct (Hh eq_refl) as [_ Hfar].
    cbn [demo_game new_game player Player_init RawTurtle_init player_x
         player_y player_turtle xcor ycor cg_move cg_x cg_y cg_speed
         ChargerEnemy_init] in Hfar.
    rewrite H5 in Hfar. apply Hfar. lra.
Defined.

(** ** The generator below level 4 *)

Lemma spawn_row (c : SpawnCall) (g : Game) :
  Game_wf g -> spawn_quota c > 0 ->
  exists g',
    EnemyGenerator_spawn_enemy c g = Ok (tt, g') /\ Game_wf g' /\
    now g' = now g /\
    timers g' = timers g ++ [mkTimer (now g + delay c) (rearmed c)] /\
    (forall k, total k g' = total k g +
       (if EnemyKind_eqb (enemy_type c) k then spawn_quota c else 0)) /\
    (forall k, count_kind k (elements g') = count_kind k (elements g) +
       (if EnemyKind_eqb (enemy_type c) k then 1 else 0)).
Proof.
  intros Hwf Hq. pose proof Hwf as (Hw & Hh & _).
  destruct (spawn_enemy_spec c g Hw Hh Hq) as (e & r & E & Hk & _ & _ & He & _).
  exists (spawned c e r g). split; [exact E|].
  split; [apply Game_wf_spawned; assumption|].
  split; [reflexivity|]. split; [reflexivity|].
  split.
  - intros k. apply total_spawned; assumption.
  - intros k.
    change (elements (spawned c e r g)) with (elements g ++ [AnEnemy e]).
    rewrite count_kind_app. f_equal.
    unfold count_kind. cbn [filter is_kind]. rewrite Hk.
    destruct (EnemyKind_eqb (enemy_type c) k); reflexivity.
Qed.

Lemma create_enemy_low (lvl : Z) (g : Game) :
  Game_wf g -> lvl < 4 ->
  exists g',
    EnemyGenerator_create_enemy lvl g = Ok (tt, g') /\ Game_wf g' /\
    (forall k, total k g' = total k g + low_total lvl k) /\
    (forall k, count_kind k (elements g')
               = count_kind k (elements g)
                 + (if low_total lvl k >? 0 then 1 else 0)) /\
    exists new,
      timers g' = timers g ++ new /\
      Forall (fun t => fire_at t = now g + 100 /\ delay (callback t) = 100) new.
Proof.
  intros Hwf Hl. unfold EnemyGenerator_create_enemy.
  change (Z.of_nat (List.length enemies_type)) with 4.
  destruct (lvl <? 4) eqn:E; [clear E|lia].
  assert (Hcases : lvl <= 0 \/ lvl = 1 \/ lvl = 2 \/ lvl = 3) by lia.
  destruct Hcases as [H0|[->|[->| ->]]].
  - unfold range. replace (Z.to_nat lvl) with 0%nat by lia.
    cbn [seq for_each]. exists g. unfold ret.
    split; [reflexivity|]. split; [exact Hwf|].
    assert (Hz : forall k, low_total lvl k = 0).
    { intros k. unfold low_total.
      destruct k; try reflexivity;
        match goal with
        | |- (if ?b then _ else _) = _ =>
            destruct b eqn:Eb; [apply Z.leb_le in Eb; lia|reflexivity]
        end. }
    split; [intros k; rewrite Hz; lia|].
    split; [intros k; rewrite Hz; cbn; lia|].
    exists []. rewrite app_nil_r. auto.
  - change (range 1) with [0%nat]. cbn [for_each]. unfold_M.
    cbn [list_get nth_error enemies_type low_lvl row_type row_size row_color].
    destruct (spawn_row (mkSpawnCall RandomWalkEnemyK 20 "red" 100 5) g Hwf)
      as (g1 & E1 & Hwf1 & Hn1 & Ht1 & Htot1 & Hc1); [reflexivity|].
    rewrite E1. exists g1.
    split; [reflexivity|]. split; [exact Hwf1|].
    split; [intros k; rewrite Htot1; destruct k; cbn; lia|].
    split; [intros k; rewrite Hc1; destruct k; cbn; lia|].
    eexists. split; [exact Ht1|].
    repeat constructor.
  - change (range 2) with [0%nat; 1%nat]. cbn [for_each]. unfold_M.
    cbn [list_get nth_error enemies_type low_lvl row_type row_size row_color].
    destruct (spawn_row (mkSpawnCall RandomWalkEnemyK 20 "red" 100 5) g Hwf)
      as (g1 & E1 & Hwf1 & Hn1 & Ht1 & Htot1 & Hc1); [reflexivity|].
    rewrite E1.
    destruct (spawn_row (mkSpawnCall ChasingEnemyK 10 "yellow" 100 2) g1 Hwf1)
      as (g2 & E2 & Hwf2 & Hn2 & Ht2 & Htot2 & Hc2); [reflexivity|].
    rewrite E2. exists g2.
    split; [reflexivity|]. split; [exact Hwf2|].
    split; [intros k; rewrite Htot2, Htot1; destruct k; cbn; lia|].
    split; [intros k; rewrite Hc2, Hc1; destruct k; cbn; lia|].
    eexists. split; [rewrite Ht2, Ht1, <- app_assoc; reflexivity|].
    rewrite Hn1. repeat constructor.
  - change (range 3) with [0%nat; 1%nat; 2%nat]. cbn [for_each]. unfold_M.
    cbn [list_get nth_error enemies_type low_lvl row_type row_size row_color].
    destruct (spawn_row (mkSpawnCall RandomWalkEnemyK 20 "red" 100 5) g Hwf)
      as (g1 & E1 & Hwf1 & Hn1 & Ht1 & Htot1 & Hc1); [reflexivity|].
    rewrite E1.
    destruct (spawn_row (mkSpawnCall ChasingEnemyK 10 "yellow" 100 2) g1 Hwf1)
      as (g2 & E2 & Hwf2 & Hn2 & Ht2 & Htot2 & Hc2); [reflexivity|].
    rewrite E2.
    destruct (spawn_row (mkSpawnCall FencingEnemyK 15 "orange" 100 4) g2 Hwf2)
      as (g3 & E3 & Hwf3 & Hn3 & Ht3 & Htot3 & Hc3); [reflexivity|].
    rewrite E3. exists g3.
    split; [reflexivity|]. split; [exact Hwf3|].
    split; [intros k; rewrite Htot3, Htot2, Htot1; destruct k; cbn; lia|].
    split; [intros k; rewrite Hc3, Hc2, Hc1; destruct k; cbn; lia|].
    eexists. split; [rewrite Ht3, Ht2, Ht1, <- !app_assoc; reflexivity|].
    rewrite Hn2, Hn1. repeat constructor.
Qed.

(** X13. Below level 4, on a screen of non-negative size that is not one
    unit wide or high (for which the constructor raises), the generator uses
    the first [level] rows of the table, one spawn call each, with delay 100
    and the quota of [low_lvl]: the constructed game is running and has one
    enemy of each such class.  Over any run the enemies registered and still
    to come never exceed 5 random walkers from level 1, 2 chasers from level
    2 and 4 fencers at level 3, and they number exactly that as long as the
    game has not been stopped (in a stopped game the callbacks that come due
    are dropped).  A level of 0 or less gives a game without enemies, and no
    level below 4 ever has a charger. *)
Theorem low_levels_spawn_by_row :
  forall (w h lvl : Z) (rnd : Random),
    0 <= w -> 0 <= h -> w <> 1 -> h <> 1 -> lvl < 4 ->
    exists g,
      TurtleAdventureGame_init w h lvl rnd = Ok g /\
      stopped g = false /\
      (forall k, count_kind k (elements g)
                 = if low_total lvl k >? 0 then 1 else 0) /\
      Forall (fun t => fire_at t = 100 /\ delay (callback t) = 100)
             (timers g) /\
      (lvl <= 0 ->
         elements g = [TheWaypoint; TheHome; ThePlayer] /\ timers g = []) /\
      forall evs, exists g',
        run evs g = Ok (tt, g') /\
        (forall k, total k g' <= low_total lvl k) /\
        (stopped g' = false -> forall k, total k g' = low_total lvl k) /\
        count_kind ChargerEnemyK (elements g') = 0.
Proof.
  intros w h lvl rnd Hw Hh Hw1 Hh1 Hl.
  pose proof (base_game_wf w h lvl rnd Hw Hh) as Hwfb.
  destruct (create_enemy_low lvl _ Hwfb Hl)
    as (g1 & Ec & Hwf1 & Htot & Hcnt & new & Htm & Hnew).
  pose proof (init_spec w h lvl rnd _ Hw1 Hh1 Ec) as Einit.
  exists (player_placed g1). split; [exact Einit|].
  assert (Hwf : Game_wf (player_placed g1)).
  { destruct Hwf1 as (? & ? & ?). repeat split; assumption. }
  assert (Hrun : stopped (player_placed g1) = false).
  { destruct (create_enemy_ok lvl _ Hwfb) as (g1' & Ec' & _ & Hgen).
    rewrite Ec in Ec'. injection Ec' as <-.
    destruct Hgen as (_ & Hst & _). exact Hst. }
  assert (Htot1 : forall k, total k (player_placed g1) = low_total lvl k).
  { intros k. change (total k (player_placed g1)) with (total k g1).
    rewrite Htot. destruct k; reflexivity. }
  split; [exact Hrun|]. split; [|split; [|split]].
  - intros k.
    change (elements (player_placed g1)) with (elements g1).
    rewrite Hcnt. destruct k; reflexivity.
  - change (timers (player_placed g1)) with (timers g1).
    rewrite Htm. exact Hnew.
  - intros H0.
    change (elements (player_placed g1)) with (elements g1).
    change (timers (player_placed g1)) with (timers g1).
    revert Ec. unfold EnemyGenerator_create_enemy.
    change (Z.of_nat (List.length enemies_type)) with 4.
    destruct (lvl <? 4) eqn:E; [clear E|lia].
    unfold range. replace (Z.to_nat lvl) with 0%nat by lia.
    cbn [seq for_each]. unfold ret. intros [= <-]. split; reflexivity.
  - intros evs.
    destruct (run_spec evs _ Hwf) as (g' & Er & _ & Hev).
    exists g'. split; [exact Er|].
    destruct Hev as (_ & Hle & _ & _ & Heq).
    assert (Hle' : forall k, total k g' <= low_total lvl k)
      by (intros k; rewrite <- Htot1; apply Hle).
    split; [exact Hle'|]. split.
    + intros Hrun' k. rewrite (Heq Hrun' k). apply Htot1.
    + apply (total_zero ChargerEnemyK g').
      specialize (Hle' ChargerEnemyK). exact Hle'.
Qed.

Lemma low_levels_spawn_by_row_witness :
  exists g,
    TurtleAdventureGame_init 800 500 3 zero_draws = Ok g /\
    forall evs, exists g',
      run evs g = Ok (tt, g') /\
      total FencingEnemyK g' <= 4 /\
      count_kind ChargerEnemyK (elements g') = 0.
Proof.
  destruct (low_levels_spawn_by_row 800 500 3 zero_draws)
    as (g & Ei & _ & _ & _ & _ & Hrun); [lia|lia|lia|lia|lia|].
  exists g. split; [exact Ei|].
  intros evs. destruct (Hrun evs) as (g' & Er & Htot & _ & Hc).
  exists g'. split; [exact Er|]. split; [apply (Htot FencingEnemyK)|exact Hc].
Defined.

(** ** A game without enemies *)

Lemma create_enemy_nonpositive (lvl : Z) (g : Game) :
  lvl <= 0 -> EnemyGenerator_create_enemy lvl g = Ok (tt, g).
Proof.
  intros H0. unfold EnemyGenerator_create_enemy.
  change (Z.of_nat (List.length enemies_type)) with 4.
  destruct (lvl <? 4) eqn:E; [clear E|lia].
  unfold range. replace (Z.to_nat lvl) with 0%nat by lia. reflexivity.
Qed.

(** With the waypoint, the home and the player as the only elements, a
    frame tick of a running game is the update of the player. *)
Lemma tick_bare (g : Game) :
  elements g = [TheWaypoint; TheHome; ThePlayer] -> stopped g = false ->
  Game_tick g = Player_update g.
Proof.
  intros He Hs. pose proof (Player_update_eq g) as E. cbv zeta in E.
  assert (Hel : forall g1, Player_update g = Ok (tt, g1) ->
                           elements g1 = elements g).
  { intros g1 E1. rewrite E in E1. injection E1 as <-.
    destruct (Home_contains _ _ _), (is_active (waypoint g));
      try destruct (Rltb _ _); reflexivity. }
  destruct (Player_update g) as [[[] g1]|] eqn:Ep; [|discriminate].
  specialize (Hel g1 eq_refl).
  unfold Game_tick. unfold bind at 1. unfold get. rewrite Hs, He.
  cbn [List.length seq for_each].
  unfold bind at 1. unfold Element_update at 1. unfold bind at 1. unfold get.
  rewrite He. cbn [nth_error]. unfold Waypoint_update, ret at 1.
  unfold bind at 1. unfold Element_update at 1. unfold bind at 1. unfold get.
  rewrite He. cbn [nth_error]. unfold Home_update, ret at 1.
  unfold bind at 1. unfold Element_update at 1. unfold bind at 1. unfold get.
  rewrite He. cbn [nth_error]. rewrite Ep. reflexivity.
Qed.

Lemma step_bare (ev : Event) (g : Game) :
  bare g -> exists g', step ev g = Ok (tt, g') /\ bare g'.
Proof.
  intros (He & Ht & Hs). destruct ev as [| |x y]; cbn [step].
  - destruct Hs as [[Hs Hc]|[Hs Hc]].
    + rewrite (tick_bare g He Hs).
      pose proof (Player_update_eq g) as E. cbv zeta in E.
      eexists. split; [exact E|].
      unfold bare, won.
      destruct (Home_contains _ _ _), (is_active (waypoint g));
        try destruct (Rltb _ _); cbn; rewrite ?Hc; auto.
    + exists g. unfold Game_tick; unfold_M. rewrite Hs.
      split; [reflexivity|]. unfold bare. auto.
  - exists g. unfold Game_fire_timer; unfold_M. rewrite Ht.
    split; [reflexivity|]. unfold bare. auto.
  - unfold on_click; unfold_M. eexists. split; [reflexivity|].
    unfold bare. cbn. auto.
Qed.

(** X14. A game of level 0 or less (on a screen of non-negative size that
    is not one unit wide or high, for which the constructor raises) has no
    enemy, and it can only be won: whatever ticks, timer firings and clicks happen, the waypoint,
    the home and the player remain its only elements, no callback is ever
    pending, and it is either running with nothing written on the canvas or
    stopped with "You Win" written once; "You Lose" never appears. *)
Theorem game_without_enemies_is_never_lost :
  forall (w h lvl : Z) (rnd : Random) (evs : list Event),
    0 <= w -> 0 <= h -> w <> 1 -> h <> 1 -> lvl <= 0 ->
    exists g g',
      TurtleAdventureGame_init w h lvl rnd = Ok g /\
      run evs g = Ok (tt, g') /\
      elements g' = [TheWaypoint; TheHome; ThePlayer] /\ timers g' = [] /\
      ((stopped g' = false /\ canvas_texts g' = []) \/
       (stopped g' = true /\ canvas_texts g' = ["You Win"%string])).
Proof.
  intros w h lvl rnd evs Hw Hh Hw1 Hh1 H0.
  pose proof (init_spec w h lvl rnd _ Hw1 Hh1
                (create_enemy_nonpositive lvl (base_game w h lvl rnd) H0))
    as Einit.
  exists (player_placed (base_game w h lvl rnd)).
  assert (Hb : bare (player_placed (base_game w h lvl rnd))).
  { unfold bare. cbn. auto. }
  destruct (for_each_inv Event bare (fun _ _ => True)
              (fun _ => I) (fun _ _ _ _ _ => I) evs step)
    with (g := player_placed (base_game w h lvl rnd))
    as (g' & E & Hg' & _); [|exact Hb|].
  - intros ev g0 _ Hg0. destruct (step_bare ev g0 Hg0) as (g1 & E1 & Hg1).
    exists g1. auto.
  - exists g'. split; [exact Einit|]. split; [exact E|]. exact Hg'.
Qed.

Lemma game_without_enemies_is_never_lost_witness :
  exists g g',
    TurtleAdventureGame_init 800 500 0 zero_draws = Ok g /\
    run [Click 700 250; Tick; TimerFires; Tick] g = Ok (tt, g') /\
    elements g' = [TheWaypoint; TheHome; ThePlayer] /\ timers g' = [].
Proof.
  destruct (game_without_enemies_is_never_lost 800 500 0 zero_draws
              [Click 700 250; Tick; TimerFires; Tick])
    as (g & g' & Ei & Er & He & Ht & _); [lia|lia|lia|lia|lia|].
  exists g, g'. auto.
Defined.

(** ** Walking home *)

Lemma hypot_bounds (a b : R) :
  (Rabs a <= hypot a b)%R /\ (Rabs b <= hypot a b)%R.
Proof.
  unfold hypot. rewrite <- (sqrt_Rsqr_abs a), <- (sqrt_Rsqr_abs b).
  split; apply sqrt_le_1_alt; unfold Rsqr; nra.
Qed.

Lemma hypot_0_r (a : R) : hypot a 0 = Rabs a.
Proof.
  unfold hypot. replace (a ^ 2 + 0 ^ 2)%R with (Rsqr a) by (unfold Rsqr; ring).
  apply sqrt_Rsqr_abs.
Qed.

Lemma ticks_stopped (n : nat) (g : Game) :
  stopped g = true -> run (repeat Tick n) g = Ok (tt, g).
Proof.
  intros Hs. induction n as [|n IH]; [reflexivity|].
  unfold run in *. cbn [repeat for_each step]. unfold bind at 1.
  unfold Game_tick. unfold bind at 1. unfold get. rewrite Hs. unfold ret at 1.
  exact IH.
Qed.

Lemma near_home_contains (g : Game) :
  waypoint_x (waypoint g) = IZR (home_x (home g)) ->
  waypoint_y (waypoint g) = IZR (home_y (home g)) ->
  home_size (home g) = 20 ->
  (waypoint_distance g <= 10)%R ->
  Home_contains (home g) (player_x (player g)) (player_y (player g)) = true.
Proof.
  intros Hwx Hwy Hsz Hd.
  apply Home_contains_spec. rewrite Hsz, <- Hwx, <- Hwy.
  unfold waypoint_distance, distance in Hd.
  destruct (hypot_bounds
              (waypoint_x (waypoint g) - xcor (player_turtle (player g)))
              (waypoint_y (waypoint g) - ycor (player_turtle (player g))))
    as [Hx Hy].
  unfold player_x, player_y.
  unfold Rabs in Hx, Hy.
  destruct (Rcase_abs _), (Rcase_abs _); lra.
Qed.

(** With the waypoint on the centre of the home, on the horizontal line of
    the player and at most [10 + 5 * n] from it, [n + 1] ticks of a game
    without enemies end in a win. *)
Lemma walk_home (n : nat) (g : Game) :
  bare g -> stopped g = false -> is_active (waypoint g) = true ->
  turtle_wf (player_turtle (player g)) ->
  waypoint_x (waypoint g) = IZR (home_x (home g)) ->
  waypoint_y (waypoint g) = IZR (home_y (home g)) ->
  waypoint_y (waypoint g) = player_y (player g) ->
  home_size (home g) = 20 -> player_speed (player g) = 5%R ->
  (waypoint_distance g <= 10 + 5 * INR n)%R ->
  exists g',
    run (repeat Tick (S n)) g = Ok (tt, g') /\
    stopped g' = true /\ canvas_texts g' = ["You Win"%string].
Proof.
  revert g. induction n as [|n IH];
    intros g Hb Hs Ha Hwf Hwx Hwy Hpy Hsz Hsp Hd;
    pose proof Hb as (He & Ht & Hc);
    destruct Hc as [[_ Hc]|[Hc _]]; try congruence;
    change (repeat Tick (S ?m)) with (Tick :: repeat Tick m);
    unfold run; cbn [for_each step]; unfold bind at 1;
    rewrite (tick_bare g He Hs);
    pose proof (Player_update_eq g) as E; cbv zeta in E;
    destruct (Home_contains (home g) (player_x (player g))
                (player_y (player g))) eqn:Ein.
  - rewrite E. rewrite Ha.
    eexists. split; [apply ticks_stopped|];
      destruct (Rltb _ _); cbn; rewrite ?Hc; auto.
  - exfalso. cbn [INR] in Hd.
    rewrite near_home_contains in Ein; [discriminate|assumption..|lra].
  - rewrite E. rewrite Ha.
    eexists. split; [apply ticks_stopped|];
      destruct (Rltb _ _); cbn; rewrite ?Hc; auto.
  - assert (Hfar : (10 < waypoint_distance g)%R).
    { destruct (Rle_lt_dec (waypoint_distance g) 10) as [Hle|Hlt]; [|exact Hlt].
      rewrite near_home_contains in Ein; [discriminate|assumption..]. }
    destruct (Player_step g Hwf Ha Hpy)
      as (g1 & E1 & Hwf1 & Hsp1 & _ & Hpy1 & Hwx1 & Hwy1 & Hd1 & Ha1);
      [lra|].
    rewrite Hsp in Hd1, Ha1.
    assert (Habs : Rabs (waypoint_distance g - 5) = (waypoint_distance g - 5)%R)
      by (apply Rabs_right; lra).
    rewrite Habs in Hd1, Ha1.
    assert (Hkeep : elements g1 = elements g /\ timers g1 = timers g /\
                    stopped g1 = stopped g /\
                    canvas_texts g1 = canvas_texts g /\ home g1 = home g).
    { rewrite E, Ha in E1. injection E1 as <-.
      destruct (Rltb _ _); cbn; auto. }
    destruct Hkeep as (He1 & Ht1 & Hs1 & Hc1 & Hh1).
    rewrite E1. unfold run in IH. apply IH.
    + unfold bare. rewrite He1, Ht1, Hs1, Hc1. auto.
    + congruence.
    + rewrite Ha1. apply negb_true_iff. apply Rltb_false. lra.
    + exact Hwf1.
    + rewrite Hwx1, Hh1. exact Hwx.
    + rewrite Hwy1, Hh1. exact Hwy.
    + congruence.
    + rewrite Hh1. exact Hsz.
    + congruence.
    + rewrite Hd1. rewrite S_INR in Hd. lra.
Qed.

(** X15. A game without enemies (on a screen of non-negative size that is
    not one unit wide or high, for which the constructor raises) is won by
    walking home: after a click on the centre of the home, [n + 1] ticks
    stop the game with "You Win" written, as soon as [10 + 5 * n] covers the
    distance [|w - 150|] between the player's start at [(50, h // 2)] and
    the centre of the home at [(w - 100, h // 2)].  The walk is along the
    horizontal line [y = h // 2], where the heading is 0 or 180 degrees and
    nothing is lost when [towards] rounds it. *)
Theorem level0_walk_home_wins :
  forall (w h lvl : Z) (rnd : Random) (n : nat),
    0 <= w -> 0 <= h -> w <> 1 -> h <> 1 -> lvl <= 0 ->
    (Rabs (IZR w - 150) <= 10 + 5 * INR n)%R ->
    exists g g',
      TurtleAdventureGame_init w h lvl rnd = Ok g /\
      run (Click (IZR (w - 100)) (IZR (h / 2)) :: repeat Tick (S n)) g
      = Ok (tt, g') /\
      stopped g' = true /\ canvas_texts g' = ["You Win"%string].
Proof.
  intros w h lvl rnd n Hw Hh Hw1 Hh1 H0 Hd.
  pose proof (init_spec w h lvl rnd _ Hw1 Hh1
                (create_enemy_nonpositive lvl (base_game w h lvl rnd) H0))
    as Einit.
  set (g := player_placed (base_game w h lvl rnd)) in *.
  set (g1 := set_waypoint
               (Waypoint_activate (IZR (w - 100)) (IZR (h / 2)) (waypoint g)) g).
  destruct (walk_home n g1) as (g' & Er & Hs & Hc).
  - unfold bare. cbn. auto.
  - reflexivity.
  - reflexivity.
  - apply turtle_wf_east.
  - reflexivity.
  - reflexivity.
  - reflexivity.
  - reflexivity.
  - reflexivity.
  - unfold waypoint_distance, distance. cbn.
    replace (IZR (h / 2) - IZR (h / 2))%R with 0%R by ring.
    rewrite hypot_0_r, minus_IZR.
    replace (IZR w - 100 - 50)%R with (IZR w - 150)%R by ring. exact Hd.
  - exists g, g'. split; [exact Einit|]. split; [|auto].
    unfold run in *. cbn [for_each step]. unfold bind at 1.
    unfold on_click, modify. exact Er.
Qed.

Lemma level0_walk_home_wins_witness :
  exists g g',
    TurtleAdventureGame_init 800 500 0 zero_draws = Ok g /\
    run (Click (IZR (800 - 100)) (IZR (500 / 2)) :: repeat Tick (S 128)) g
    = Ok (tt, g') /\
    stopped g' = true /\ canvas_texts g' = ["You Win"%string].
Proof.
  apply (level0_walk_home_wins 800 500 0 zero_draws 128); try lia.
  rewrite Rabs_right by lra.
  replace (INR 128) with 128%R by (rewrite INR_IZR_INZ; reflexivity).
  lra.
Defined.

(** ** Where the first enemies are *)

Lemma create_enemy_preserves (P : Game -> Prop) :
  (forall c g e r,
     table_call c -> spawn_quota c > 0 -> Game_wf g -> P g ->
     EnemyGenerator_spawn_enemy c g = Ok (tt, spawned c e r g) ->
     P (spawned c e r g)) ->
  forall lvl g, Game_wf g -> P g ->
    exists g', EnemyGenerator_create_enemy lvl g = Ok (tt, g') /\
               Game_wf g' /\ P g'.
Proof.
  intros Hstep lvl g Hwf Hp.
  assert (Hspawn : forall c g0,
             table_call c -> Game_wf g0 /\ P g0 ->
             exists g1, EnemyGenerator_spawn_enemy c g0 = Ok (tt, g1) /\
                        (Game_wf g1 /\ P g1) /\ True).
  { intros c g0 Hc [Hwf0 Hp0].
    destruct (Z_gt_le_dec (spawn_quota c) 0) as [Hq|Hq].
    - pose proof Hwf0 as (Hw & Hh & _).
      destruct (spawn_enemy_spec c g0 Hw Hh Hq)
        as (e & r & E & _ & _ & _ & He & _).
      exists (spawned c e r g0). split; [exact E|].
      split; [|exact I].
      split; [apply Game_wf_spawned; assumption|].
      apply Hstep; assumption.
    - exists g0. rewrite spawn_enemy_done by exact Hq. auto. }
  assert (Hgoal : exists g',
             EnemyGenerator_create_enemy lvl g = Ok (tt, g') /\
             (Game_wf g' /\ P g') /\ True);
    [|destruct Hgoal as (g' & E & [? ?] & _); exists g'; auto].
  unfold EnemyGenerator_create_enemy.
  destruct (lvl <? Z.of_nat (List.length enemies_type)) eqn:El.
  - apply (for_each_inv nat (fun g0 => Game_wf g0 /\ P g0) (fun _ _ => True)
             (fun _ => I) (fun _ _ _ _ _ => I)); [|auto].
    intros i g0 Hi Hg0. unfold range in Hi. apply in_seq in Hi.
    assert (Hi3 : (i < 3)%nat) by (cbn in El; lia).
    destruct i as [|[|[|i]]]; [| | |lia]; cbn; unfold_M;
      apply Hspawn; [solve_table_call|exact Hg0
                    |solve_table_call|exact Hg0
                    |solve_table_call|exact Hg0].
  - apply (for_each_inv EnemyRow (fun g0 => Game_wf g0 /\ P g0)
             (fun _ _ => True) (fun _ => I) (fun _ _ _ _ _ => I)); [|auto].
    intros row g0 Hrow Hg0. fold (row_body lvl row).
    unfold row_body; unfold_M.
    destruct (In_enemies_type row Hrow) as [Hk|[Hk|[Hk|Hk]]]; rewrite Hk;
      cbn [high_lvl];
      apply (for_each_inv nat (fun g1 => Game_wf g1 /\ P g1) (fun _ _ => True)
               (fun _ => I) (fun _ _ _ _ _ => I)); try exact Hg0;
      intros j g2 _ Hg2; apply Hspawn; try exact Hg2;
      exists row; cbn; auto.
Qed.

(** What a spawn call registers: an enemy of the table, put where its
    [spawn_location()] says. *)
Lemma spawn_enemy_placed (c : SpawnCall) (g : Game) (e : Enemy) (r : Random) :
  table_call c -> spawn_quota c > 0 -> Game_wf g ->
  EnemyGenerator_spawn_enemy c g = Ok (tt, spawned c e r g) ->
  table_enemy e /\
  (forall f, e = Fencing f -> fencing_spawned (home g) f) /\
  (kind_of e <> FencingEnemyK ->
     exists x y : Z,
       x_of e = IZR x /\ y_of e = IZR y /\
       (if Rleb (player_x (player g)) (IZR (screen_width g) / 2)
        then 3 * (screen_width g / 4) <= x <= screen_width g
        else 0 <= x <= 3 * (screen_width g / 4)) /\
       (if Rleb (player_y (player g)) (IZR (screen_height g) / 2)
        then screen_height g / 2 <= y <= screen_height g
        else 0 <= y <= screen_height g / 2)).
Proof.
  intros Hc Hq Hwf E. pose proof Hwf as (Hw & Hh & _).
  destruct (spawn_enemy_spec c g Hw Hh Hq)
    as (e1 & r1 & E1 & Hk & Hs & Hcol & _ & Hfen).
  destruct (spawn_enemy_shape c g Hw Hh Hq)
    as (e0 & loc & r0 & r' & Ec & El & E').
  assert (He1 : e1 = e).
  { rewrite E in E1. injection E1 as H _.
    apply app_inj_tail in H. destruct H as [_ H]. congruence. }
  assert (He' : Enemy_create (set_position loc e0) = e).
  { rewrite E in E'. injection E' as H _.
    apply app_inj_tail in H. destruct H as [_ H]. congruence. }
  subst e1. split; [|split].
  - destruct Hc as (row & Hin & Ht & Hsz & Hcl).
    exists row. repeat split; congruence.
  - exact Hfen.
  - intros Hnf.
    destruct e0 as [d|rw|ch|f|cg]; cbn in He'; subst e;
      try (exfalso; apply Hnf; reflexivity);
      cbn [spawn_location] in El;
      destruct (Enemy_spawn_location_bounds (set_random r0 g) Hw Hh)
        as (x & y & r2 & Eb & Bx & By);
      rewrite Eb in El; injection El as <- _;
      exists x, y; cbn; auto.
Qed.

Lemma create_enemy_generating (w h lvl : Z) (g : Game) :
  0 <= w -> Game_wf g -> generating w h g ->
  exists g', EnemyGenerator_create_enemy lvl g = Ok (tt, g') /\
             Game_wf g' /\ generating w h g'.
Proof.
  intros Hw. apply create_enemy_preserves. clear g.
  intros c g e r Hc Hq Hwf (Hp & Hh & Hsw & Hsh & Hel) E.
  destruct (spawn_enemy_placed c g e r Hc Hq Hwf E) as (Htab & Hfen & Hoth).
  unfold generating.
  change (player (spawned c e r g)) with (player g).
  change (home (spawned c e r g)) with (home g).
  change (screen_width (spawned c e r g)) with (screen_width g).
  change (screen_height (spawned c e r g)) with (screen_height g).
  change (elements (spawned c e r g)) with (elements g ++ [AnEnemy e]).
  repeat (split; [assumption|]).
  apply Forall_app. split; [exact Hel|].
  constructor; [|constructor]. cbn [on_enemies].
  split; [exact Htab|]. split.
  - intros Hk. destruct e as [d|rw|ch|f|cg]; try discriminate.
    destruct (Hfen f eq_refl) as (Hrad & _ & _ & Hx & Hy).
    rewrite Hh in Hx, Hy. cbn in Hx, Hy.
    exists (fe_path_rad f). split; [exact Hrad|].
    cbn. rewrite Hx, Hy. auto.
  - intros Hk. destruct (Hoth Hk) as (x & y & Hx & Hy & Bx & By).
    rewrite Hp, Hsw in Bx. rewrite Hp, Hsh in By. cbn in Bx, By.
    assert (H0w : Rleb 0 (IZR w / 2) = true).
    { apply Rleb_true. apply IZR_le in Hw. lra. }
    assert (H0h : Rleb 0 (IZR h / 2) = true).
    { apply Rleb_true. destruct Hwf as (_ & H0 & _). rewrite Hsh in H0.
      apply IZR_le in H0. lra. }
    rewrite H0w in Bx. rewrite H0h in By.
    exists x, y. auto.
Qed.

(** X16. The enemies of a newly built game, on a screen of non-negative
    size that is not one unit wide or high (for which the constructor
    raises).  The generator runs before the player is put at
    [(50, h // 2)], so every enemy it registers is placed with the player at
    the origin: a fencing enemy at [(w - 100 + r, h // 2 + r)] for its
    radius [r] in 15..75, any other enemy at an integer point of
    [3 * (w // 4) .. w] x [h // 2 .. h].  On a screen at least 80 wide none
    of them hits the player at the start. *)
Theorem initial_enemies_are_placed_away :
  forall (w h lvl : Z) (rnd : Random),
    0 <= w -> 0 <= h -> w <> 1 -> h <> 1 ->
    exists g,
      TurtleAdventureGame_init w h lvl rnd = Ok g /\
      player_x (player g) = 50%R /\ player_y (player g) = IZR (h / 2) /\
      forall e, In (AnEnemy e) (elements g) ->
        start_region w h e /\ (80 <= w -> hits_player e g = false).
Proof.
  intros w h lvl rnd Hw Hh Hw1 Hh1.
  destruct (create_enemy_generating w h lvl (base_game w h lvl rnd) Hw)
    as (g1 & Ec & Hwf1 & Hp & Hhome & Hsw & Hsh & Hel).
  - apply base_game_wf; assumption.
  - unfold generating. cbn. repeat (split; [reflexivity|]).
    repeat constructor.
  - exists (player_placed g1).
    split; [apply init_spec; assumption|].
    split; [reflexivity|]. split; [cbn; rewrite Hsh; reflexivity|].
    intros e Hin.
    change (elements (player_placed g1)) with (elements g1) in Hin.
    rewrite Forall_forall in Hel. specialize (Hel _ Hin).
    cbn [on_enemies] in Hel. destruct Hel as [Htab Hreg].
    split; [exact Hreg|]. intros H80.
    destruct (hits_player e (player_placed g1)) eqn:Eh; [|reflexivity].
    exfalso. apply hits_player_spec in Eh.
    change (player_x (player (player_placed g1))) with 50%R in Eh.
    change (player_y (player (player_placed g1)))
      with (IZR (screen_height g1 / 2)) in Eh.
    rewrite Hsh in Eh. destruct Eh as [[Hx _] [Hy _]].
    destruct Htab as (row & Hrow & Hk & Hsz & _).
    destruct Hreg as [Hfen Hoth].
    assert (Hsize : kind_of e = FencingEnemyK /\ size_of e = 15 \/
                    kind_of e <> FencingEnemyK /\ size_of e <= 20).
    { rewrite Hk, Hsz. unfold enemies_type in Hrow. cbn in Hrow.
      destruct Hrow as [<-|[<-|[<-|[<-|[]]]]]; cbn;
        first [left; split; [reflexivity|lia]
              |right; split; [discriminate|lia]]. }
    destruct Hsize as [[Hkf Hs]|[Hkf Hs]].
    + destruct (Hfen Hkf) as (rad & Hrad & _ & Hey).
      rewrite Hey, Hs, plus_IZR in Hy.
      assert (15 <= IZR rad)%R by (apply IZR_le; lia). lra.
    + destruct (Hoth Hkf) as (x & y & Hex & _ & Bx & _).
      rewrite Hex in Hx.
      assert (60 <= IZR x)%R.
      { apply IZR_le. pose proof (Z.div_mod w 4).
        pose proof (Z.mod_pos_bound w 4). lia. }
      assert (IZR (size_of e) <= 20)%R by (apply IZR_le; exact Hs).
      lra.
Qed.

Lemma initial_enemies_are_placed_away_witness :
  exists g,
    TurtleAdventureGame_init 800 500 30 zero_draws = Ok g /\
    forall e, In (AnEnemy e) (elements g) -> hits_player e g = false.
Proof.
  destruct (initial_enemies_are_placed_away 800 500 30 zero_draws)
    as (g & Ei & _ & _ & H); [lia|lia|lia|lia|].
  exists g. split; [exact Ei|].
  intros e Hin. apply (H e Hin). lia.
Defined.

(** ** The world coordinates of the screen *)

(** X17. [init_game] begins by setting the world coordinates of the screen
    to [(0, h - 1, w - 1, 0)], which divides by the spans [w - 1] and
    [1 - h]: on a screen one unit wide or high the constructor raises
    [ZeroDivisionError], whatever the level, before anything is registered.
    On every other screen of non-negative size it returns a running game
    with the player at [(50, h // 2)] and the home at
    [(w - 100, h // 2)]. *)
Theorem constructor_needs_a_world_span :
  forall (w h lvl : Z) (rnd : Random),
    (w = 1 \/ h = 1 ->
       TurtleAdventureGame_init w h lvl rnd = Raise ZeroDivisionError) /\
    (0 <= w -> 0 <= h -> w <> 1 -> h <> 1 ->
       exists g,
         TurtleAdventureGame_init w h lvl rnd = Ok g /\
         stopped g = false /\
         screen_width g = w /\ screen_height g = h /\
         player_x (player g) = 50%R /\ player_y (player g) = IZR (h / 2) /\
         home g = Home_init (w - 100, h / 2) 20).
Proof.
  intros w h lvl rnd. split.
  - apply init_raises.
  - intros Hw Hh Hw1 Hh1.
    destruct (init_ok w h lvl rnd Hw Hh Hw1 Hh1)
      as (g1 & _ & Einit & _ & Hgen).
    destruct Hgen as ((Hhome & _ & Hsw & Hsh) & Hst & _).
    exists (player_placed g1). split; [exact Einit|].
    split; [exact Hst|]. split; [exact Hsw|]. split; [exact Hsh|].
    split; [reflexivity|]. split; [cbn; rewrite Hsh; reflexivity|].
    exact Hhome.
Qed.

Lemma constructor_needs_a_world_span_witness :
  TurtleAdventureGame_init 1 500 1 zero_draws = Raise ZeroDivisionError /\
  TurtleAdventureGame_init 800 1 1 zero_draws = Raise ZeroDivisionError /\
  exists g,
    TurtleAdventureGame_init 800 500 1 zero_draws = Ok g /\
    player_x (player g) = 50%R.
Proof.
  split; [|split].
  - apply (constructor_needs_a_world_span 1 500 1 zero_draws). left. reflexivity.
  - apply (constructor_needs_a_world_span 800 1 1 zero_draws). right. reflexivity.
  - destruct (constructor_needs_a_world_span 800 500 1 zero_draws) as [_ Hok].
    destruct Hok as (g & E & _ & _ & _ & Hx & _); [lia|lia|lia|lia|].
    exists g. split; [exact E|exact Hx].
Defined.

(** ** The heading of the player's turtle *)

Lemma Player_update_turtle (g : Game) :
  turtle_wf (player_turtle (player g)) ->
  exists g',
    Player_update g = Ok (tt, g') /\ turtle_wf (player_turtle (player g')).
Proof.
  intros Hwf. pose proof (Player_update_eq g) as E. cbv zeta in E.
  eexists. split; [exact E|].
  pose proof (forward_towards (waypoint_x (waypoint g)) (waypoint_y (waypoint g))
                (player_speed (player g)) (player_turtle (player g)) Hwf)
    as Hft.
  cbv zeta in Hft. destruct Hft as (_ & Hwf' & _).
  destruct (Home_contains _ _ _), (is_active (waypoint g));
    try destruct (Rltb _ _); cbn; assumption.
Qed.

Lemma Element_update_turtle (i : nat) (g : Game) :
  Game_wf g /\ turtle_wf (player_turtle (player g)) ->
  exists g',
    Element_update i g = Ok (tt, g') /\
    (Game_wf g' /\ turtle_wf (player_turtle (player g'))) /\ True.
Proof.
  intros [Hwf Ht].
  destruct (Element_update_ticked i g Hwf) as (g' & E & Hwf' & _).
  exists g'. split; [exact E|]. split; [|exact I]. split; [exact Hwf'|].
  revert E. unfold Element_update. unfold bind at 1. unfold get.
  destruct (nth_error (elements g) i) as [[| | |e]|] eqn:En.
  - unfold Waypoint_update, ret. intros [= <-]. exact Ht.
  - unfold Home_update, ret. intros [= <-]. exact Ht.
  - intros E. destruct (Player_update_turtle g Ht) as (g2 & E2 & H2).
    assert (g2 = g') by congruence. subst g2. exact H2.
  - assert (He : Enemy_wf e).
    { destruct Hwf as (_ & _ & Hall). rewrite Forall_forall in Hall.
      apply (Hall (AnEnemy e)). eapply nth_error_In; eassumption. }
    destruct (Enemy_update_total e g He) as (e' & r & hit & Eu & _).
    unfold_M. rewrite Eu. intros [= <-].
    unfold after_update. destruct hit; exact Ht.
  - unfold ret. intros [= <-]. exact Ht.
Qed.

Lemma step_turtle (ev : Event) (g : Game) :
  Game_wf g /\ turtle_wf (player_turtle (player g)) ->
  exists g',
    step ev g = Ok (tt, g') /\
    (Game_wf g' /\ turtle_wf (player_turtle (player g'))) /\ True.
Proof.
  intros [Hwf Ht]. destruct ev as [| |x y]; cbn [step].
  - unfold Game_tick. unfold bind, get.
    destruct (stopped g); [exists g; auto|].
    apply (for_each_inv nat
             (fun g0 => Game_wf g0 /\ turtle_wf (player_turtle (player g0)))
             (fun _ _ => True) (fun _ => I) (fun _ _ _ _ _ => I)); [|auto].
    intros i g0 _ Hg0. apply Element_update_turtle. exact Hg0.
  - destruct (Game_fire_timer_evolves g Hwf) as (g' & E & Hwf' & _).
    destruct (Game_fire_timer_spec g Hwf) as (g2 & E2 & Hg2).
    assert (g2 = g') by congruence. subst g2.
    exists g'. split; [exact E|]. split; [|exact I]. split; [exact Hwf'|].
    destruct (pop_earliest (timers g)) as [[t rest]|].
    + destruct (stopped g); [subst g'; exact Ht|].
      destruct (spawn_quota (callback t) >? 0).
      * destruct Hg2 as (e & r & -> & _). exact Ht.
      * subst g'. exact Ht.
    + subst g'. exact Ht.
  - unfold on_click; unfold_M. eexists. split; [reflexivity|].
    split; [|exact I]. split; [|exact Ht].
    destruct Hwf as (? & ? & ?). repeat split; assumption.
Qed.

(** X18. The turtle of the player is always oriented along a heading of
    [0, 360) with at most ten decimals of a degree, which [heading()] reads
    back as it is: the fresh turtle of [Player.create] heads to 0, putting
    the player at its start does not turn it, and every update turns it to
    the rounded result of [towards].  So it is in every game that the
    constructor returns, and in every game that follows from it by frame
    ticks, timer firings and clicks. *)
Theorem player_turtle_heading_stays_exact :
  forall (w h lvl : Z) (rnd : Random) (evs : list Event),
    0 <= w -> 0 <= h -> w <> 1 -> h <> 1 ->
    exists g g',
      TurtleAdventureGame_init w h lvl rnd = Ok g /\
      run evs g = Ok (tt, g') /\
      heading (player_turtle (player g)) = 0%R /\
      turtle_wf (player_turtle (player g')) /\
      exists a : R,
        (0 <= a < 360)%R /\ exact10 a /\
        heading (player_turtle (player g')) = a /\
        orient_x (player_turtle (player g')) = cos (radians a) /\
        orient_y (player_turtle (player g')) = sin (radians a).
Proof.
  intros w h lvl rnd evs Hw Hh Hw1 Hh1.
  destruct (init_ok w h lvl rnd Hw Hh Hw1 Hh1)
    as (g1 & _ & Einit & Hwf & Hgen).
  assert (Ht : player_turtle (player (player_placed g1))
               = mkTurtle 50 (IZR (screen_height g1 / 2)) 1 0).
  { destruct Hgen as (_ & _ & _ & Hp & _).
    unfold player_placed. cbn [player set_player]. rewrite Hp. reflexivity. }
  assert (Hwft : turtle_wf (player_turtle (player (player_placed g1))))
    by (rewrite Ht; apply turtle_wf_east).
  destruct (for_each_inv Event
              (fun g0 => Game_wf g0 /\ turtle_wf (player_turtle (player g0)))
              (fun _ _ => True) (fun _ => I) (fun _ _ _ _ _ => I) evs step)
    with (g := player_placed g1) as (g' & Er & [_ Hwf'] & _).
  - intros ev g0 _ Hg0. apply step_turtle. exact Hg0.
  - split; assumption.
  - exists (player_placed g1), g'.
    split; [exact Einit|]. split; [exact Er|]. split.
    + rewrite Ht. apply heading_exact; cbn [orient_x orient_y].
      * lra.
      * exists 0. lra.
      * replace (radians 0) with 0%R by (unfold radians; lra).
        symmetry. apply cos_0.
      * replace (radians 0) with 0%R by (unfold radians; lra).
        symmetry. apply sin_0.
    + split; [exact Hwf'|].
      destruct Hwf' as (a & Ha & Hex & Hx & Hy).
      exists a. split; [exact Ha|]. split; [exact Hex|].
      split; [apply heading_exact; assumption|]. auto.
Qed.

Lemma player_turtle_heading_stays_exact_witness :
  exists g g',
    TurtleAdventureGame_init 800 500 1 zero_draws = Ok g /\
    run [Click 10 10; Tick; TimerFires; Tick] g = Ok (tt, g') /\
    turtle_wf (player_turtle (player g')).
Proof.
  destruct (player_turtle_heading_stays_exact 800 500 1 zero_draws
              [Click 10 10; Tick; TimerFires; Tick])
    as (g & g' & Ei & Er & _ & Hwf & _); [lia|lia|lia|lia|].
  exists g, g'. auto.
Defined.
